(** * Voice-agent webhook: a shallow embedding of the caption normaliser,
      the Gemini voice service and the webhook router.

    Sources embedded here:
    - [src/app/api/webhook/route.ts]: [extractCaptionText],
      [ensureGeminiSessionForMeeting], [POST];
    - the voice service module ([GeminiVoiceService]): [startSession],
      [processTranscription], [generateGeminiResponse], [textToSpeech],
      [uploadToCloudinary], [endSession], [hasSession].                     *)

From Stdlib Require Import ZArith Ascii String DecimalString List Bool Lia.
From stdpp Require Import base option list gmap strings fin_maps relations.

Local Open Scope Z_scope.

(** ** JavaScript values as produced by [JSON.parse]

    A string is the sequence of bytes of its UTF-8 encoding (a lone
    surrogate encoded like any other code point), so that every string
    [JSON.parse] can produce has its own value here; the handlers compare
    strings, split them at ASCII characters, test them for emptiness and
    trim them, which the encoding preserves.  A number is kept as an
    integer code with 0 for zero: the handlers test its truthiness and pass
    it on.  The property list of [JObj] is the object's own enumerable
    properties in [Object.entries] order. *)
#[local] Unset Elimination Schemes.
Inductive jsval : Type :=
| JUndefined
| JNull
| JBool (b : bool)
| JNum (n : Z)
| JStr (s : string)
| JArr (xs : list jsval)
| JObj (props : list (string * jsval)).
#[local] Set Elimination Schemes.

Inductive js_error : Type :=
| TypeError (msg : string)
| RangeError (msg : string)
| Error (msg : string).

(** The outcome of evaluating a statement that may throw. *)
Inductive completion (A : Type) : Type :=
| Normal (a : A)
| Throw (e : js_error).
Arguments Normal {A} a.
Arguments Throw {A} e.

#[global] Instance completion_ret : MRet completion := fun _ a => Normal a.
#[global] Instance completion_bind : MBind completion :=
  fun _ _ f c => match c with Normal a => f a | Throw e => Throw e end.

Module JS.

(** [ToBoolean]. *)
Definition truthy (v : jsval) : bool :=
  match v with
  | JUndefined | JNull => false
  | JBool b => b
  | JNum n => negb (n =? 0)
  | JStr s => negb (String.eqb s "")
  | JArr _ | JObj _ => true
  end.

(** [typeof v === 'object'] (true of [null], arrays and objects). *)
Definition typeof_object (v : jsval) : bool :=
  match v with JNull | JArr _ | JObj _ => true | _ => false end.

Fixpoint assoc (k : string) (props : list (string * jsval)) : jsval :=
  match props with
  | [] => JUndefined
  | (k', v) :: rest => if String.eqb k' k then v else assoc k rest
  end.

(** [v.k] for a key that is neither an index, [length], nor a prototype
    member: reading a property of [undefined] or [null] throws, every
    other value answers (primitives and arrays with [undefined]). *)
Definition get (v : jsval) (k : string) : completion jsval :=
  match v with
  | JUndefined | JNull =>
      Throw (TypeError ("Cannot read properties of undefined or null: " +:+ k))
  | JObj props => Normal (assoc k props)
  | _ => Normal JUndefined
  end.

(** [a || b], with [b] evaluated only when [a] is falsy. *)
Definition or_else (a : jsval) (b : completion jsval) : completion jsval :=
  if truthy a then Normal a else b.

(** [a === b] for a string literal [b]. *)
Definition strict_eq_str (a : jsval) (b : string) : bool :=
  match a with JStr s => String.eqb s b | _ => false end.

(** White space and line terminators, as [trim] knows them, by their
    UTF-8 encodings: TAB, LF, VT, FF, CR and SP in one byte; NBSP (U+00A0)
    in two; U+1680, U+2000 to U+200A, LS (U+2028), PS (U+2029), U+202F,
    U+205F, U+3000 and ZWNBSP (U+FEFF) in three. *)
Definition is_white_space_1 (c1 : ascii) : bool :=
  let n := nat_of_ascii c1 in
  ((9 <=? n)%nat && (n <=? 13)%nat) || (n =? 32)%nat.

Definition is_white_space_2 (c1 c2 : ascii) : bool :=
  (nat_of_ascii c1 =? 194)%nat && (nat_of_ascii c2 =? 160)%nat.

Definition is_white_space_3 (c1 c2 c3 : ascii) : bool :=
  let n1 := nat_of_ascii c1 in
  let n2 := nat_of_ascii c2 in
  let n3 := nat_of_ascii c3 in
  ((n1 =? 225) && (n2 =? 154) && (n3 =? 128))%nat ||
  ((n1 =? 226) && (n2 =? 128) &&
   (((128 <=? n3) && (n3 <=? 138)) || (n3 =? 168) || (n3 =? 169) || (n3 =? 175)))%nat ||
  ((n1 =? 226) && (n2 =? 129) && (n3 =? 159))%nat ||
  ((n1 =? 227) && (n2 =? 128) && (n3 =? 128))%nat ||
  ((n1 =? 239) && (n2 =? 187) && (n3 =? 191))%nat.

(** The string without the white space it starts with.  With [mirrored]
    the bytes of the string come last first, and so do those of each
    character. *)
Fixpoint skip_white_space (mirrored : bool) (s : string) : string :=
  match s with
  | EmptyString => EmptyString
  | String c1 r1 =>
      if is_white_space_1 c1 then skip_white_space mirrored r1
      else
        match r1 with
        | EmptyString => s
        | String c2 r2 =>
            if (if mirrored then is_white_space_2 c2 c1 else is_white_space_2 c1 c2)
            then skip_white_space mirrored r2
            else
              match r2 with
              | EmptyString => s
              | String c3 r3 =>
                  if (if mirrored then is_white_space_3 c3 c2 c1
                      else is_white_space_3 c1 c2 c3)
                  then skip_white_space mirrored r3
                  else s
              end
        end
  end.

Definition reverse (s : string) : string :=
  string_of_list_ascii (rev (list_ascii_of_string s)).

Definition trim_start (s : string) : string := skip_white_space false s.

Definition trim_end (s : string) : string :=
  reverse (skip_white_space true (reverse s)).

(** [String.prototype.trim]. *)
Definition trim (s : string) : string := trim_end (trim_start s).

(** [s.trim().length > 0]. *)
Definition nonblank (s : string) : bool :=
  (0 <? String.length (trim s))%nat.

(** [s.split(sep)] for a one-character separator. *)
Fixpoint split (sep : ascii) (s : string) : list string :=
  match s with
  | EmptyString => [EmptyString]
  | String c s' =>
      if Ascii.eqb c sep then EmptyString :: split sep s'
      else match split sep s' with
           | [] => [String c EmptyString]
           | p :: ps => String c p :: ps
           end
  end.

(** Decimal rendering of an array index, as [Object.entries] keys it. *)
Definition index_key (i : nat) : string :=
  DecimalString.NilZero.string_of_uint (Nat.to_uint i).

End JS.

(** ** CaptionNormalizer: [extractCaptionText] (route.ts, lines 27-63) *)

Definition text_keys : list string := ["text"; "caption"; "content"].

Definition is_text_key (k : string) : bool :=
  existsb (String.eqb k) text_keys.

(** [typeof v === 'string' && v.trim().length > 0], yielding the string. *)
Definition text_hit (v : jsval) : option string :=
  match v with
  | JStr s => if JS.nonblank s then Some s else None
  | _ => None
  end.

(** Lines 32-46: the known locations.  [Some s] is an early [return s];
    [None] falls through to the scan. *)
Definition known_locations (o : jsval) : completion (option string) :=
  a ← JS.get o "closed_caption";
  cc ← JS.or_else a (JS.get o "caption");
  if JS.truthy cc then
    t ← JS.get cc "text";
    tc ← JS.or_else t (JS.get cc "caption");
    direct ← JS.or_else tc (JS.get cc "content");
    match text_hit direct with
    | Some d => Normal (Some d)
    | None =>
        (* Some providers nest inside payload or data *)
        p ← JS.get cc "payload";
        payload ← JS.or_else p (JS.get cc "data");
        if JS.truthy payload then
          t' ← JS.get payload "text";
          tc' ← JS.or_else t' (JS.get payload "caption");
          pText ← JS.or_else tc' (JS.get payload "content");
          Normal (text_hit pText)
        else Normal None
    end
  else Normal None.

(** Lines 48-60: one iteration of the scan over [Object.entries(o)].
    [recur] is the recursive call of line 57, which may fail to be made;
    [Some s] is an early [return s], [None] continues with the next
    entry. *)
Definition scan_entry (recur : jsval → completion (option string))
    (k : string) (v : jsval) : completion (option string) :=
  match v with
  | JStr s => Normal (if is_text_key k && JS.nonblank s then Some s else None)
  | _ =>
      if JS.truthy v && JS.typeof_object v then
        inner ← recur v;
        Normal (match inner with
                | Some i => if JS.truthy (JStr i) then Some i else None
                | None => None
                end)
      else Normal None
  end.

(** Lines 48-60: the loop [for (const [k, v] of Object.entries(o))], over
    the properties of an object and over the indexed elements of an array. *)
Section Scan.
Variable recur : jsval → completion (option string).

Fixpoint scan_props (es : list (string * jsval)) : completion (option string) :=
  match es with
  | [] => Normal None
  | (k, v) :: rest =>
      found ← scan_entry recur k v;
      match found with
      | Some s => Normal (Some s)
      | None => scan_props rest
      end
  end.

Fixpoint scan_elems (i : nat) (es : list jsval) : completion (option string) :=
  match es with
  | [] => Normal None
  | v :: rest =>
      found ← scan_entry recur (JS.index_key i) v;
      match found with
      | Some s => Normal (Some s)
      | None => scan_elems (S i) rest
      end
  end.
End Scan.

(** [try { ... } catch {}  return null]: whatever the block throws is
    swallowed and the function answers [null]. *)
Definition catch_null (c : completion (option string)) : option string :=
  match c with
  | Normal r => r
  | Throw _ => None
  end.

(** Lines 28-60, the body of the [try] block, with [recur] for the call
    of line 57. *)
Definition extractCaptionText_try (recur : jsval → completion (option string))
    (obj : jsval) : completion (option string) :=
  if negb (JS.truthy obj) || negb (JS.typeof_object obj) then Normal None
  else
    known ← known_locations obj;
    match known with
    | Some s => Normal (Some s)
    | None =>
        match obj with
        | JObj props => scan_props recur props
        | JArr xs => scan_elems recur 0%nat xs
        | _ => Normal None
        end
    end.

(** What the engine throws at a call the stack has no room for. *)
Definition stack_overflow : js_error :=
  RangeError "Maximum call stack size exceeded".

(** Lines 27-63.  The function recurs without a bound of its own, so the
    bound is that of the engine: [stack] is the number of calls of the
    function, nested one in the other, that the stack still has room for
    below this one.  A call of line 57 the stack has no room for throws at
    the call, inside the [try] block of the caller, whose [catch] answers
    [null]; a call that is made is a call of the whole function, [catch]
    included. *)
Fixpoint extractCaptionText (stack : nat) (obj : jsval) : option string :=
  catch_null
    (extractCaptionText_try
       (fun v => match stack with
                 | O => Throw stack_overflow
                 | S below => Normal (extractCaptionText below v)
                 end)
       obj).


(** ** The voice service ([GeminiVoiceService])

    Console output is not part of the modelled state. *)

Record message := { role : string; content : string }.

Record audio_response := { text : string; audioUrl : string; timestamp : Z }.

Definition buffer := list Byte.byte.

(** [interface GeminiVoiceSession]; [call] is kept as the id of the call
    handle. *)
Record GeminiVoiceSession := {
  call : string;
  agentUserId : string;
  instructions : string;
  conversationHistory : list message;
  isProcessing : bool;
  audioResponses : list audio_response;
}.

(** Session objects are mutable and shared by reference: the [Map] of the
    service holds references into a store of objects, and a running turn
    keeps its own reference to the session it entered on. *)
Definition loc := nat.

Record GeminiVoiceService := {
  sessions : gmap string loc;
  heap : list GeminiVoiceSession;
}.

Inductive upload_reply :=
| UploadError (e : js_error)
| UploadResult (secure_url : option string).

(** The collaborators of the service: language model, speech synthesis,
    asset store and clock. *)
Record services := {
  GEMINI_API_KEY : bool;
  generateContent : string → completion string;
  ttsClient : bool;
  synthesizeSpeech : string → completion (option buffer);
  upload_stream : buffer → string → Z → upload_reply;
  now : Z;
}.

Definition set_isProcessing (b : bool) (s : GeminiVoiceSession) : GeminiVoiceSession :=
  {| call := call s; agentUserId := agentUserId s; instructions := instructions s;
     conversationHistory := conversationHistory s; isProcessing := b;
     audioResponses := audioResponses s |}.

Definition push_history (m : message) (s : GeminiVoiceSession) : GeminiVoiceSession :=
  {| call := call s; agentUserId := agentUserId s; instructions := instructions s;
     conversationHistory := conversationHistory s ++ [m];
     isProcessing := isProcessing s; audioResponses := audioResponses s |}.

Definition push_audio (a : audio_response) (s : GeminiVoiceSession) : GeminiVoiceSession :=
  {| call := call s; agentUserId := agentUserId s; instructions := instructions s;
     conversationHistory := conversationHistory s; isProcessing := isProcessing s;
     audioResponses := audioResponses s ++ [a] |}.

(** In-place update of the session object at [l]. *)
Definition update (l : loc) (f : GeminiVoiceSession → GeminiVoiceSession)
    (sv : GeminiVoiceService) : GeminiVoiceService :=
  {| sessions := sessions sv;
     heap := match heap sv !! l with
             | Some s => <[l := f s]> (heap sv)
             | None => heap sv
             end |}.

(** [this.sessions.get(callId)]. *)
Definition get_session (callId : string) (sv : GeminiVoiceService)
  : option (loc * GeminiVoiceSession) :=
  l ← sessions sv !! callId; s ← heap sv !! l; Some (l, s).

(** Lines 101-116: a fresh session object is stored under the call id,
    whatever was stored there before. *)
Definition startSession (callId agentId instr : string) (sv : GeminiVoiceService)
  : GeminiVoiceService :=
  {| sessions := <[callId := length (heap sv)]> (sessions sv);
     heap := heap sv ++ [ {| call := callId; agentUserId := agentId;
                             instructions := instr; conversationHistory := [];
                             isProcessing := false; audioResponses := [] |} ] |}.

(** Lines 306-309. *)
Definition endSession (callId : string) (sv : GeminiVoiceService) : GeminiVoiceService :=
  {| sessions := delete callId (sessions sv); heap := heap sv |}.

(** Lines 311-313. *)
Definition hasSession (callId : string) (sv : GeminiVoiceService) : bool :=
  bool_decide (is_Some (sessions sv !! callId)).

(** Lines 299-304. *)
Definition getAudioResponses (callId : string) (sv : GeminiVoiceService)
  : list audio_response :=
  match get_session callId sv with
  | Some (_, s) => audioResponses s
  | None => []
  end.

Definition nl : string := String (ascii_of_nat 10) EmptyString.

Fixpoint join (sep : string) (parts : list string) : string :=
  match parts with
  | [] => ""
  | [p] => p
  | p :: rest => p +:+ sep +:+ join sep rest
  end.

(** Lines 243-251. *)
Definition render_prompt (instr : string) (history : list message) : string :=
  let systemPrompt :=
    instr +:+ nl +:+ nl +:+
    "You are having a conversation. Respond naturally and concisely." in
  let conversationParts :=
    map (fun msg => (if String.eqb (role msg) "user" then "User" else "Assistant")
                      +:+ ": " +:+ content msg) history in
  systemPrompt +:+ nl +:+ nl +:+ "Conversation:" +:+ nl +:+
  join (nl +:+ nl) conversationParts +:+ nl +:+ nl +:+ "Assistant:".

Section Service.
Variable ext : services.

(** Lines 236-259 (with [getGeminiClient], lines 78-87). *)
Definition generateGeminiResponse (instr : string) (history : list message)
  : completion string :=
  if negb (GEMINI_API_KEY ext)
  then Throw (Error "GEMINI_API_KEY or GOOGLE_GENAI_API_KEY is required")
  else
    text ← generateContent ext (render_prompt instr history);
    Normal (if String.eqb text "" then
              "I apologize, but I could not generate a response."
            else text).

(** Lines 261-288: [null] without a client, a buffer on success, an error
    when the reply carries no audio or the call fails. *)
Definition textToSpeech (reply : string) : completion (option buffer) :=
  if negb (ttsClient ext) then Normal None
  else
    audioContent ← synthesizeSpeech ext reply;
    match audioContent with
    | None => Throw (Error "Failed to generate audio from text")
    | Some b => Normal (Some b)
    end.

(** Lines 207-234. *)
Definition uploadToCloudinary (b : buffer) (callId : string) : completion string :=
  match upload_stream ext b callId (now ext) with
  | UploadError e => Throw e
  | UploadResult (Some url) =>
      if String.eqb url "" then Throw (Error "Cloudinary upload failed to return URL")
      else Normal url
  | UploadResult None => Throw (Error "Cloudinary upload failed to return URL")
  end.
End Service.

(** *** [processTranscription] (lines 118-204)

    The method is asynchronous: it runs without interruption up to each
    [await], where it is suspended until the awaited call settles.  A
    suspended invocation is one of three continuations; each carries the
    reference [l] to the session it entered on and the arguments of the
    pending call. *)
Inductive turn : Type :=
| AwaitGemini (l : loc) (callId : string) (instr : string) (history : list message)
| AwaitTTS (l : loc) (callId : string) (geminiResponse : string)
| AwaitUpload (l : loc) (callId : string) (geminiResponse : string) (audioBuffer : buffer).

Definition turn_loc (t : turn) : loc :=
  match t with
  | AwaitGemini l _ _ _ | AwaitTTS l _ _ | AwaitUpload l _ _ _ => l
  end.

(** What the pending call of a suspended invocation settles with. *)
Definition settlement (t : turn) : Type :=
  match t with
  | AwaitGemini _ _ _ _ => completion string
  | AwaitTTS _ _ _ => completion (option buffer)
  | AwaitUpload _ _ _ _ => completion string
  end.

Inductive turn_state : Type :=
| Suspended (t : turn)
| Returned (c : completion unit).

(** Lines 199-203 around a piece of the [try] block: a suspension leaves
    the block pending; leaving it normally runs [finally]; leaving it with
    an exception runs [catch] (which only logs) and then [finally]. *)
Definition try_block (l : loc) (r : GeminiVoiceService * completion (option turn))
  : GeminiVoiceService * turn_state :=
  match r with
  | (sv, Normal (Some t)) => (sv, Suspended t)
  | (sv, Normal None) => (update l (set_isProcessing false) sv, Returned (Normal ()))
  | (sv, Throw _) => (update l (set_isProcessing false) sv, Returned (Normal ()))
  end.

(** Lines 123-140, up to the first [await]. *)
Definition pt_enter (callId transcriptionText : string) (speakerId : jsval)
    (sv : GeminiVoiceService) : GeminiVoiceService * turn_state :=
  match get_session callId sv with
  | None => (sv, Returned (Normal ()))
  | Some (l, session) =>
      if isProcessing session then (sv, Returned (Normal ()))
      else if JS.strict_eq_str speakerId (agentUserId session)
      then (sv, Returned (Normal ()))
      else
        let sv1 := update l (set_isProcessing true) sv in
        let user := {| role := "user"; content := transcriptionText |} in
        let sv2 := update l (push_history user) sv1 in
        try_block l
          (sv2, Normal (Some (AwaitGemini l callId (instructions session)
                                (conversationHistory session ++ [user]))))
  end.

(** Lines 140-204, resumed when the pending call has settled with [r]. *)
Definition pt_resume (svc : services) (t : turn)
  : settlement t → GeminiVoiceService → GeminiVoiceService * turn_state :=
  match t with
  | AwaitGemini l callId _ _ => fun r sv =>
      try_block l
        match r with
        | Throw e => (sv, Throw e)
        | Normal geminiResponse =>
            let reply := {| role := "assistant"; content := geminiResponse |} in
            (update l (push_history reply) sv,
             Normal (Some (AwaitTTS l callId geminiResponse)))
        end
  | AwaitTTS l callId geminiResponse => fun r sv =>
      try_block l
        match r with
        | Throw e => (sv, Throw e)
        | Normal (Some audioBuffer) =>
            (sv, Normal (Some (AwaitUpload l callId geminiResponse audioBuffer)))
        | Normal None =>
            (update l (push_audio {| text := geminiResponse; audioUrl := "";
                                     timestamp := now svc |}) sv,
             Normal None)
        end
  | AwaitUpload l callId geminiResponse _ => fun r sv =>
      try_block l
        match r with
        | Throw saveError => (sv, Normal None)
        | Normal url =>
            (update l (push_audio {| text := geminiResponse; audioUrl := url;
                                     timestamp := now svc |}) sv,
             Normal None)
        end
  end.

(** The call a suspended invocation is waiting for, answered by the
    collaborators. *)
Definition answer (svc : services) (t : turn) : settlement t :=
  match t with
  | AwaitGemini _ _ instr history => generateGeminiResponse svc instr history
  | AwaitTTS _ _ geminiResponse => textToSpeech svc geminiResponse
  | AwaitUpload _ callId _ audioBuffer => uploadToCloudinary svc audioBuffer callId
  end.

Definition settle (svc : services) (st : GeminiVoiceService * turn_state)
  : GeminiVoiceService * turn_state :=
  match st with
  | (sv, Suspended t) => pt_resume svc t (answer svc t) sv
  | (sv, Returned c) => (sv, Returned c)
  end.

(** One invocation run to completion with nothing else interleaved: the
    first segment followed by the (at most three) resumptions. *)
Definition processTranscription (svc : services) (callId transcriptionText : string)
    (speakerId : jsval) (sv : GeminiVoiceService) : GeminiVoiceService * turn_state :=
  settle svc (settle svc (settle svc (pt_enter callId transcriptionText speakerId sv))).

(** *** Overlapping invocations

    Node runs one segment at a time: between two [await]s nothing else
    executes, and at an [await] any other pending work may run.  A state of
    the service under concurrent use is the service together with the
    suspended invocations of [processTranscription]; a step is the first
    segment of a new invocation, the resumption of a suspended one with an
    arbitrary settlement of its pending call, or a call of [startSession]
    or [endSession] (neither of which awaits). *)
Definition system : Type := GeminiVoiceService * list turn.

Definition suspended (st : turn_state) : list turn :=
  match st with
  | Suspended t => [t]
  | Returned _ => []
  end.

Inductive step (svc : services) : system → system → Prop :=
| step_invoke callId transcriptionText speakerId sv ts sv' st :
    pt_enter callId transcriptionText speakerId sv = (sv', st) →
    step svc (sv, ts) (sv', suspended st ++ ts)
| step_settle sv ts1 t ts2 (r : settlement t) sv' st :
    pt_resume svc t r sv = (sv', st) →
    step svc (sv, ts1 ++ t :: ts2) (sv', ts1 ++ suspended st ++ ts2)
| step_start callId agentId instr sv ts :
    step svc (sv, ts) (startSession callId agentId instr sv, ts)
| step_end callId sv ts :
    step svc (sv, ts) (endSession callId sv, ts).

(** No invocation is in flight and no session is marked as processing. *)
Definition quiescent (sy : system) : Prop :=
  sy.2 = [] ∧ ∀ l s, heap sy.1 !! l = Some s → isProcessing s = false.

(** The invocations past the guard of the session object at [l]. *)
Definition in_flight (l : loc) (sy : system) : list turn :=
  filter (λ t, turn_loc t = l) sy.2.

(** ** The webhook router (route.ts) *)

(** Modelled from the spec: the status of a meeting record, declared in
    [@/db/schema], which the sources use but do not contain.  It is one of
    upcoming, active, processing, completed, cancelled. *)
Inductive meeting_status := upcoming | active | processing | completed | cancelled.

#[global] Instance meeting_status_eq_dec : EqDecision meeting_status.
Proof. solve_decision. Defined.

(** Modelled from the spec: a row of the [meetings] table of [@/db/schema],
    with the columns the router reads and writes; rows are keyed by their
    id. *)
Record meeting := {
  agentId : string;
  status : meeting_status;
  startedAt : option Z;
  endedAt : option Z;
  transcriptUrl : jsval;
  recordingUrl : jsval;
}.

(** Modelled from the spec: a row of the [agents] table of [@/db/schema],
    keyed by its id. *)
Record agent := { name : string; agent_instructions : string }.

(** The state a request runs against: the voice service and the two
    tables. *)
Record world := {
  voice : GeminiVoiceService;
  meetings : gmap string meeting;
  agents : gmap string agent;
}.

(** The statements sent to the database, by place in the source. *)
Inductive db_site :=
| StartedSelectMeeting | StartedUpdateStatus | StartedSelectAgent
| EndedUpdateStatus | TranscriptUpdate | RecordingUpdate
| EnsureSelectMeeting | EnsureSelectAgent.

Inductive upsert_site := UpsertFirst | UpsertRetry | UpsertEnsure.

(** The collaborators of the router.  Every call of an external service
    has an outcome chosen by the environment; [db_fault] makes a database
    statement fail.  [call_stack] is the room the stack of the engine has
    for nested calls of [extractCaptionText] when a handler calls it, and
    [ToString] is the text the engine renders a value with that is not a
    string, as a template literal does. *)
Record external := {
  svc : services;
  verifyWebhook : string → string → bool;
  JSON_parse : string → option jsval;
  db_fault : db_site → bool;
  upsertUsers : upsert_site → bool;
  OPENAI_API_KEY : bool;
  connectOpenAi : bool;
  fetch_text : jsval → completion string;
  inngest_send : bool;
  call_stack : nat;
  ToString : jsval → string;
}.

Record request := {
  x_signature : option string;
  x_api_key : option string;
  body : string;
}.

(** [NextResponse.json(body, { status })]. *)
Record response := { status_code : Z; json : jsval }.

Definition respond_error (msg : string) (code : Z) : response :=
  {| status_code := code; json := JObj [("error", JStr msg)] |}.

Definition respond_status (st : string) : response :=
  {| status_code := 200; json := JObj [("status", JStr st)] |}.

(** State and exceptions of a handler.  A request is run to completion
    against the state; two requests are not interleaved with one another
    here (the interleaving of turns on the voice service is modelled above
    by [step]). *)
Definition M (A : Type) : Type := world → completion A * world.

Definition ret {A} (a : A) : M A := fun w => (Normal a, w).
Definition throw {A} (e : js_error) : M A := fun w => (Throw e, w).
Definition bind {A B} (m : M A) (f : A → M B) : M B :=
  fun w => match m w with
           | (Normal a, w') => f a w'
           | (Throw e, w') => (Throw e, w')
           end.
Definition lift {A} (c : completion A) : M A := fun w => (c, w).
Definition gets {A} (f : world → A) : M A := fun w => (Normal (f w), w).
Definition modify (f : world → world) : M unit := fun w => (Normal (), f w).

(** [try { m } catch (e) { h e }]: what [m] did to the state before it
    threw stays done. *)
Definition try_catch {A} (m : M A) (h : js_error → M A) : M A :=
  fun w => match m w with
           | (Throw e, w') => h e w'
           | r => r
           end.

Declare Scope handler_scope.
Delimit Scope handler_scope with handler.
Notation "'let*' x := m 'in' k" := (bind m (fun x => k))
  (at level 10, x name, m at level 100, k at level 200) : handler_scope.
Notation "m ;;; k" := (bind m (fun _ => k))
  (at level 100, k at level 200, right associativity) : handler_scope.

Definition on_voice (f : GeminiVoiceService → GeminiVoiceService) (w : world) : world :=
  {| voice := f (voice w); meetings := meetings w; agents := agents w |}.

Definition on_meetings (f : gmap string meeting → gmap string meeting) (w : world)
  : world :=
  {| voice := voice w; meetings := f (meetings w); agents := agents w |}.

(** A row is looked up by a JavaScript value.  The ids of meetings are
    text, and the event types of the video SDK give the ids of calls as
    strings.  What a value of another type compares equal to is decided by
    the database driver and by the call handle of the SDK, neither of
    which is in the sources: here such a value matches no row and names no
    session, and what is proved below about the start and the end of a
    call is stated for ids that are strings. *)
Definition find {A} (table : gmap string A) (id : jsval) : option (string * A) :=
  match id with
  | JStr k => (λ a, (k, a)) <$> table !! k
  | _ => None
  end.

(** [x?.k]: [undefined] when [x] is [undefined] or [null]. *)
Definition opt_get (x : jsval) (k : string) : completion jsval :=
  match x with
  | JUndefined | JNull => Normal JUndefined
  | _ => JS.get x k
  end.

(** [x.split(':')[1]]: a string method, so anything but a string throws. *)
Definition split_1 (x : jsval) : completion jsval :=
  match x with
  | JStr s => Normal (match JS.split ":" s !! 1%nat with
                      | Some part => JStr part
                      | None => JUndefined
                      end)
  | _ => Throw (TypeError "split is not a function")
  end.

(** [x?.split(':')[1]]. *)
Definition opt_split_1 (x : jsval) : completion jsval :=
  match x with
  | JUndefined | JNull => Normal JUndefined
  | _ => split_1 x
  end.

(** Lines 370-372 and 415-417:
    [p.call_cid?.split(':')[1] || p.call?.cid?.split(':')[1]]. *)
Definition caption_meetingId (p : jsval) : completion jsval :=
  cid ← JS.get p "call_cid";
  a ← opt_split_1 cid;
  JS.or_else a (c ← JS.get p "call"; cid' ← opt_get c "cid"; opt_split_1 cid').

(** Lines 161 and 276: [event.call.custom?.meetingId]. *)
Definition custom_meetingId (event : jsval) : completion jsval :=
  c ← JS.get event "call";
  custom ← JS.get c "custom";
  opt_get custom "meetingId".

(** Lines 390-394. *)
Definition caption_speakerId (p : jsval) : completion jsval :=
  u ← JS.get p "user";
  a ← opt_get u "id";
  b ← JS.or_else a (cc ← JS.get p "closed_caption"; opt_get cc "user_id");
  c ← JS.or_else b (JS.get p "speaker_id");
  JS.or_else c (Normal (JStr "user")).

Section Router.
Variable ext : external.
Local Open Scope handler_scope.

(** A statement sent to the database; it throws when the database fails. *)
Definition db_statement (site : db_site) : M unit :=
  if db_fault ext site then throw (Error "database error") else ret ().

(** [streamVideo.upsertUsers]. *)
Definition upsert (site : upsert_site) : M unit :=
  if upsertUsers ext site then ret () else throw (Error "upsertUsers failed").

(** [await geminiVoiceService.processTranscription(...)]. *)
Definition await_processTranscription (callId transcriptionText : string)
    (speakerId : jsval) : M unit :=
  fun w =>
    let '(sv, st) := processTranscription (svc ext) callId transcriptionText
                       speakerId (voice w) in
    (match st with
     | Returned c => c
     | Suspended _ => Normal ()
     end, on_voice (fun _ => sv) w).

(** Lines 69-130. *)
Definition ensureGeminiSessionForMeeting (meetingId : string) : M bool :=
  try_catch
    (let* has := gets (fun w => hasSession meetingId (voice w)) in
     if has then ret true else
     db_statement EnsureSelectMeeting ;;;
     let* ms := gets meetings in
     match ms !! meetingId with
     | None => ret false
     | Some meeting =>
         db_statement EnsureSelectAgent ;;;
         let* ags := gets agents in
         match ags !! agentId meeting with
         | None => ret false
         | Some agent =>
             try_catch (upsert UpsertEnsure) (fun _ => ret ()) ;;;
             modify (on_voice (startSession meetingId (agentId meeting)
                                 (agent_instructions agent))) ;;;
             ret true
         end
     end)
    (fun _ => ret false).

(** Lines 171-177: the rows a start event may activate. *)
Definition startable (m : meeting) : bool :=
  negb (bool_decide (status m = active)) &&
  negb (bool_decide (status m = completed)) &&
  negb (bool_decide (status m = cancelled)) &&
  negb (bool_decide (status m = processing)).

Definition activate (m : meeting) : meeting :=
  {| agentId := agentId m; status := active; startedAt := Some (now (svc ext));
     endedAt := endedAt m; transcriptUrl := transcriptUrl m;
     recordingUrl := recordingUrl m |}.

Definition finish (m : meeting) : meeting :=
  if bool_decide (status m = active) then
    {| agentId := agentId m; status := processing; startedAt := startedAt m;
       endedAt := Some (now (svc ext)); transcriptUrl := transcriptUrl m;
       recordingUrl := recordingUrl m |}
  else m.

Definition set_transcriptUrl (url : jsval) (m : meeting) : meeting :=
  {| agentId := agentId m; status := status m; startedAt := startedAt m;
     endedAt := endedAt m; transcriptUrl := url; recordingUrl := recordingUrl m |}.

Definition set_recordingUrl (url : jsval) (m : meeting) : meeting :=
  {| agentId := agentId m; status := status m; startedAt := startedAt m;
     endedAt := endedAt m; transcriptUrl := transcriptUrl m; recordingUrl := url |}.

(** [db.update(meetings).set(...).where(eq(meetings.id, id))], possibly
    with a further condition folded into [f]. *)
Definition update_meeting (f : meeting → meeting) (id : jsval) : M unit :=
  match id with
  | JStr k => modify (on_meetings (alter f k))
  | _ => ret ()
  end.

(** Lines 159-260: [call.session_started].  [Some r] is [return r]; [None]
    reaches the acknowledgment of line 432. *)
Definition session_started (event : jsval) : M (option response) :=
  let* meetingId := lift (custom_meetingId event) in
  if negb (JS.truthy meetingId) then ret (Some (respond_error "Missing meetingId" 400))
  else
    db_statement StartedSelectMeeting ;;;
    let* ms := gets meetings in
    match find (filter (λ kv, startable kv.2 = true) ms) meetingId with
    | None => ret (Some (respond_error "Meeting not found" 404))
    | Some (id, existingMeeting) =>
        db_statement StartedUpdateStatus ;;;
        update_meeting activate (JStr id) ;;;
        db_statement StartedSelectAgent ;;;
        let* ags := gets agents in
        match ags !! agentId existingMeeting with
        | None => ret (Some (respond_error "Agent not found" 404))
        | Some existingAgent =>
            try_catch
              (try_catch (upsert UpsertFirst) (fun _ => upsert UpsertRetry) ;;;
               (if OPENAI_API_KEY ext then
                  try_catch
                    (if connectOpenAi ext then ret ()
                     else throw (Error "OpenAI join failed"))
                    (fun _ => ret ())
                else ret ()) ;;;
               modify (on_voice (startSession id (agentId existingMeeting)
                                   (agent_instructions existingAgent))))
              (fun _ => ret ()) ;;;
            ret None
        end
    end.

(** Lines 261-273: [call.session_participant_left]. *)
Definition session_participant_left (event : jsval) : M (option response) :=
  let* cid := lift (JS.get event "call_cid") in
  let* meetingId := lift (split_1 cid) in
  if negb (JS.truthy meetingId) then ret (Some (respond_error "Missing meetingId" 400))
  else ret None.

(** [geminiVoiceService.endSession(meetingId)]: the keys of the session
    map are strings, so any other value deletes nothing. *)
Definition await_endSession (meetingId : jsval) : M unit :=
  match meetingId with
  | JStr k => modify (on_voice (endSession k))
  | _ => ret ()
  end.

(** Lines 274-291: [call.session_ended]. *)
Definition session_ended (event : jsval) : M (option response) :=
  let* meetingId := lift (custom_meetingId event) in
  if negb (JS.truthy meetingId) then ret (Some (respond_error "Missing meetingId" 400))
  else
    await_endSession meetingId ;;;
    db_statement EndedUpdateStatus ;;;
    update_meeting finish meetingId ;;;
    ret None.

(** Lines 326-343, one line of the transcript.  [slice] exists on strings
    and on arrays, so a text of either kind is forwarded; an array reaches
    the prompt of the model as the text the engine renders it with, and
    the log at the end of the turn, which calls [substring] on it, fails
    inside the [try] block of the turn after everything is recorded. *)
Definition forward_line (meetingId : string) (line : string) : M unit :=
  try_catch
    (match JSON_parse ext line with
     | None => throw (Error "Unexpected token in JSON")
     | Some item =>
         let* t := lift (JS.get item "text") in
         if negb (JS.truthy t) then ret () else
         let* sp := lift (JS.get item "speaker_id") in
         if negb (JS.truthy sp) then ret () else
         match t with
         | JStr transcriptionText =>
             await_processTranscription meetingId transcriptionText sp
         | JArr _ => await_processTranscription meetingId (ToString ext t) sp
         | _ => throw (TypeError "slice is not a function")
         end
     end)
    (fun _ => ret ()).

Fixpoint for_each {A} (f : A → M unit) (xs : list A) : M unit :=
  match xs with
  | [] => ret ()
  | x :: rest => f x ;;; for_each f rest
  end.

(** [db.update(table).set({ column: v })]: the query builder leaves out
    a value that is [undefined] and refuses, when the call is made and
    before anything is sent, a set that is left without values. *)
Definition set_value (v : jsval) : M unit :=
  match v with
  | JUndefined => throw (Error "No values to set")
  | _ => ret ()
  end.

(** Lines 292-355: [call.transcription_ready]. *)
Definition transcription_ready (event : jsval) : M (option response) :=
  let* cid := lift (JS.get event "call_cid") in
  let* meetingId := lift (split_1 cid) in
  let* tr := lift (JS.get event "call_transcription") in
  let* url := lift (JS.get tr "url") in
  set_value url ;;;
  db_statement TranscriptUpdate ;;;
  update_meeting (set_transcriptUrl url) meetingId ;;;
  let* ms := gets meetings in
  match find ms meetingId with
  | None => ret (Some (respond_error "Meeting not found" 404))
  | Some (id, updatedMeeting) =>
      let* has := gets (fun w => hasSession id (voice w)) in
      (if has then
         try_catch
           (let* transcriptData := lift (fetch_text ext url) in
            let transcriptLines :=
              filter (λ l, l ≠ EmptyString)
                     (JS.split (ascii_of_nat 10) transcriptData) in
            for_each (forward_line id) transcriptLines)
           (fun _ => ret ())
       else ret ()) ;;;
      (if inngest_send ext then ret () else throw (Error "inngest.send failed")) ;;;
      ret None
  end.

(** Lines 356-365: [call.recording_ready]. *)
Definition recording_ready (event : jsval) : M (option response) :=
  let* cid := lift (JS.get event "call_cid") in
  let* meetingId := lift (split_1 cid) in
  let* rec := lift (JS.get event "call_recording") in
  let* url := lift (JS.get rec "url") in
  set_value url ;;;
  db_statement RecordingUpdate ;;;
  update_meeting (set_recordingUrl url) meetingId ;;;
  ret None.

(** Lines 366-408: [call.closed_caption]. *)
Definition closed_caption (anyPayload : jsval) : M (option response) :=
  try_catch
    (let* meetingId := lift (caption_meetingId anyPayload) in
     if negb (JS.truthy meetingId) then ret (Some (respond_status "ignored")) else
     match meetingId with
     | JStr id =>
         let* ready := ensureGeminiSessionForMeeting id in
         if negb ready then ret (Some (respond_status "ignored")) else
         let text := extractCaptionText (call_stack ext) anyPayload in
         let* speakerId := lift (caption_speakerId anyPayload) in
         match text with
         | None => ret (Some (respond_status "ignored"))
         | Some text =>
             if negb (JS.truthy (JStr text)) || (String.length (JS.trim text) =? 0)%nat
             then ret (Some (respond_status "ignored"))
             else await_processTranscription id text speakerId ;;; ret None
         end
     | _ => ret None (* not reached: the id comes out of [split] *)
     end)
    (fun _ => ret None).

(** Lines 409-430: [call.closed_captions_started] and
    [call.transcription_started]. *)
Definition captions_started (anyPayload : jsval) : M (option response) :=
  try_catch
    (let* meetingId := lift (caption_meetingId anyPayload) in
     if negb (JS.truthy meetingId) then ret (Some (respond_status "ignored")) else
     match meetingId with
     | JStr id => ensureGeminiSessionForMeeting id ;;; ret None
     | _ => ret None (* not reached: the id comes out of [split] *)
     end)
    (fun _ => ret None).

(** [!header]: absent or empty. *)
Definition missing (h : option string) : bool :=
  match h with
  | None => true
  | Some v => String.eqb v ""
  end.

(** Lines 156-430: the branch of the event type. *)
Definition dispatch (payload : jsval) : M (option response) :=
  let* eventType := lift (opt_get payload "type") in
  let event_is := JS.strict_eq_str eventType in
  if event_is "call.session_started" then session_started payload
  else if event_is "call.session_participant_left" then session_participant_left payload
  else if event_is "call.session_ended" then session_ended payload
  else if event_is "call.transcription_ready" then transcription_ready payload
  else if event_is "call.recording_ready" then recording_ready payload
  else if event_is "call.closed_caption" then closed_caption payload
  else if event_is "call.closed_captions_started" || event_is "call.transcription_started"
  then captions_started payload
  else ret None.

(** Lines 132-433. *)
Definition POST (req : request) : M response :=
  if missing (x_signature req) || missing (x_api_key req) then
    ret (respond_error "Missing signature or API key" 400)
  else if negb (verifyWebhook ext (body req) (default "" (x_signature req))) then
    ret (respond_error "Invalid signature" 401)
  else
    match JSON_parse ext (body req) with
    | None => ret (respond_error "Invalid JSON" 400)
    | Some payload =>
        let* returned := dispatch payload in
        match returned with
        | Some r => ret r
        | None => ret (respond_status "ok")
        end
    end.
End Router.

(** *** Overlapping requests

    A handler runs without interruption up to each [await] and is
    suspended there; other requests are handled meanwhile.  The handler of
    the start of a call reads the row of the meeting with one statement
    (lines 167-178) and writes it with another (lines 184-190).
    [started_lookup] is that handler up to the answer of the first
    statement and [started_resume] is the handler from there on, with the
    row the first statement found. *)
Definition started_lookup (ext : external) (event : jsval)
  : M (option response + string * meeting) :=
  bind (lift (custom_meetingId event)) (fun meetingId =>
  if negb (JS.truthy meetingId)
  then ret (inl (Some (respond_error "Missing meetingId" 400)))
  else
    bind (db_statement ext StartedSelectMeeting) (fun _ =>
    bind (gets meetings) (fun ms =>
    match find (filter (λ kv, startable kv.2 = true) ms) meetingId with
    | None => ret (inl (Some (respond_error "Meeting not found" 404)))
    | Some row => ret (inr row)
    end))).

Definition started_resume (ext : external) (row : string * meeting)
  : M (option response) :=
  let '(id, existingMeeting) := row in
  bind (db_statement ext StartedUpdateStatus) (fun _ =>
  bind (update_meeting (activate ext) (JStr id)) (fun _ =>
  bind (db_statement ext StartedSelectAgent) (fun _ =>
  bind (gets agents) (fun ags =>
  match ags !! agentId existingMeeting with
  | None => ret (Some (respond_error "Agent not found" 404))
  | Some existingAgent =>
      bind
        (try_catch
           (bind (try_catch (upsert ext UpsertFirst) (fun _ => upsert ext UpsertRetry))
              (fun _ =>
            bind (if OPENAI_API_KEY ext then
                    try_catch
                      (if connectOpenAi ext then ret ()
                       else throw (Error "OpenAI join failed"))
                      (fun _ => ret ())
                  else ret ()) (fun _ =>
            modify (on_voice (startSession id (agentId existingMeeting)
                                (agent_instructions existingAgent))))))
           (fun _ => ret ()))
        (fun _ => ret None)
  end)))).

(** The requests in progress: the state, and the start events whose
    lookup has been answered and whose handlers have not gone on yet,
    each with the row it found. *)
Definition requests : Type := world * list (string * meeting).

(** One step of the endpoint under requests that overlap: a request is
    handled from beginning to end; or the lookup of a start event is
    answered and its handler is suspended; or a suspended handler goes on
    to its end. *)
Inductive overlap (ext : external) : requests → requests → Prop :=
| overlap_whole req w pending :
    overlap ext (w, pending) ((POST ext req w).2, pending)
| overlap_lookup req payload w pending row w' :
    missing (x_signature req) || missing (x_api_key req) = false →
    verifyWebhook ext (body req) (default "" (x_signature req)) = true →
    JSON_parse ext (body req) = Some payload →
    opt_get payload "type" = Normal (JStr "call.session_started") →
    started_lookup ext payload w = (Normal (inr row), w') →
    overlap ext (w, pending) (w', row :: pending)
| overlap_resume w pending1 row pending2 :
    overlap ext (w, pending1 ++ row :: pending2)
      ((started_resume ext row w).2, pending1 ++ pending2).

(** ** Vocabulary of the specification *)


(** The field [k] of a structure; absent on anything but an object. *)
Definition field (v : jsval) (k : string) : jsval :=
  match v with
  | JObj props => JS.assoc k props
  | _ => JUndefined
  end.

(** The first alternative that is set. *)
Definition first_set (alternatives : list jsval) : jsval :=
  default JUndefined (List.find JS.truthy alternatives).













(** Induction over nested payloads. *)
Section jsval_induction.
Variable P : jsval → Prop.
Hypothesis Hundef : P JUndefined.
Hypothesis Hnull : P JNull.
Hypothesis Hbool : ∀ b, P (JBool b).
Hypothesis Hnum : ∀ n, P (JNum n).
Hypothesis Hstr : ∀ s, P (JStr s).
Hypothesis Harr : ∀ xs, (∀ v, In v xs → P v) → P (JArr xs).
Hypothesis Hobj : ∀ props, (∀ k v, In (k, v) props → P v) → P (JObj props).

Fixpoint jsval_nested_ind (v : jsval) : P v :=
  match v with
  | JUndefined => Hundef
  | JNull => Hnull
  | JBool b => Hbool b
  | JNum n => Hnum n
  | JStr s => Hstr s
  | JArr xs =>
      Harr xs
        ((fix all (l : list jsval) : ∀ v, In v l → P v :=
            match l with
            | [] => fun v H => match H with end
            | x :: l' => fun v H =>
                match H with
                | or_introl e => eq_ind x P (jsval_nested_ind x) v e
                | or_intror H' => all l' v H'
                end
            end) xs)
  | JObj props =>
      Hobj props
        ((fix all (l : list (string * jsval)) : ∀ k v, In (k, v) l → P v :=
            match l with
            | [] => fun k v H => match H with end
            | (k', x) :: l' => fun k v H =>
                match H with
                | or_introl e =>
                    eq_ind x P (jsval_nested_ind x) v (f_equal snd e)
                | or_intror H' => all l' k v H'
                end
            end) props)
  end.
End jsval_induction.

Definition user_message (transcriptionText : string) : message :=
  {| role := "user"; content := transcriptionText |}.

Definition audio_entry (svc : services) (reply url : string) : audio_response :=
  {| text := reply; audioUrl := url; timestamp := now svc |}.

(** C4 as the specification words it: whenever a turn passes the guard and
    the model replies, [audioResponses] grows by one entry for the reply,
    with the published URL when synthesis and publication succeed and with
    an empty URL in every other case. *)
Definition appends_audio_entry_always : Prop :=
  ∀ svc callId transcriptionText speakerId sv l s reply,
    get_session callId sv = Some (l, s) →
    isProcessing s = false →
    JS.strict_eq_str speakerId (agentUserId s) = false →
    generateGeminiResponse svc (instructions s)
      (conversationHistory s ++ [user_message transcriptionText]) = Normal reply →
    ∃ url,
      getAudioResponses callId
        (processTranscription svc callId transcriptionText speakerId sv).1
      = audioResponses s ++ [audio_entry svc reply url] ∧
      (∀ audioBuffer published,
         textToSpeech svc reply = Normal (Some audioBuffer) →
         uploadToCloudinary svc audioBuffer callId = Normal published →
         url = published) ∧
      ((textToSpeech svc reply = Normal None ∨
        (∃ e, textToSpeech svc reply = Throw e) ∨
        (∃ audioBuffer e, textToSpeech svc reply = Normal (Some audioBuffer) ∧
                          uploadToCloudinary svc audioBuffer callId = Throw e)) →
       url = "").

(** A service whose model replies and whose synthesis works, but whose
    asset store rejects the upload. *)
Definition upload_fails : services :=
  {| GEMINI_API_KEY := true;
     generateContent := λ _, Normal "Hello there";
     ttsClient := true;
     synthesizeSpeech := λ _, Normal (Some [Byte.x00]);
     upload_stream := λ _ _ _, UploadError (Error "upload failed");
     now := 0 |}.

Definition one_session : GeminiVoiceService :=
  startSession "m1" "agent-1" "Be brief." {| sessions := ∅; heap := [] |}.

(** The flag of a session object is set exactly while one invocation that
    entered on it is suspended, and no two are. *)
Definition single_flight (sy : system) : Prop :=
  NoDup (turn_loc <$> sy.2) ∧
  (∀ t, t ∈ sy.2 → turn_loc t < length (heap sy.1))%nat ∧
  (∀ l s, heap sy.1 !! l = Some s →
          (isProcessing s = true ↔ l ∈ turn_loc <$> sy.2)).

(** The request carries both headers, its signature verifies and its body
    parses to [payload]. *)
Definition delivers (ext : external) (req : request) (payload : jsval) : Prop :=
  missing (x_signature req) = false ∧
  missing (x_api_key req) = false ∧
  verifyWebhook ext (body req) (default "" (x_signature req)) = true ∧
  JSON_parse ext (body req) = Some payload.

(** The payload is an event of the given type. *)
Definition event_type (payload : jsval) (ty : string) : Prop :=
  field payload "type" = JStr ty.

(** Line 432 after a handler: what it returned, or the acknowledgment. *)
Definition acknowledge (r : completion (option response) * world)
  : completion response * world :=
  (match r.1 with
   | Normal (Some resp) => Normal resp
   | Normal None => Normal (respond_status "ok")
   | Throw e => Throw e
   end, r.2).

(** The states from which a start event does not activate a meeting. *)
Definition not_startable : list meeting_status := [active; completed; cancelled; processing].

(** *** A small program logic for handlers

    [hoare R Q m]: running [m] relates the state before to the state after
    by [R], whether it returns or throws, and what it returns satisfies
    [Q]. *)
Record hoare {A} (R : relation world) (Q : A → Prop) (m : M A) : Prop := {
  hoare_frame : ∀ w, R w (m w).2;
  hoare_post : ∀ w a, (m w).1 = Normal a → Q a;
}.

(** Every session stored before is stored after, as the same object, with
    a history that has only grown. *)
Definition keeps_sessions (sv sv' : GeminiVoiceService) : Prop :=
  ∀ k l s, get_session k sv = Some (l, s) →
    ∃ s', get_session k sv' = Some (l, s') ∧
          conversationHistory s `prefix_of` conversationHistory s'.

Definition keeps (w w' : world) : Prop := keeps_sessions (voice w) (voice w').

(** What the caption handlers return. *)
Definition ignored_or_through (r : option response) : Prop :=
  r = None ∨ r = Some (respond_status "ignored").

Definition missing_id : response := respond_error "Missing meetingId" 400.
Definition meeting_not_found : response := respond_error "Meeting not found" 404.
Definition agent_not_found : response := respond_error "Agent not found" 404.

Definition returns_among (allowed : list response) (r : option response) : Prop :=
  match r with
  | None => True
  | Some resp => resp ∈ allowed
  end.

Definition client_error (resp : response) : Prop :=
  400 ≤ status_code resp < 500.

(** The event types whose handlers can reject or fail. *)
Definition fallible_events : list string :=
  ["call.session_started"; "call.session_participant_left"; "call.session_ended";
   "call.transcription_ready"; "call.recording_ready"].

(** The meeting id an event of the start or the end of a call carries is
    a string, when it carries one: the type the SDK declares for it. *)
Definition string_meetingId (payload : jsval) : Prop :=
  ∀ v, custom_meetingId payload = Normal v → JS.truthy v = true → ∃ id, v = JStr id.

(** The event carries its meeting id and the URL of its transcript or
    recording as strings, when it carries them. *)
Definition well_typed (payload : jsval) : Prop :=
  string_meetingId payload ∧
  ∀ k v, k ∈ ["call_transcription"; "call_recording"] →
         JS.get (field payload k) "url" = Normal v →
         v = JUndefined ∨ ∃ url, v = JStr url.

(** Why the endpoint answers with a client error, in the state [w] the
    request finds. *)
Inductive client_error_cause (ext : external) (req : request) (w : world)
  : response → Prop :=
| cause_missing_header :
    missing (x_signature req) || missing (x_api_key req) = true →
    client_error_cause ext req w (respond_error "Missing signature or API key" 400)
| cause_invalid_signature :
    missing (x_signature req) || missing (x_api_key req) = false →
    verifyWebhook ext (body req) (default "" (x_signature req)) = false →
    client_error_cause ext req w (respond_error "Invalid signature" 401)
| cause_invalid_json :
    missing (x_signature req) || missing (x_api_key req) = false →
    verifyWebhook ext (body req) (default "" (x_signature req)) = true →
    JSON_parse ext (body req) = None →
    client_error_cause ext req w (respond_error "Invalid JSON" 400)
| cause_missing_meetingId payload ty v :
    delivers ext req payload → event_type payload ty →
    ty ∈ ["call.session_started"; "call.session_ended"] →
    custom_meetingId payload = Normal v → JS.truthy v = false →
    client_error_cause ext req w missing_id
| cause_missing_call_id payload cid :
    delivers ext req payload →
    event_type payload "call.session_participant_left" →
    field payload "call_cid" = JStr cid →
    (∀ c rest, JS.split ":" cid !! 1%nat ≠ Some (String c rest)) →
    client_error_cause ext req w missing_id
| cause_meeting_not_startable payload id :
    delivers ext req payload → event_type payload "call.session_started" →
    custom_meetingId payload = Normal (JStr id) → id ≠ "" →
    db_fault ext StartedSelectMeeting = false →
    (meetings w !! id = None ∨
     ∃ m, meetings w !! id = Some m ∧ status m ∈ not_startable) →
    client_error_cause ext req w meeting_not_found
| cause_meeting_unknown payload cid url :
    delivers ext req payload → event_type payload "call.transcription_ready" →
    field payload "call_cid" = JStr cid →
    JS.get (field payload "call_transcription") "url" = Normal (JStr url) →
    db_fault ext TranscriptUpdate = false →
    (∀ id, JS.split ":" cid !! 1%nat = Some id → meetings w !! id = None) →
    client_error_cause ext req w meeting_not_found
| cause_agent_unknown payload id m :
    delivers ext req payload → event_type payload "call.session_started" →
    custom_meetingId payload = Normal (JStr id) → id ≠ "" →
    meetings w !! id = Some m → status m ∉ not_startable →
    db_fault ext StartedSelectMeeting = false →
    db_fault ext StartedUpdateStatus = false →
    db_fault ext StartedSelectAgent = false →
    agents w !! agentId m = None →
    client_error_cause ext req w agent_not_found.

(** C7 as the specification words it: a client error only on
    authentication or parsing failures and on the [session_started] and
    [transcription_ready] paths. *)
Definition client_errors_only_on_start_and_transcript : Prop :=
  ∀ ext req w resp,
    (POST ext req w).1 = Normal resp → client_error resp →
    missing (x_signature req) || missing (x_api_key req) = true ∨
    verifyWebhook ext (body req) (default "" (x_signature req)) = false ∨
    JSON_parse ext (body req) = None ∨
    ∃ payload, JSON_parse ext (body req) = Some payload ∧
               (event_type payload "call.session_started" ∨
                event_type payload "call.transcription_ready").

(** C5 as the specification words it, for requests that may overlap: a
    step of the endpoint makes a meeting active only from a status outside
    active, completed, cancelled, processing. *)
Definition activates_only_startable (ext : external) (w0 : world) : Prop :=
  ∀ sy sy', rtc (overlap ext) (w0, []) sy → overlap ext sy sy' →
    ∀ k m m', meetings sy.1 !! k = Some m → meetings sy'.1 !! k = Some m' →
      status m' = active → status m ≠ active → status m ∉ not_startable.

Definition quiet_services : services :=
  {| GEMINI_API_KEY := true;
     generateContent := λ _, Normal "Hello there";
     ttsClient := false;
     synthesizeSpeech := λ _, Normal None;
     upload_stream := λ _ _ _, UploadResult None;
     now := 0 |}.

(** An environment without failures in which every body parses to
    [payload]. *)
Definition delivering (payload : jsval) : external :=
  {| svc := quiet_services;
     verifyWebhook := λ _ _, true;
     JSON_parse := λ _, Some payload;
     db_fault := λ _, false;
     upsertUsers := λ _, true;
     OPENAI_API_KEY := false;
     connectOpenAi := true;
     fetch_text := λ _, Normal "";
     inngest_send := true;
     call_stack := 1000;
     ToString := λ _, "" |}.

Definition signed_request : request :=
  {| x_signature := Some "signature"; x_api_key := Some "key"; body := "event" |}.

(** [{ type: 'call.session_ended', call: {} }]. *)
Definition session_ended_without_id : jsval :=
  JObj [("type", JStr "call.session_ended"); ("call", JObj [])].

Definition empty_world : world :=
  {| voice := {| sessions := ∅; heap := [] |}; meetings := ∅; agents := ∅ |}.

(** C6 as the specification words it: no creation path replaces a session
    that exists or resets its history. *)
Definition creation_never_replaces : Prop :=
  ∀ ext req payload w,
    delivers ext req payload →
    (event_type payload "call.session_started" ∨
     event_type payload "call.closed_caption" ∨
     event_type payload "call.closed_captions_started" ∨
     event_type payload "call.transcription_started") →
    keeps_sessions (voice w) (voice (POST ext req w).2).

(** [{ type: 'call.session_started', call: { custom: { meetingId: 'm1' } } }]. *)
Definition session_started_m1 : jsval :=
  JObj [("type", JStr "call.session_started");
        ("call", JObj [("custom", JObj [("meetingId", JStr "m1")])])].

(** Meeting [m1] is still upcoming, and a caption that arrived before the
    start event has already created its session and recorded one turn. *)
Definition caption_came_first : world :=
  {| voice :=
       {| sessions := {["m1" := 0%nat]};
          heap := [ {| call := "m1"; agentUserId := "agent-1";
                       instructions := "Be brief.";
                       conversationHistory :=
                         [ {| role := "user"; content := "hello" |};
                           {| role := "assistant"; content := "Hello there" |} ];
                       isProcessing := false;
                       audioResponses := [] |} ] |};
     meetings := {["m1" := {| agentId := "agent-1"; status := upcoming;
                              startedAt := None; endedAt := None;
                              transcriptUrl := JNull; recordingUrl := JNull |}]};
     agents := {["agent-1" := {| name := "Agent"; agent_instructions := "Be brief." |}]} |}.

Definition fresh_session (id agentId instr : string) : GeminiVoiceSession :=
  {| call := id; agentUserId := agentId; instructions := instr;
     conversationHistory := []; isProcessing := false; audioResponses := [] |}.

(** A service without an API key for the language model. *)
Definition no_api_key : services :=
  {| GEMINI_API_KEY := false;
     generateContent := λ _, Normal "Hello there";
     ttsClient := false;
     synthesizeSpeech := λ _, Normal None;
     upload_stream := λ _ _ _, UploadResult None;
     now := 0 |}.

(** [{ type: 'call.session_ended', call: { custom: { meetingId: 'm1' } } }]. *)
Definition session_ended_m1 : jsval :=
  JObj [("type", JStr "call.session_ended");
        ("call", JObj [("custom", JObj [("meetingId", JStr "m1")])])].

(** [{ type: 'call.unheard_of' }]. *)
Definition unknown_event : jsval := JObj [("type", JStr "call.unheard_of")].

(** A payload with text in a known location and elsewhere. *)
Definition nested_caption : jsval :=
  JObj [("type", JStr "call.closed_caption");
        ("closed_caption",
         JObj [("text", JNum 5); ("caption", JStr "hi");
               ("payload", JObj [("text", JStr "deep")])])].

(** ** Further parts of the sources *)

(** Lines 290-297. *)
Definition getLatestAudioResponse (callId : string) (sv : GeminiVoiceService)
  : option string :=
  match get_session callId sv with
  | None => None
  | Some (_, session) =>
      if (length (audioResponses session) =? 0)%nat then None
      else audioUrl <$>
             audioResponses session !! (length (audioResponses session) - 1)%nat
  end.

(** Every reference held by the session map points at a session object. *)
Definition well_formed (sv : GeminiVoiceService) : Prop :=
  ∀ k l, sessions sv !! k = Some l → (l < length (heap sv))%nat.

(** The message a turn appends for the reply of the model. *)
Definition assistant_message (geminiResponse : string) : message :=
  {| role := "assistant"; content := geminiResponse |}.

(** *** Clients and credentials (voice service, lines 21-87) *)

Module Env.

(** The variables of [process.env] the service reads; a variable counts as
    set when it is present and not empty. *)
Record process_env := {
  GOOGLE_CLIENT_EMAIL : option string;
  GOOGLE_PRIVATE_KEY : option string;
  GOOGLE_PROJECT_ID : option string;
  GOOGLE_CLOUD_CREDENTIALS_BASE64 : option string;
  GOOGLE_CLOUD_KEYFILE : option string;
  GEMINI_API_KEY : option string;
  GOOGLE_GENAI_API_KEY : option string;
}.

(** The value of a variable as JavaScript sees it. *)
Definition value (v : option string) : jsval :=
  match v with
  | Some s => JStr s
  | None => JUndefined
  end.

End Env.

(** Line 31: [key.replace(/\\n/g, '\n')], every backslash followed by [n]
    becomes a line feed, scanning from the left. *)
Fixpoint unescape_newlines (s : string) : string :=
  match s with
  | EmptyString => EmptyString
  | String c rest =>
      match rest with
      | String c' rest' =>
          if Ascii.eqb c "\" && Ascii.eqb c' "n"
          then String (ascii_of_nat 10) (unescape_newlines rest')
          else String c (unescape_newlines rest)
      | EmptyString => String c EmptyString
      end
  end.

(** The text holds a backslash directly followed by [n]. *)
Fixpoint has_escaped_newline (s : string) : bool :=
  match s with
  | EmptyString => false
  | String c rest =>
      match rest with
      | String c' _ =>
          (Ascii.eqb c "\" && Ascii.eqb c' "n") || has_escaped_newline rest
      | EmptyString => false
      end
  end.

(** Lines 25-50.  [decode] stands for
    [JSON.parse(Buffer.from(text, 'base64').toString('utf-8'))]. *)
Definition getGoogleCredentials (decode : string → completion jsval)
    (env : Env.process_env) : jsval :=
  if JS.truthy (Env.value (Env.GOOGLE_CLIENT_EMAIL env))
     && JS.truthy (Env.value (Env.GOOGLE_PRIVATE_KEY env))
  then
    JObj [("client_email", Env.value (Env.GOOGLE_CLIENT_EMAIL env));
          ("private_key",
           JStr (unescape_newlines (default "" (Env.GOOGLE_PRIVATE_KEY env))));
          ("project_id", Env.value (Env.GOOGLE_PROJECT_ID env))]
  else
    match Env.GOOGLE_CLOUD_CREDENTIALS_BASE64 env with
    | Some text =>
        if JS.truthy (JStr text) then
          match decode text with
          | Normal credentials => credentials
          | Throw _ => JNull
          end
        else JNull
    | None => JNull
    end.

(** The options a speech client is constructed with. *)
Inductive tts_client :=
| WithCredentials (client_email private_key projectId : jsval)
| WithKeyFilename (keyFilename : string).

(** Lines 53-76, with the module variable [ttsClient] passed in; what is
    returned is also the new value of that variable. *)
Definition getTTSClient (decode : string → completion jsval)
    (env : Env.process_env) (ttsClient : option tts_client)
  : completion (option tts_client) :=
  match ttsClient with
  | Some client => Normal (Some client)
  | None =>
      let credentials := getGoogleCredentials decode env in
      if JS.truthy credentials then
        client_email ← JS.get credentials "client_email";
        private_key ← JS.get credentials "private_key";
        project_id ← JS.get credentials "project_id";
        Normal (Some (WithCredentials client_email private_key project_id))
      else
        match Env.GOOGLE_CLOUD_KEYFILE env with
        | Some path =>
            if JS.truthy (JStr path) then Normal (Some (WithKeyFilename path))
            else Normal None
        | None => Normal None
        end
  end.

(** Lines 78-87, with the module variable [geminiClient] passed in as the
    key the cached client was constructed with; the result is the client
    returned, which is also the new value of the variable. *)
Definition getGeminiClient (env : Env.process_env) (geminiClient : option string)
  : completion string :=
  let apiKey :=
    if JS.truthy (Env.value (Env.GEMINI_API_KEY env))
    then Env.value (Env.GEMINI_API_KEY env)
    else Env.value (Env.GOOGLE_GENAI_API_KEY env) in
  match apiKey with
  | JStr key =>
      if negb (JS.truthy apiKey)
      then Throw (Error "GEMINI_API_KEY or GOOGLE_GENAI_API_KEY is required")
      else match geminiClient with
           | Some client => Normal client
           | None => Normal key
           end
  | _ => Throw (Error "GEMINI_API_KEY or GOOGLE_GENAI_API_KEY is required")
  end.

(** ** What a turn and an event may change *)

(** The fields of a session that no turn writes. *)
Definition same_identity (s s' : GeminiVoiceSession) : Prop :=
  call s' = call s ∧ agentUserId s' = agentUserId s ∧ instructions s' = instructions s.

(** What a step of a turn may do to the service: the map of sessions and
    the number of session objects stay, every object keeps its identity,
    and only the object at [l] may change. *)
Definition writes_only (l : loc) (sv sv' : GeminiVoiceService) : Prop :=
  sessions sv' = sessions sv ∧
  length (heap sv') = length (heap sv) ∧
  ∀ l' s, heap sv !! l' = Some s →
    ∃ s', heap sv' !! l' = Some s' ∧ same_identity s s' ∧ (l' ≠ l → s' = s).

Definition at_loc (l : loc) (st : turn_state) : Prop :=
  match st with
  | Suspended t => turn_loc t = l
  | Returned _ => True
  end.

(** Two versions of a meeting row that differ at most in the URLs of the
    transcript and of the recording. *)
Definition same_but_urls (m m' : meeting) : Prop :=
  agentId m' = agentId m ∧ status m' = status m ∧
  startedAt m' = startedAt m ∧ endedAt m' = endedAt m.

(** What an event other than the start and the end of a call may change:
    sessions are kept, as the same objects with a history that only grows;
    the agents are left alone; a meeting row changes at most its URLs, and
    no row appears or disappears. *)
Definition passive_change (w w' : world) : Prop :=
  keeps w w' ∧ agents w' = agents w ∧
  ∀ k, option_Forall2 same_but_urls (meetings w !! k) (meetings w' !! k).

(** The tables keep their rows, and every meeting its agent. *)
Definition same_catalogue (w w' : world) : Prop :=
  agents w' = agents w ∧
  ∀ k, agentId <$> meetings w' !! k = agentId <$> meetings w !! k.

(** Every id that has a session still has one. *)
Definition keeps_open (w w' : world) : Prop :=
  ∀ k, hasSession k (voice w) = true → hasSession k (voice w') = true.

(** ** Further situations *)

(** Credentials given in separate variables, the key with escaped line
    feeds, next to a base64 variable that does not decode. *)
Definition separate_variables : Env.process_env :=
  {| Env.GOOGLE_CLIENT_EMAIL := Some "tts@project.iam.gserviceaccount.com";
     Env.GOOGLE_PRIVATE_KEY := Some "-----BEGIN-----\nMIIE\n-----END-----";
     Env.GOOGLE_PROJECT_ID := Some "project";
     Env.GOOGLE_CLOUD_CREDENTIALS_BASE64 := Some "not base64";
     Env.GOOGLE_CLOUD_KEYFILE := None;
     Env.GEMINI_API_KEY := None;
     Env.GOOGLE_GENAI_API_KEY := None |}.

(** The row of meeting [m1] while it is upcoming. *)
Definition upcoming_m1 : meeting :=
  {| agentId := "agent-1"; status := upcoming; startedAt := None; endedAt := None;
     transcriptUrl := JNull; recordingUrl := JNull |}.

(** Collaborators without failures to whom the body [end] is the end of
    the call of meeting [m1] and every other body is its start. *)
Definition duplicate_deliveries : external :=
  {| svc := quiet_services;
     verifyWebhook := λ _ _, true;
     JSON_parse := λ body, if String.eqb body "end" then Some session_ended_m1
                           else Some session_started_m1;
     db_fault := λ _, false;
     upsertUsers := λ _, true;
     OPENAI_API_KEY := false;
     connectOpenAi := true;
     fetch_text := λ _, Normal "";
     inngest_send := true;
     call_stack := 1000;
     ToString := λ _, "" |}.

Definition end_request : request :=
  {| x_signature := Some "signature"; x_api_key := Some "key"; body := "end" |}.

(** Collaborators as in [delivering], with a database that refuses the
    status update of the end of a call. *)
Definition database_down (payload : jsval) : external :=
  {| svc := quiet_services;
     verifyWebhook := λ _ _, true;
     JSON_parse := λ _, Some payload;
     db_fault := λ site, match site with EndedUpdateStatus => true | _ => false end;
     upsertUsers := λ _, true;
     OPENAI_API_KEY := false;
     connectOpenAi := true;
     fetch_text := λ _, Normal "";
     inngest_send := true;
     call_stack := 1000;
     ToString := λ _, "" |}.

(** Meeting [m1] is active and has a session. *)
Definition call_in_progress : world :=
  (POST (delivering session_started_m1) signed_request caption_came_first).2.

(** A recording of meeting [m1] is announced without its URL. *)
Definition recording_without_url : jsval :=
  JObj [("type", JStr "call.recording_ready");
        ("call_cid", JStr "default:m1");
        ("call_recording", JObj [])].

(** A participant of meeting [m1] leaves. *)
Definition participant_left_event : jsval :=
  JObj [("type", JStr "call.session_participant_left");
        ("call_cid", JStr "default:m1")].

(** A recording of meeting [m1] is ready. *)
Definition recording_ready_m1 : jsval :=
  JObj [("type", JStr "call.recording_ready");
        ("call_cid", JStr "default:m1");
        ("call_recording", JObj [("url", JStr "https://cdn/recording.mp4")])].

(** Captions have started, on no call in particular. *)
Definition captions_started_nowhere : jsval :=
  JObj [("type", JStr "call.closed_captions_started")].



(** The agent's own words come back as a caption of meeting [m1]. *)
Definition caption_of_the_agent : jsval :=
  JObj [("type", JStr "call.closed_caption");
        ("call_cid", JStr "default:m1");
        ("closed_caption", JObj [("text", JStr "Hello there")]);
        ("user", JObj [("id", JStr "agent-1")])].



(** * Properties *)

(** ** Caption normaliser *)



Lemma get_truthy v k : JS.truthy v = true → JS.get v k = Normal (field v k).
Proof. by destruct v. Qed.












































(** ** Voice service *)

Lemma update_length l f sv : length (heap (update l f sv)) = length (heap sv).
Proof.
  unfold update. simpl. destruct (heap sv !! l); [|done]. by rewrite length_insert.
Qed.

Lemma update_lookup l f sv s :
  heap sv !! l = Some s → heap (update l f sv) !! l = Some (f s).
Proof.
  intros H. unfold update. simpl. rewrite H.
  apply list_lookup_insert_eq. by eapply lookup_lt_Some.
Qed.

Lemma update_lookup_ne l l' f sv :
  l ≠ l' → heap (update l f sv) !! l' = heap sv !! l'.
Proof.
  intros H. unfold update. simpl. destruct (heap sv !! l); [|done].
  by apply list_lookup_insert_ne.
Qed.

Lemma update_update l f g sv :
  update l f (update l g sv) = update l (λ s, f (g s)) sv.
Proof.
  unfold update. simpl. destruct (heap sv !! l) as [s|] eqn:E; simpl.
  - rewrite list_lookup_insert_eq by (by eapply lookup_lt_Some).
    by rewrite list_insert_insert_eq.
  - by rewrite E.
Qed.

Lemma get_session_Some callId sv l s :
  get_session callId sv = Some (l, s) ↔ sessions sv !! callId = Some l ∧ heap sv !! l = Some s.
Proof.
  unfold get_session. split.
  - destruct (sessions sv !! callId) as [l'|]; simpl; [|done].
    destruct (heap sv !! l') as [s'|] eqn:E; simpl; [|done]. by intros [= -> ->].
  - intros [-> H]. simpl. by rewrite H.
Qed.

(** The first segment of an invocation that passes the guard. *)
Lemma pt_enter_passes callId transcriptionText speakerId sv l s :
  get_session callId sv = Some (l, s) →
  isProcessing s = false →
  JS.strict_eq_str speakerId (agentUserId s) = false →
  pt_enter callId transcriptionText speakerId sv =
  (update l (λ s, push_history {| role := "user"; content := transcriptionText |}
                    (set_isProcessing true s)) sv,
   Suspended (AwaitGemini l callId (instructions s)
                (conversationHistory s ++
                   [{| role := "user"; content := transcriptionText |}]))).
Proof.
  intros Hs Hp Ha. unfold pt_enter. rewrite Hs, Hp, Ha. simpl.
  by rewrite update_update.
Qed.

(** The first segment of an invocation that the guard turns away. *)
Lemma pt_enter_blocked callId transcriptionText speakerId sv :
  (get_session callId sv = None ∨
   ∃ l s, get_session callId sv = Some (l, s) ∧
          (isProcessing s = true ∨ JS.strict_eq_str speakerId (agentUserId s) = true)) →
  pt_enter callId transcriptionText speakerId sv = (sv, Returned (Normal ())).
Proof.
  unfold pt_enter. intros [->|(l & s & -> & [->| ->])]; try done.
  by destruct (isProcessing s).
Qed.

Lemma update_id l sv : update l (λ s, s) sv = sv.
Proof.
  destruct sv as [ss h]. unfold update. simpl. f_equal.
  destruct (h !! l) eqn:E; [|done]. by apply list_insert_id.
Qed.

(** A resumption writes to the session object the invocation entered on
    and nowhere else; it keeps the flag while suspended and clears it when
    it returns, which it always does normally. *)
Lemma pt_resume_effect svc t (r : settlement t) sv :
  ∃ f, (pt_resume svc t r sv).1 = update (turn_loc t) f sv ∧
       match (pt_resume svc t r sv).2 with
       | Suspended t' => turn_loc t' = turn_loc t ∧ ∀ s, isProcessing (f s) = isProcessing s
       | Returned c => c = Normal () ∧ ∀ s, isProcessing (f s) = false
       end.
Proof.
  destruct t; simpl in *.
  - destruct r as [reply|e]; simpl; eexists; (split; [reflexivity|]); simpl; done.
  - destruct r as [[audioBuffer|]|e]; simpl.
    + exists (λ s, s). by rewrite update_id.
    + rewrite update_update. eexists; (split; [reflexivity|]); simpl; done.
    + eexists; (split; [reflexivity|]); simpl; done.
  - destruct r as [url|e]; simpl.
    + rewrite update_update. eexists; (split; [reflexivity|]); simpl; done.
    + eexists; (split; [reflexivity|]); simpl; done.
Qed.

(** C1.  Every call of [processTranscription] that passes the entry guards
    (the session exists, is not processing, and the speaker is not the
    agent) returns, and when it has returned the session's [isProcessing]
    flag is false, whatever the language model, the speech synthesis and
    the upload did, errors included. *)
Theorem processTranscription_releases_inFlight
    svc callId transcriptionText speakerId sv l s :
  get_session callId sv = Some (l, s) →
  isProcessing s = false →
  JS.strict_eq_str speakerId (agentUserId s) = false →
  ∃ sv' s',
    processTranscription svc callId transcriptionText speakerId sv
      = (sv', Returned (Normal ())) ∧
    get_session callId sv' = Some (l, s') ∧
    isProcessing s' = false.
Proof.
  intros Hs Hp Ha. apply get_session_Some in Hs as Hs'. destruct Hs' as [Hm Hh].
  unfold processTranscription. rewrite (pt_enter_passes _ _ _ _ _ _ Hs Hp Ha).
  assert (∀ f, get_session callId (update l f sv) = Some (l, f s)) as Hget.
  { intros f. apply get_session_Some. split; [done|]. by apply update_lookup. }
  unfold settle at 3. simpl.
  destruct (generateGeminiResponse _ _ _) as [reply|e]; simpl;
    rewrite !update_update.
  2:{ eexists _, _. split; [done|]. split; [apply Hget|done]. }
  destruct (textToSpeech svc reply) as [[audioBuffer|]|e]; simpl;
    rewrite ?update_update.
  2,3: eexists _, _; (split; [done|]); (split; [apply Hget|done]).
  destruct (uploadToCloudinary svc audioBuffer callId) as [url|e]; simpl;
    rewrite ?update_update;
    eexists _, _; (split; [done|]); (split; [apply Hget|done]).
Qed.

Lemma processTranscription_releases_inFlight_witness :
  get_session "m1" one_session
  = Some (0%nat, fresh_session "m1" "agent-1" "Be brief.") ∧
  ∃ sv' s',
    processTranscription upload_fails "m1" "hi" (JStr "user-1") one_session
      = (sv', Returned (Normal ())) ∧
    get_session "m1" sv' = Some (0%nat, s') ∧
    isProcessing s' = false.
Proof.
  split; [reflexivity|].
  apply (processTranscription_releases_inFlight upload_fails "m1" "hi"
           (JStr "user-1") one_session 0%nat
           (fresh_session "m1" "agent-1" "Be brief.")); reflexivity.
Defined.

Ltac run_turn Hs Hp Ha :=
  unfold processTranscription;
  rewrite (pt_enter_passes _ _ _ _ _ _ Hs Hp Ha);
  unfold settle at 3; simpl.

(** C3.  When the session is absent, or is already processing, or the
    speaker is the session's agent, [processTranscription] returns normally
    and leaves the whole service as it was: no history, no audio response
    and no flag is touched. *)
Theorem processTranscription_guard_is_noop
    svc callId transcriptionText speakerId sv :
  (sessions sv !! callId = None ∨
   ∃ l s, get_session callId sv = Some (l, s) ∧
          (isProcessing s = true ∨ speakerId = JStr (agentUserId s))) →
  processTranscription svc callId transcriptionText speakerId sv
  = (sv, Returned (Normal ())).
Proof.
  intros H. unfold processTranscription. rewrite pt_enter_blocked; [done|].
  destruct H as [H|(l & s & Hs & [Hp| ->])].
  - left. unfold get_session. by rewrite H.
  - right. eauto.
  - right. exists l, s. split; [done|]. right. simpl. apply String.eqb_refl.
Qed.

Lemma processTranscription_guard_is_noop_witness :
  get_session "m1" one_session
  = Some (0%nat, fresh_session "m1" "agent-1" "Be brief.") ∧
  processTranscription upload_fails "m1" "hi" (JStr "agent-1") one_session
  = (one_session, Returned (Normal ())).
Proof.
  split; [reflexivity|].
  apply (processTranscription_guard_is_noop upload_fails "m1" "hi"
           (JStr "agent-1") one_session).
  right. exists 0%nat, (fresh_session "m1" "agent-1" "Be brief.").
  split; [reflexivity|]. right. reflexivity.
Defined.

(** C10.  When the language-model call raises in a turn that passed the
    guards, the call still returns normally: the user message stays in
    [conversationHistory], no assistant message and no audio response is
    added, and the flag is released. *)
Theorem processTranscription_model_error
    svc callId transcriptionText speakerId sv l s e :
  get_session callId sv = Some (l, s) →
  isProcessing s = false →
  JS.strict_eq_str speakerId (agentUserId s) = false →
  generateGeminiResponse svc (instructions s)
    (conversationHistory s ++ [user_message transcriptionText]) = Throw e →
  ∃ sv' s',
    processTranscription svc callId transcriptionText speakerId sv
      = (sv', Returned (Normal ())) ∧
    get_session callId sv' = Some (l, s') ∧
    conversationHistory s' = conversationHistory s ++ [user_message transcriptionText] ∧
    audioResponses s' = audioResponses s ∧
    isProcessing s' = false.
Proof.
  intros Hs Hp Ha He. apply get_session_Some in Hs as Hs'. destruct Hs' as [Hm Hh].
  run_turn Hs Hp Ha. unfold user_message in He. rewrite He. simpl.
  rewrite !update_update. eexists _, _. split; [done|].
  split; [apply get_session_Some; split; [done|]; by apply update_lookup|done].
Qed.

Lemma processTranscription_model_error_witness :
  generateGeminiResponse no_api_key "Be brief." [user_message "hi"]
  = Throw (Error "GEMINI_API_KEY or GOOGLE_GENAI_API_KEY is required") ∧
  ∃ sv' s',
    processTranscription no_api_key "m1" "hi" (JStr "user-1") one_session
      = (sv', Returned (Normal ())) ∧
    get_session "m1" sv' = Some (0%nat, s') ∧
    conversationHistory s' = [user_message "hi"] ∧
    audioResponses s' = [] ∧
    isProcessing s' = false.
Proof.
  split; [reflexivity|].
  apply (processTranscription_model_error no_api_key "m1" "hi" (JStr "user-1")
           one_session 0%nat (fresh_session "m1" "agent-1" "Be brief.")
           (Error "GEMINI_API_KEY or GOOGLE_GENAI_API_KEY is required"));
    reflexivity.
Defined.

(** C4, amended.  In a turn that passed the guards and obtained a reply,
    an entry for the reply is appended to [audioResponses] with the
    published URL when synthesis and publication succeed, and with an empty
    URL when synthesis is unavailable; when synthesis or publication raises,
    nothing is appended. *)
Theorem processTranscription_audio_record
    svc callId transcriptionText speakerId sv l s reply :
  get_session callId sv = Some (l, s) →
  isProcessing s = false →
  JS.strict_eq_str speakerId (agentUserId s) = false →
  generateGeminiResponse svc (instructions s)
    (conversationHistory s ++ [user_message transcriptionText]) = Normal reply →
  getAudioResponses callId
    (processTranscription svc callId transcriptionText speakerId sv).1
  = match textToSpeech svc reply with
    | Normal None => audioResponses s ++ [audio_entry svc reply ""]
    | Normal (Some audioBuffer) =>
        match uploadToCloudinary svc audioBuffer callId with
        | Normal url => audioResponses s ++ [audio_entry svc reply url]
        | Throw _ => audioResponses s
        end
    | Throw _ => audioResponses s
    end.
Proof.
  intros Hs Hp Ha He. apply get_session_Some in Hs as Hs'. destruct Hs' as [Hm Hh].
  assert (∀ f, getAudioResponses callId (update l f sv) = audioResponses (f s)) as Hget.
  { intros f. unfold getAudioResponses.
    replace (get_session callId (update l f sv)) with (Some (l, f s)); [done|].
    symmetry. apply get_session_Some. split; [done|]. by apply update_lookup. }
  run_turn Hs Hp Ha. unfold user_message in He. rewrite He. simpl.
  destruct (textToSpeech svc reply) as [[audioBuffer|]|e]; simpl;
    rewrite ?update_update, ?Hget; try done.
  destruct (uploadToCloudinary svc audioBuffer callId) as [url|e]; simpl;
    by rewrite ?update_update, ?Hget.
Qed.

Lemma processTranscription_audio_record_witness :
  generateGeminiResponse upload_fails "Be brief." [user_message "hi"]
  = Normal "Hello there" ∧
  getAudioResponses "m1"
    (processTranscription upload_fails "m1" "hi" (JStr "user-1") one_session).1
  = [].
Proof.
  split; [reflexivity|].
  apply (processTranscription_audio_record upload_fails "m1" "hi" (JStr "user-1")
           one_session 0%nat (fresh_session "m1" "agent-1" "Be brief.")
           "Hello there"); reflexivity.
Defined.

(** C4 fails as worded: the model replies, synthesis yields audio, the
    upload is rejected, and the turn leaves [audioResponses] empty. *)
Lemma appends_audio_entry_always_fails :
  getAudioResponses "m1"
    (processTranscription upload_fails "m1" "hi" (JStr "user-1") one_session).1
  = [] ∧
  ¬ appends_audio_entry_always.
Proof.
  split; [reflexivity|]. intros H.
  destruct (H upload_fails "m1" "hi" (JStr "user-1") one_session 0%nat
              {| call := "m1"; agentUserId := "agent-1"; instructions := "Be brief.";
                 conversationHistory := []; isProcessing := false;
                 audioResponses := [] |} "Hello there")
    as (url & Happ & _); try reflexivity.
  vm_compute in Happ. discriminate Happ.
Qed.

(** *** Single flight *)

Lemma quiescent_single_flight sy : quiescent sy → single_flight sy.
Proof.
  destruct sy as [sv ts]. intros [Hts Hq]. simpl in *. subst ts.
  split; [constructor|]. split; [by intros t Ht; apply elem_of_nil in Ht|].
  intros l s Hl. rewrite (Hq l s Hl). simpl. split; [done|].
  intros H. by apply elem_of_nil in H.
Qed.

Lemma single_flight_invoke callId transcriptionText speakerId sv ts :
  single_flight (sv, ts) →
  single_flight ((pt_enter callId transcriptionText speakerId sv).1,
                 suspended (pt_enter callId transcriptionText speakerId sv).2 ++ ts).
Proof.
  intros (Hnd & Hlen & Hflag). simpl in *.
  destruct (get_session callId sv) as [[l s]|] eqn:Hs.
  2:{ rewrite pt_enter_blocked by auto. done. }
  destruct (isProcessing s) eqn:Hp.
  { rewrite pt_enter_blocked by eauto 6. done. }
  destruct (JS.strict_eq_str speakerId (agentUserId s)) eqn:Ha.
  { rewrite pt_enter_blocked by eauto 6. done. }
  rewrite (pt_enter_passes _ _ _ _ _ _ Hs Hp Ha). unfold single_flight.
  cbn [fst snd suspended app fmap list_fmap].
  apply get_session_Some in Hs as [Hm Hh].
  assert (l ∉ turn_loc <$> ts) as Hfresh.
  { intros Hin. apply (Hflag l s Hh) in Hin. congruence. }
  split; [by constructor|]. split.
  - intros t Ht. rewrite update_length. apply elem_of_cons in Ht as [->|Ht]; simpl.
    + by eapply lookup_lt_Some.
    + by apply Hlen.
  - intros l' s' Hl'. destruct (decide (l' = l)) as [->|Hne].
    + rewrite (update_lookup _ _ _ _ Hh) in Hl'. injection Hl' as <-. simpl.
      split; [|done]. intros _. apply elem_of_cons. by left.
    + rewrite update_lookup_ne in Hl' by done. rewrite (Hflag l' s' Hl').
      rewrite elem_of_cons. tauto.
Qed.

Lemma single_flight_settle svc sv ts1 t ts2 (r : settlement t) :
  single_flight (sv, ts1 ++ t :: ts2) →
  single_flight ((pt_resume svc t r sv).1,
                 ts1 ++ suspended (pt_resume svc t r sv).2 ++ ts2).
Proof.
  intros (Hnd & Hlen & Hflag). simpl in *.
  destruct (pt_resume_effect svc t r sv) as (f & -> & Hst).
  assert (turn_loc t < length (heap sv))%nat as Hlt.
  { apply Hlen. apply elem_of_app. right. by left. }
  destruct (lookup_lt_is_Some_2 _ _ Hlt) as [s Hh].
  rewrite fmap_app, fmap_cons in Hnd, Hflag.
  apply NoDup_app in Hnd as (Hnd1 & Hnot & Hnd2).
  apply NoDup_cons in Hnd2 as (Hnot2 & Hnd2).
  assert (turn_loc t ∉ turn_loc <$> ts1) as Hnot1.
  { intros Hin. apply (Hnot _ Hin). by left. }
  destruct (pt_resume svc t r sv).2 as [t'|c];
    unfold single_flight; cbn [fst snd suspended app].
  - destruct Hst as [Hloc Hkeep].
    split; [|split].
    + rewrite fmap_app, fmap_cons, Hloc. apply NoDup_app. split; [done|].
      split; [done|]. by apply NoDup_cons.
    + intros t0 Ht0. rewrite update_length.
      apply elem_of_app in Ht0 as [Ht0|Ht0].
      * apply Hlen. apply elem_of_app. by left.
      * apply elem_of_cons in Ht0 as [->|Ht0]; [by rewrite Hloc|].
        apply Hlen. apply elem_of_app. right. by right.
    + intros l s' Hl. rewrite fmap_app, fmap_cons, Hloc.
      destruct (decide (l = turn_loc t)) as [->|Hne].
      * rewrite (update_lookup _ _ _ _ Hh) in Hl. injection Hl as <-.
        rewrite Hkeep. by apply Hflag.
      * rewrite update_lookup_ne in Hl by done. by apply Hflag.
  - destruct Hst as [_ Hclear].
    split; [|split].
    + rewrite fmap_app. apply NoDup_app. split; [done|]. split; [|done].
      intros x Hx1 Hx2. apply (Hnot x Hx1). by right.
    + intros t0 Ht0. rewrite update_length. apply Hlen.
      apply elem_of_app in Ht0 as [Ht0|Ht0]; apply elem_of_app; [by left|].
      right. by right.
    + intros l s' Hl. rewrite fmap_app.
      destruct (decide (l = turn_loc t)) as [->|Hne].
      * rewrite (update_lookup _ _ _ _ Hh) in Hl. injection Hl as <-.
        rewrite Hclear. split; [done|]. intros Hin.
        apply elem_of_app in Hin as [Hin|Hin]; done.
      * rewrite update_lookup_ne in Hl by done. rewrite (Hflag l s' Hl).
        rewrite !elem_of_app, elem_of_cons. tauto.
Qed.

Lemma single_flight_start callId agentId instr sv ts :
  single_flight (sv, ts) → single_flight (startSession callId agentId instr sv, ts).
Proof.
  intros (Hnd & Hlen & Hflag). unfold single_flight, startSession.
  cbn [fst snd heap] in *.
  split; [done|]. split.
  - intros t Ht. rewrite length_app. specialize (Hlen t Ht). lia.
  - intros l s Hl. destruct (decide (l < length (heap sv))%nat) as [Hlt|Hge].
    + rewrite lookup_app_l in Hl by done. by apply Hflag.
    + rewrite lookup_app_r in Hl by lia.
      destruct (l - length (heap sv))%nat eqn:E; simpl in Hl; [|done].
      injection Hl as <-. simpl. split; [done|]. intros Hin.
      apply list_elem_of_fmap in Hin as (t & -> & Ht). specialize (Hlen t Ht). lia.
Qed.

Lemma single_flight_step svc sy sy' :
  step svc sy sy' → single_flight sy → single_flight sy'.
Proof.
  intros Hstep Hinv. destruct Hstep as
    [callId text speakerId sv ts sv' st He
    |sv ts1 t ts2 r sv' st Hr
    |callId agentId instr sv ts
    |callId sv ts].
  - pose proof (single_flight_invoke callId text speakerId sv ts Hinv) as H.
    by rewrite He in H.
  - pose proof (single_flight_settle svc sv ts1 t ts2 r Hinv) as H.
    by rewrite Hr in H.
  - by apply single_flight_start.
  - exact Hinv.
Qed.

Lemma single_flight_reachable svc sy sy' :
  rtc (step svc) sy sy' → single_flight sy → single_flight sy'.
Proof. induction 1; eauto using single_flight_step. Qed.

Lemma in_flight_at_most_one l sy :
  single_flight sy → (length (in_flight l sy) ≤ 1)%nat.
Proof.
  intros (Hnd & _ & _). unfold in_flight. destruct sy as [sv ts]. simpl in *.
  induction ts as [|t ts IH]; simpl; [lia|].
  apply NoDup_cons in Hnd as [Hnot Hnd]. specialize (IH Hnd).
  rewrite filter_cons. case_decide as Hl; simpl; [|done].
  assert (filter (λ t, turn_loc t = l) ts = []) as ->; [|simpl; lia].
  destruct (filter (λ t, turn_loc t = l) ts) as [|t' rest] eqn:E; [done|].
  exfalso. apply Hnot.
  assert (t' ∈ filter (λ t, turn_loc t = l) ts) as Hin by (rewrite E; by left).
  apply list_elem_of_filter in Hin as [Hl' Hin].
  apply list_elem_of_fmap. exists t'. split; [congruence|done].
Qed.

Lemma in_flight_elem l sy :
  in_flight l sy ≠ [] ↔ l ∈ turn_loc <$> sy.2.
Proof.
  unfold in_flight. split.
  - intros H. destruct (filter _ _) as [|t rest] eqn:E; [done|].
    assert (t ∈ filter (λ t, turn_loc t = l) sy.2) as Hin by (rewrite E; by left).
    apply list_elem_of_filter in Hin as [Hl' Hin].
    apply list_elem_of_fmap. by exists t.
  - intros Hin Hnil. apply list_elem_of_fmap in Hin as (t & -> & Ht).
    assert (t ∈ filter (λ t', turn_loc t' = turn_loc t) sy.2) as Hin.
    { by apply list_elem_of_filter. }
    rewrite Hnil in Hin. by apply elem_of_nil in Hin.
Qed.

(** C2.  Take any state the service can reach from rest, and a session on
    which nothing is in flight.  An invocation by a speaker other than the
    agent passes the guard and is suspended at its first [await].  From
    then on, whatever else runs in between, at most one invocation is in
    flight on that session, and as long as one is, any further invocation
    on the same session returns at once and changes nothing.  The check and
    the setting of the flag sit in one uninterrupted segment, which is what
    makes them atomic. *)
Theorem processTranscription_single_flight
    svc sy0 sy callId l s textA speakerA :
  quiescent sy0 →
  rtc (step svc) sy0 sy →
  get_session callId sy.1 = Some (l, s) →
  in_flight l sy = [] →
  JS.strict_eq_str speakerA (agentUserId s) = false →
  ∃ svA tA,
    pt_enter callId textA speakerA sy.1 = (svA, Suspended tA) ∧
    turn_loc tA = l ∧
    ∀ sy', rtc (step svc) (svA, tA :: sy.2) sy' →
      (length (in_flight l sy') ≤ 1)%nat ∧
      ∀ textB speakerB,
        in_flight l sy' ≠ [] →
        sessions sy'.1 !! callId = Some l →
        pt_enter callId textB speakerB sy'.1 = (sy'.1, Returned (Normal ())).
Proof.
  intros Hq Hreach Hs Hidle Ha.
  pose proof (single_flight_reachable _ _ _ Hreach (quiescent_single_flight _ Hq)) as Hinv.
  apply get_session_Some in Hs as Hs'. destruct Hs' as [Hm Hh].
  assert (isProcessing s = false) as Hp.
  { destruct Hinv as (_ & _ & Hflag). destruct (isProcessing s) eqn:E; [|done].
    apply (Hflag l s Hh) in E. apply in_flight_elem in E. done. }
  eexists _, _. split; [by apply pt_enter_passes|]. split; [done|].
  intros sy' Hreach'.
  assert (single_flight sy') as Hinv'.
  { eapply single_flight_reachable; [exact Hreach'|].
    pose proof (single_flight_invoke callId textA speakerA sy.1 sy.2) as H.
    rewrite (pt_enter_passes _ _ _ _ _ _ Hs Hp Ha) in H. apply H.
    by destruct sy. }
  split; [by apply in_flight_at_most_one|].
  intros textB speakerB Hbusy Hm'.
  apply in_flight_elem in Hbusy.
  destruct Hinv' as (_ & Hlen & Hflag).
  apply list_elem_of_fmap in Hbusy as Hb. destruct Hb as (t & Hl & Ht).
  specialize (Hlen t Ht). rewrite <- Hl in Hlen.
  destruct (lookup_lt_is_Some_2 _ _ Hlen) as [s' Hh'].
  apply pt_enter_blocked. right. exists l, s'. split.
  - apply get_session_Some. done.
  - left. by apply (Hflag l s' Hh').
Qed.

Lemma processTranscription_single_flight_witness :
  ∃ svA tA,
    pt_enter "m1" "first" (JStr "user-1") one_session = (svA, Suspended tA) ∧
    turn_loc tA = 0%nat ∧
    pt_enter "m1" "second" (JStr "user-2") svA = (svA, Returned (Normal ())).
Proof.
  destruct (processTranscription_single_flight upload_fails (one_session, [])
              (one_session, []) "m1" 0%nat
              (fresh_session "m1" "agent-1" "Be brief.") "first" (JStr "user-1"))
    as (svA & tA & Henter & Hloc & Hafter).
  - split; [reflexivity|]. intros [|l] s; [by intros [= <-]|done].
  - apply rtc_refl.
  - reflexivity.
  - reflexivity.
  - reflexivity.
  - exists svA, tA. split; [exact Henter|]. split; [exact Hloc|].
    destruct (Hafter (svA, [tA]) (rtc_refl _ _)) as [_ Hblocked].
    apply (Hblocked "second" (JStr "user-2")).
    + apply in_flight_elem. simpl. rewrite Hloc. apply list_elem_of_here.
    + simpl in Henter. by injection Henter as <- _.
Defined.

(** ** Router *)

Lemma opt_get_field v k : opt_get v k = Normal (field v k).
Proof. by destruct v. Qed.

Lemma POST_delivers ext req payload w :
  delivers ext req payload →
  POST ext req w = acknowledge (dispatch ext payload w).
Proof.
  intros (Hs & Hk & Hv & Hp). unfold POST. rewrite Hs, Hk, Hv, Hp. simpl.
  unfold bind, acknowledge.
  destruct (dispatch ext payload w) as [[[resp|]|e] w']; reflexivity.
Qed.

Lemma dispatch_type ext payload ty :
  event_type payload ty →
  dispatch ext payload =
  if String.eqb ty "call.session_started" then session_started ext payload
  else if String.eqb ty "call.session_participant_left" then session_participant_left payload
  else if String.eqb ty "call.session_ended" then session_ended ext payload
  else if String.eqb ty "call.transcription_ready" then transcription_ready ext payload
  else if String.eqb ty "call.recording_ready" then recording_ready ext payload
  else if String.eqb ty "call.closed_caption" then closed_caption ext payload
  else if String.eqb ty "call.closed_captions_started"
          || String.eqb ty "call.transcription_started"
  then captions_started ext payload
  else ret None.
Proof.
  unfold event_type, dispatch. intros Hty.
  unfold bind, lift. rewrite opt_get_field, Hty. simpl.
  repeat (destruct (String.eqb ty _); [done|]). done.
Qed.

Lemma truthy_id id : id ≠ "" → JS.truthy (JStr id) = true.
Proof. intros H. simpl. destruct (String.eqb_spec id ""); done. Qed.

(** C8.  On [call.session_ended] with a meeting id, the voice session is
    removed whatever the state of the meeting and before the status update
    is sent: afterwards the id has no session, also when that update
    fails, and the sessions of other ids are the ones they were.  The
    update moves the meeting to [processing] only from [active] and
    otherwise changes nothing. *)
Theorem session_ended_removes_session_first ext req payload w id :
  delivers ext req payload →
  event_type payload "call.session_ended" →
  custom_meetingId payload = Normal (JStr id) →
  id ≠ "" →
  hasSession id (voice (POST ext req w).2) = false ∧
  get_session id (voice (POST ext req w).2) = None ∧
  (∀ k, k ≠ id →
        get_session k (voice (POST ext req w).2) = get_session k (voice w)) ∧
  voice (POST ext req w).2 = endSession id (voice w) ∧
  agents (POST ext req w).2 = agents w ∧
  (if db_fault ext EndedUpdateStatus
   then (∃ e, (POST ext req w).1 = Throw e) ∧ meetings (POST ext req w).2 = meetings w
   else (POST ext req w).1 = Normal (respond_status "ok") ∧
        meetings (POST ext req w).2 =
        match meetings w !! id with
        | Some m =>
            if bool_decide (status m = active)
            then <[id := {| agentId := agentId m; status := processing;
                            startedAt := startedAt m;
                            endedAt := Some (now (svc ext));
                            transcriptUrl := transcriptUrl m;
                            recordingUrl := recordingUrl m |}]> (meetings w)
            else meetings w
        | None => meetings w
        end).
Proof.
  intros Hd Hty Hid Hne.
  rewrite (POST_delivers _ _ _ _ Hd), (dispatch_type _ _ _ Hty). simpl.
  unfold session_ended, acknowledge, bind, lift. rewrite Hid.
  rewrite (truthy_id _ Hne). simpl.
  assert (hasSession id (endSession id (voice w)) = false) as Hgone.
  { apply bool_decide_eq_false. unfold endSession. simpl.
    rewrite lookup_delete_eq. by intros [? ?]. }
  assert (get_session id (endSession id (voice w)) = None) as Hnone.
  { unfold get_session, endSession. simpl. by rewrite lookup_delete_eq. }
  assert (∀ k, k ≠ id →
            get_session k (endSession id (voice w)) = get_session k (voice w))
    as Hothers.
  { intros k Hk. unfold get_session, endSession. simpl.
    by rewrite lookup_delete_ne. }
  unfold db_statement. destruct (db_fault ext EndedUpdateStatus); simpl.
  - do 5 (split; [done|]). split; [eauto|done].
  - do 5 (split; [done|]). split; [done|].
    unfold finish. destruct (meetings w !! id) as [m|] eqn:Hm.
    + case_bool_decide.
      * apply map_eq. intros k. rewrite lookup_alter.
        destruct (decide (id = k)) as [<-|Hk].
        -- rewrite Hm, lookup_insert_eq. simpl. by rewrite bool_decide_true.
        -- by rewrite lookup_insert_ne.
      * apply map_eq. intros k. rewrite lookup_alter.
        destruct (decide (id = k)) as [<-|Hk]; [|done].
        rewrite Hm. simpl. by rewrite bool_decide_false.
    + apply map_eq. intros k. rewrite lookup_alter.
      destruct (decide (id = k)) as [<-|Hk]; [|done]. by rewrite Hm.
Qed.

Lemma session_ended_removes_session_first_witness :
  hasSession "m1" (voice caption_came_first) = true ∧
  hasSession "m1"
    (voice (POST (delivering session_ended_m1) signed_request caption_came_first).2)
  = false ∧
  meetings (POST (delivering session_ended_m1) signed_request caption_came_first).2
  = meetings caption_came_first.
Proof.
  destruct (session_ended_removes_session_first (delivering session_ended_m1)
              signed_request session_ended_m1 caption_came_first "m1")
    as (Hgone & _ & _ & _ & _ & _ & Hmeetings).
  - by repeat split.
  - reflexivity.
  - reflexivity.
  - discriminate.
  - split; [reflexivity|]. split; [exact Hgone|]. exact Hmeetings.
Defined.

Lemma startable_status m : startable m = true ↔ status m ∉ not_startable.
Proof.
  rewrite <- (bool_decide_eq_true (status m ∉ not_startable)).
  unfold startable. by destruct (status m).
Qed.

Lemma find_filter_startable (ms : gmap string meeting) id k m :
  find (filter (λ kv, startable kv.2 = true) ms) id = Some (k, m) ↔
  id = JStr k ∧ ms !! k = Some m ∧ startable m = true.
Proof.
  unfold find. destruct id as [| | | |k'| |]; try (split; [done|by intros [? _]]).
  destruct (filter _ ms !! k') as [m'|] eqn:E; simpl.
  - apply map_lookup_filter_Some in E as [E1 E2]. simpl in E2. split.
    + intros [= -> ->]. done.
    + intros ([= ->] & Hm & _). congruence.
  - split; [done|]. intros ([= ->] & Hm & Hs).
    assert (filter (λ kv, startable kv.2 = true) ms !! k = Some m) as E'.
    { by apply map_lookup_filter_Some. }
    congruence.
Qed.

(** What the start handler does: either it leaves everything as it was and
    does not reach the acknowledgment, or it has activated a startable
    meeting and possibly started its session. *)
Lemma session_started_effect ext payload w :
  ((session_started ext payload w).2 = w ∧
   (session_started ext payload w).1 ≠ Normal None) ∨
  ∃ id m,
    custom_meetingId payload = Normal (JStr id) ∧
    meetings w !! id = Some m ∧ startable m = true ∧
    db_fault ext StartedSelectMeeting = false ∧
    meetings (session_started ext payload w).2 = <[id := activate ext m]> (meetings w) ∧
    agents (session_started ext payload w).2 = agents w ∧
    (voice (session_started ext payload w).2 = voice w ∨
     ∃ a, agents w !! agentId m = Some a ∧
          (session_started ext payload w).1 = Normal None ∧
          voice (session_started ext payload w).2
          = startSession id (agentId m) (agent_instructions a) (voice w)).
Proof.
  unfold session_started, bind, lift, db_statement, try_catch, upsert, ret,
    throw, modify, gets, update_meeting.
  destruct (custom_meetingId payload) as [mid|e]; [|by left].
  destruct (JS.truthy mid) eqn:Hmid; simpl; [|by left].
  destruct (db_fault ext StartedSelectMeeting) eqn:Hf1; simpl; [by left|].
  destruct (find _ mid) as [[id m]|] eqn:Hfind; simpl; [|by left].
  apply find_filter_startable in Hfind as (-> & Hm & Hst).
  assert (alter (activate ext) id (meetings w) = <[id := activate ext m]> (meetings w)) as Halt.
  { apply map_eq. intros k. rewrite lookup_alter.
    destruct (decide (id = k)) as [<-|Hk].
    - by rewrite Hm, lookup_insert_eq.
    - by rewrite lookup_insert_ne. }
  destruct (db_fault ext StartedUpdateStatus); simpl; [by left|].
  right. exists id, m. split; [done|]. split; [done|]. split; [done|]. split; [done|].
  destruct (db_fault ext StartedSelectAgent); simpl; [by rewrite Halt; auto|].
  destruct (agents w !! agentId m) as [a|] eqn:Ha; simpl; [|by rewrite Halt; auto].
  destruct (upsertUsers ext UpsertFirst); simpl.
  - destruct (OPENAI_API_KEY ext); [destruct (connectOpenAi ext)|]; simpl;
      rewrite Halt; (split; [done|]); (split; [done|]); right; eauto.
  - destruct (upsertUsers ext UpsertRetry); simpl.
    + destruct (OPENAI_API_KEY ext); [destruct (connectOpenAi ext)|]; simpl;
        rewrite Halt; (split; [done|]); (split; [done|]); right; eauto.
    + rewrite Halt; auto.
Qed.

#[local] Arguments find : simpl never.

Lemma session_started_rejected ext payload w id :
  custom_meetingId payload = Normal (JStr id) →
  id ≠ "" →
  (meetings w !! id = None ∨
   ∃ m, meetings w !! id = Some m ∧ status m ∈ not_startable) →
  session_started ext payload w =
  (if db_fault ext StartedSelectMeeting then Throw (Error "database error")
   else Normal (Some (respond_error "Meeting not found" 404)), w).
Proof.
  intros Hid Hne Hm.
  unfold session_started, bind, lift, db_statement, ret, throw, gets.
  rewrite Hid, (truthy_id _ Hne). simpl.
  destruct (db_fault ext StartedSelectMeeting); [done|]. simpl.
  destruct (find (A:=meeting) _ (JStr id)) as [[k m]|] eqn:Hfind; [|done].
  apply find_filter_startable in Hfind as ([= <-] & Hk & Hst).
  apply startable_status in Hst.
  destruct Hm as [Hm|(m' & Hm & Hbad)]; congruence.
Qed.

(** The handler of the start of a call is its lookup followed by what it
    does with the row found. *)
Lemma session_started_in_two_parts ext payload w :
  session_started ext payload w =
  match started_lookup ext payload w with
  | (Normal (inl returned), w') => (Normal returned, w')
  | (Normal (inr row), w') => started_resume ext row w'
  | (Throw e, w') => (Throw e, w')
  end.
Proof.
  unfold session_started, started_lookup, started_resume, bind, lift, db_statement,
    ret, throw, gets.
  destruct (custom_meetingId payload) as [v|e]; [|done].
  destruct (JS.truthy v); simpl; [|done].
  destruct (db_fault ext StartedSelectMeeting); simpl; [done|].
  by destruct (find _ v) as [[id m]|].
Qed.

(** C5.  The guard of the start of a call does not hold when deliveries
    overlap.  The start event of meeting [m1] is delivered twice and the
    end of the call once: the first delivery looks the meeting up while
    it is upcoming and is suspended; the second delivery is handled and
    makes the meeting active; the end of the call is handled, removes the
    session and makes the meeting processing; then the first delivery
    goes on with the row it found, makes the meeting active again and
    starts a session for a call that has ended. *)
Theorem overlapping_start_reactivates_meeting :
  let ext := duplicate_deliveries in
  let row := ("m1", upcoming_m1) in
  let w1 := (POST ext signed_request caption_came_first).2 in
  let w2 := (POST ext end_request w1).2 in
  let w3 := (started_resume ext row w2).2 in
  started_lookup ext session_started_m1 caption_came_first
  = (Normal (inr row), caption_came_first) ∧
  rtc (overlap ext) (caption_came_first, []) (w2, [row]) ∧
  overlap ext (w2, [row]) (w3, []) ∧
  status <$> meetings w1 !! "m1" = Some active ∧
  status <$> meetings w2 !! "m1" = Some processing ∧
  hasSession "m1" (voice w2) = false ∧
  status <$> meetings w3 !! "m1" = Some active ∧
  hasSession "m1" (voice w3) = true ∧
  ¬ activates_only_startable ext caption_came_first.
Proof.
  intros ext row w1 w2 w3.
  assert (rtc (overlap ext) (caption_came_first, []) (w2, [row])) as Hreach.
  { eapply rtc_l.
    { apply (overlap_lookup ext signed_request session_started_m1
               caption_came_first [] row caption_came_first); reflexivity. }
    eapply rtc_l; [apply (overlap_whole ext signed_request)|].
    eapply rtc_l; [apply (overlap_whole ext end_request)|].
    apply rtc_refl. }
  assert (overlap ext (w2, [row]) (w3, [])) as Hstep.
  { apply (overlap_resume ext w2 [] row []). }
  split; [reflexivity|]. split; [exact Hreach|]. split; [exact Hstep|].
  split; [reflexivity|]. split; [reflexivity|]. split; [reflexivity|].
  split; [reflexivity|]. split; [reflexivity|].
  intros Hguard.
  assert (meetings w2 !! "m1"
          = Some {| agentId := "agent-1"; status := processing;
                    startedAt := Some 0; endedAt := Some 0;
                    transcriptUrl := JNull; recordingUrl := JNull |}) as Hbefore
    by reflexivity.
  assert (meetings w3 !! "m1"
          = Some {| agentId := "agent-1"; status := active;
                    startedAt := Some 0; endedAt := Some 0;
                    transcriptUrl := JNull; recordingUrl := JNull |}) as Hafter
    by reflexivity.
  apply (Hguard _ _ Hreach Hstep "m1" _ _ Hbefore Hafter); simpl.
  - reflexivity.
  - discriminate.
  - do 3 apply list_elem_of_further. apply list_elem_of_here.
Qed.

(** X25.  Handled without another request in between, a
    [call.session_started] event that carries its meeting id as a string
    changes the status of a meeting only to [active] and only from a
    status outside active, completed, cancelled, processing.  When the
    meeting of the event is absent or in one of those states, the event
    is rejected (not found; or the database error when the lookup itself
    fails) and nothing is changed: no status, no session. *)
Theorem session_started_activation_guard ext req payload w :
  delivers ext req payload →
  event_type payload "call.session_started" →
  string_meetingId payload →
  (∀ k m m',
     meetings w !! k = Some m →
     meetings (POST ext req w).2 !! k = Some m' →
     status m' ≠ status m →
     status m' = active ∧ status m ∉ not_startable) ∧
  (∀ id,
     custom_meetingId payload = Normal (JStr id) →
     id ≠ "" →
     (meetings w !! id = None ∨
      ∃ m, meetings w !! id = Some m ∧ status m ∈ not_startable) →
     POST ext req w =
     (if db_fault ext StartedSelectMeeting then Throw (Error "database error")
      else Normal (respond_error "Meeting not found" 404), w)).
Proof.
  intros Hd Hty _.
  rewrite (POST_delivers _ _ _ _ Hd), (dispatch_type _ _ _ Hty). simpl.
  split.
  - intros k m m' Hm Hm' Hchange. simpl in Hm'.
    destruct (session_started_effect ext payload w)
      as [[Hw _]|(id & m0 & _ & Hm0 & Hst & _ & Hms & _)].
    + rewrite Hw in Hm'. congruence.
    + rewrite Hms in Hm'. destruct (decide (id = k)) as [->|Hk].
      * rewrite lookup_insert_eq in Hm'. injection Hm' as <-.
        split; [done|]. apply startable_status. congruence.
      * rewrite lookup_insert_ne in Hm' by done. congruence.
  - intros id Hid Hne Hm.
    rewrite (session_started_rejected _ _ _ _ Hid Hne Hm).
    by destruct (db_fault ext StartedSelectMeeting).
Qed.

Lemma session_started_activation_guard_witness :
  status <$> meetings call_in_progress !! "m1" = Some active ∧
  POST (delivering session_started_m1) signed_request call_in_progress
  = (Normal (respond_error "Meeting not found" 404), call_in_progress).
Proof.
  split; [reflexivity|].
  destruct (session_started_activation_guard (delivering session_started_m1)
              signed_request session_started_m1 call_in_progress) as [_ Hreject].
  - by repeat split.
  - reflexivity.
  - intros v [= <-] _. by eexists.
  - apply (Hreject "m1"); [reflexivity|discriminate|].
    right. eexists. split; [reflexivity|]. simpl.
    apply list_elem_of_here.
Defined.

Section Hoare.
Context (R : relation world) `{!PreOrder R}.

Lemma hoare_ret {A} (Q : A → Prop) a : Q a → hoare R Q (ret a).
Proof. intros Ha. split; [done|]. by intros ? ? [= <-]. Qed.

Lemma hoare_throw {A} (Q : A → Prop) e : hoare R Q (throw e).
Proof. split; [done|]. by intros ? ? [=]. Qed.

Lemma hoare_lift {A} (Q : A → Prop) (c : completion A) :
  (∀ a, c = Normal a → Q a) → hoare R Q (lift c).
Proof. intros Hc. split; [done|]. simpl. auto. Qed.

Lemma hoare_gets {A} (Q : A → Prop) (f : world → A) :
  (∀ w, Q (f w)) → hoare R Q (gets f).
Proof. intros Hf. split; [done|]. by intros ? ? [= <-]. Qed.

Lemma hoare_modify (f : world → world) :
  (∀ w, R w (f w)) → hoare R (λ _, True) (modify f).
Proof. intros Hf. split; [apply Hf|done]. Qed.

Lemma hoare_bind {A B} (P : A → Prop) (Q : B → Prop) (m : M A) (f : A → M B) :
  hoare R P m → (∀ a, P a → hoare R Q (f a)) → hoare R Q (bind m f).
Proof.
  intros [Hr Hp] Hf. split; intros w; unfold bind;
    specialize (Hr w); specialize (Hp w);
    destruct (m w) as [[a|e] w']; simpl in *; try done.
  - destruct (Hf a (Hp a eq_refl)) as [Hr' _]. by etrans.
  - destruct (Hf a (Hp a eq_refl)) as [_ Hq]. apply Hq.
Qed.

Lemma hoare_try_catch {A} (Q : A → Prop) (m : M A) (h : js_error → M A) :
  hoare R Q m → (∀ e, hoare R Q (h e)) → hoare R Q (try_catch m h).
Proof.
  intros [Hr Hp] Hh. split; intros w; unfold try_catch;
    specialize (Hr w); specialize (Hp w);
    destruct (m w) as [[a|e] w']; simpl in *; try done.
  - destruct (Hh e) as [Hr' _]. by etrans.
  - destruct (Hh e) as [_ Hq]. apply Hq.
Qed.

End Hoare.

(** A handler that catches everything and then falls through returns. *)
Lemma try_catch_returns {A} (m : M A) (a : A) w :
  ∃ r, (try_catch m (λ _, ret a) w).1 = Normal r.
Proof.
  unfold try_catch. destruct (m w) as [[r|e] w']; simpl; eauto.
Qed.

#[local] Instance keeps_sessions_preorder : PreOrder keeps_sessions.
Proof.
  split.
  - intros sv k l s Hs. by exists s.
  - intros sv1 sv2 sv3 H12 H23 k l s Hs.
    destruct (H12 k l s Hs) as (s2 & Hs2 & Hp2).
    destruct (H23 k l s2 Hs2) as (s3 & Hs3 & Hp3).
    exists s3. split; [done|]. by etrans.
Qed.

#[local] Instance keeps_preorder : PreOrder keeps.
Proof.
  split.
  - intros w. unfold keeps. reflexivity.
  - intros w1 w2 w3. unfold keeps. intros. by etrans.
Qed.

#[local] Instance trivial_preorder : PreOrder (λ _ _ : world, True).
Proof. by split. Qed.

Lemma keeps_update l f sv :
  (∀ s, conversationHistory s `prefix_of` conversationHistory (f s)) →
  keeps_sessions sv (update l f sv).
Proof.
  intros Hf k l' s Hs. apply get_session_Some in Hs as [Hm Hh].
  destruct (decide (l = l')) as [->|Hne].
  - exists (f s). split; [|done]. apply get_session_Some.
    split; [done|]. by apply update_lookup.
  - exists s. split; [|done]. apply get_session_Some.
    split; [done|]. by rewrite update_lookup_ne.
Qed.

Lemma keeps_startSession id agentId instr sv :
  sessions sv !! id = None → keeps_sessions sv (startSession id agentId instr sv).
Proof.
  intros Hnone k l s Hs. apply get_session_Some in Hs as [Hm Hh].
  exists s. split; [|done]. apply get_session_Some. unfold startSession. simpl.
  split.
  - rewrite lookup_insert_ne; [done|congruence].
  - rewrite lookup_app_l; [done|]. by eapply lookup_lt_Some.
Qed.

Lemma keeps_pt_enter callId transcriptionText speakerId sv :
  keeps_sessions sv (pt_enter callId transcriptionText speakerId sv).1.
Proof.
  unfold pt_enter. destruct (get_session callId sv) as [[l s]|]; [|done].
  destruct (isProcessing s); [done|].
  destruct (JS.strict_eq_str speakerId (agentUserId s)); [done|].
  simpl. etrans; apply keeps_update; intros s0; simpl; [done|].
  by apply prefix_app_r.
Qed.

Lemma keeps_pt_resume svc t (r : settlement t) sv :
  keeps_sessions sv (pt_resume svc t r sv).1.
Proof.
  destruct t; simpl in *.
  - destruct r as [reply|e]; simpl; apply keeps_update; intros s0; simpl;
      [by apply prefix_app_r|done].
  - destruct r as [[audioBuffer|]|e]; simpl; [done| |by apply keeps_update].
    etrans; by apply keeps_update.
  - destruct r as [url|e]; simpl; [|by apply keeps_update].
    etrans; by apply keeps_update.
Qed.

Lemma keeps_settle svc st :
  keeps_sessions st.1 (settle svc st).1.
Proof.
  destruct st as [sv [t|c]]; simpl; [apply keeps_pt_resume|done].
Qed.

Lemma keeps_processTranscription svc callId transcriptionText speakerId sv :
  keeps_sessions sv (processTranscription svc callId transcriptionText speakerId sv).1.
Proof.
  unfold processTranscription.
  etrans; [apply keeps_pt_enter|].
  etrans; [apply keeps_settle|].
  etrans; [apply keeps_settle|]. apply keeps_settle.
Qed.


Lemma hoare_await_processTranscription ext callId transcriptionText speakerId :
  hoare keeps (λ _, True)
    (await_processTranscription ext callId transcriptionText speakerId).
Proof.
  split; [|done]. intros w. unfold await_processTranscription, keeps.
  pose proof (keeps_processTranscription (svc ext) callId transcriptionText
                speakerId (voice w)) as H.
  by destruct (processTranscription _ _ _ _ _) as [sv st].
Qed.

Lemma hoare_ensure ext id :
  hoare keeps (λ _, True) (ensureGeminiSessionForMeeting ext id).
Proof.
  split; [|done]. intros w.
  unfold ensureGeminiSessionForMeeting, try_catch, bind, gets, db_statement, ret,
    throw, modify, upsert, keeps.
  unfold hasSession. case_bool_decide as Hhas; simpl; [reflexivity|].
  assert (sessions (voice w) !! id = None) as Hnone.
  { destruct (sessions (voice w) !! id) eqn:E; [|done]. exfalso. eauto. }
  destruct (db_fault ext EnsureSelectMeeting); simpl; [reflexivity|].
  destruct (meetings w !! id) as [m|]; simpl; [|reflexivity].
  destruct (db_fault ext EnsureSelectAgent); simpl; [reflexivity|].
  destruct (agents w !! agentId m) as [a|]; simpl; [|reflexivity].
  destruct (upsertUsers ext UpsertEnsure); simpl; by apply keeps_startSession.
Qed.

Ltac hoare_return :=
  apply hoare_ret; try apply _; first [by left | by right | done].
Ltac hoare_seq lem :=
  eapply hoare_bind; try apply _; [apply lem|];
  let a := fresh "a" in let H := fresh in intros a H; clear H.
Ltac hoare_read :=
  eapply (hoare_bind _ (λ _, True)); try apply _;
  [eapply hoare_lift; try apply _; done|];
  let a := fresh "a" in let H := fresh in intros a H; clear H.
Ltac hoare_catch :=
  apply hoare_try_catch; try apply _; [|intros ?; hoare_return].

Lemma hoare_closed_caption ext payload :
  hoare keeps ignored_or_through (closed_caption ext payload).
Proof.
  unfold closed_caption. hoare_catch.
  hoare_read. destruct (JS.truthy _); simpl; [|hoare_return].
  match goal with |- context [match ?mid with JStr _ => _ | _ => _ end] =>
    destruct mid; try hoare_return end.
  hoare_seq hoare_ensure.
  match goal with |- context [negb ?ready] => destruct ready; simpl; [|hoare_return] end.
  hoare_read.
  destruct (extractCaptionText _ payload) as [text|]; [|hoare_return].
  destruct (_ || _); [hoare_return|].
  hoare_seq hoare_await_processTranscription. hoare_return.
Qed.

Lemma hoare_captions_started ext payload :
  hoare keeps ignored_or_through (captions_started ext payload).
Proof.
  unfold captions_started. hoare_catch.
  hoare_read. destruct (JS.truthy _); simpl; [|hoare_return].
  match goal with |- context [match ?mid with JStr _ => _ | _ => _ end] =>
    destruct mid; try hoare_return end.
  hoare_seq hoare_ensure. hoare_return.
Qed.

Ltac hoare_among := apply hoare_ret; try apply _; simpl; set_solver.
Ltac hoare_db :=
  eapply (hoare_bind _ (λ _, True)); try apply _;
  [unfold db_statement; match goal with |- context [db_fault ?e ?s] =>
     destruct (db_fault e s) end;
   [apply hoare_throw | apply hoare_ret]; try apply _; done|];
  let a := fresh "a" in let H := fresh in intros a H; clear H.
Ltac hoare_state :=
  eapply (hoare_bind _ (λ _, True)); try apply _;
  [first [apply hoare_gets | apply hoare_modify]; try apply _; done|];
  let a := fresh "a" in let H := fresh in intros a H; clear H.

Lemma hoare_update_meeting f id :
  hoare (λ _ _, True) (λ _, True) (update_meeting f id).
Proof.
  unfold update_meeting.
  destruct id; try (apply hoare_ret; [apply _|done]).
  by apply hoare_modify.
Qed.


Lemma hoare_recording_ready ext payload :
  hoare (λ _ _, True) (returns_among []) (recording_ready ext payload).
Proof.
  unfold recording_ready. do 4 hoare_read.
  eapply (hoare_bind _ (λ _, True)); try apply _; [by split|]. intros _ _.
  hoare_db. first [hoare_seq hoare_update_meeting | hoare_state]. hoare_among.
Qed.

(** *** Acknowledgment policy *)

Lemma strict_eq_str_true v k : JS.strict_eq_str v k = true ↔ v = JStr k.
Proof.
  destruct v; simpl; try (split; [done|by intros [=]]).
  rewrite String.eqb_eq. split; [by intros ->|by intros [= ->]].
Qed.

Lemma dispatch_cases ext payload :
  (event_type payload "call.session_started" ∧
   dispatch ext payload = session_started ext payload) ∨
  (event_type payload "call.session_participant_left" ∧
   dispatch ext payload = session_participant_left payload) ∨
  (event_type payload "call.session_ended" ∧
   dispatch ext payload = session_ended ext payload) ∨
  (event_type payload "call.transcription_ready" ∧
   dispatch ext payload = transcription_ready ext payload) ∨
  (event_type payload "call.recording_ready" ∧
   dispatch ext payload = recording_ready ext payload) ∨
  ((∀ ty, ty ∈ fallible_events → ¬ event_type payload ty) ∧
   (dispatch ext payload = closed_caption ext payload ∨
    dispatch ext payload = captions_started ext payload ∨
    dispatch ext payload = ret None)).
Proof.
  unfold dispatch, bind, lift. rewrite opt_get_field. unfold event_type.
  destruct (JS.strict_eq_str _ "call.session_started") eqn:E1.
  { apply strict_eq_str_true in E1. auto. }
  destruct (JS.strict_eq_str _ "call.session_participant_left") eqn:E2.
  { apply strict_eq_str_true in E2. auto. }
  destruct (JS.strict_eq_str _ "call.session_ended") eqn:E3.
  { apply strict_eq_str_true in E3. auto 6. }
  destruct (JS.strict_eq_str _ "call.transcription_ready") eqn:E4.
  { apply strict_eq_str_true in E4. auto 6. }
  destruct (JS.strict_eq_str _ "call.recording_ready") eqn:E5.
  { apply strict_eq_str_true in E5. auto 7. }
  do 5 right. split.
  - intros ty Hty Heq. apply strict_eq_str_true in Heq.
    unfold fallible_events in Hty.
    repeat (apply elem_of_cons in Hty as [->|Hty]; [congruence|]).
    by apply elem_of_nil in Hty.
  - destruct (JS.strict_eq_str _ "call.closed_caption"); [auto|].
    destruct (_ || _); auto.
Qed.

Lemma acknowledge_Normal r resp :
  (acknowledge r).1 = Normal resp →
  r.1 = Normal (Some resp) ∨ (r.1 = Normal None ∧ resp = respond_status "ok").
Proof.
  unfold acknowledge. simpl. destruct r.1 as [[resp'|]|e]; [|by intros [= <-]; auto|done].
  intros [= ->]. by left.
Qed.

Lemma closed_caption_returns ext payload w :
  ∃ r, (closed_caption ext payload w).1 = Normal r.
Proof. unfold closed_caption. apply try_catch_returns. Qed.

Lemma captions_started_returns ext payload w :
  ∃ r, (captions_started ext payload w).1 = Normal r.
Proof. unfold captions_started. apply try_catch_returns. Qed.

Lemma ignored_or_through_ok r :
  ignored_or_through r →
  ∃ resp, match r with
          | Some resp => Normal resp
          | None => Normal (respond_status "ok")
          end = Normal resp ∧ status_code resp = 200.
Proof. intros [->| ->]; eexists; by split. Qed.

Lemma find_filter_none (ms : gmap string meeting) k :
  find (filter (λ kv, startable kv.2 = true) ms) (JStr k) = None ↔
  ms !! k = None ∨ ∃ m, ms !! k = Some m ∧ status m ∈ not_startable.
Proof.
  split.
  - intros Hnone. destruct (ms !! k) as [m|] eqn:Hm; [|by left]. right.
    exists m. split; [done|].
    destruct (decide (status m ∈ not_startable)) as [|Hout]; [done|].
    apply startable_status in Hout.
    assert (find (filter (λ kv, startable kv.2 = true) ms) (JStr k) = Some (k, m))
      as Hfound by (by apply find_filter_startable).
    congruence.
  - intros Hm.
    destruct (find (filter (λ kv, startable kv.2 = true) ms) (JStr k))
      as [[k' m]|] eqn:Hfind; [|done].
    apply find_filter_startable in Hfind as ([= <-] & Hk & Hst).
    apply startable_status in Hst.
    destruct Hm as [Hm|(m' & Hm & Hbad)]; congruence.
Qed.

(** What the start handler returns before the acknowledgment, and why. *)
Lemma session_started_returns ext payload w resp :
  (session_started ext payload w).1 = Normal (Some resp) →
  (∃ v, custom_meetingId payload = Normal v ∧ JS.truthy v = false ∧
        resp = missing_id) ∨
  (∃ v, custom_meetingId payload = Normal v ∧ JS.truthy v = true ∧
        db_fault ext StartedSelectMeeting = false ∧
        find (filter (λ kv, startable kv.2 = true) (meetings w)) v = None ∧
        resp = meeting_not_found) ∨
  (∃ v id m, custom_meetingId payload = Normal v ∧ JS.truthy v = true ∧
        find (filter (λ kv, startable kv.2 = true) (meetings w)) v = Some (id, m) ∧
        db_fault ext StartedSelectMeeting = false ∧
        db_fault ext StartedUpdateStatus = false ∧
        db_fault ext StartedSelectAgent = false ∧
        agents w !! agentId m = None ∧ resp = agent_not_found).
Proof.
  unfold session_started, bind, lift, db_statement, try_catch, upsert, ret,
    throw, modify, gets, update_meeting.
  destruct (custom_meetingId payload) as [v|e]; [|done].
  destruct (JS.truthy v) eqn:Hv; simpl.
  2:{ intros [= <-]. left. by exists v. }
  destruct (db_fault ext StartedSelectMeeting) eqn:Hf1; simpl; [done|].
  destruct (find _ v) as [[id m]|] eqn:Hfind; simpl.
  2:{ intros [= <-]. right. left. by exists v. }
  destruct (db_fault ext StartedUpdateStatus) eqn:Hf2; simpl; [done|].
  destruct (db_fault ext StartedSelectAgent) eqn:Hf3; simpl; [done|].
  destruct (agents w !! agentId m) as [a|] eqn:Ha; simpl.
  2:{ intros [= <-]. right. right. by exists v, id, m. }
  destruct (upsertUsers ext UpsertFirst); simpl;
    [|destruct (upsertUsers ext UpsertRetry); simpl];
    try (destruct (OPENAI_API_KEY ext); [destruct (connectOpenAi ext)|]; simpl);
    done.
Qed.

Lemma session_ended_returns ext payload w resp :
  (session_ended ext payload w).1 = Normal (Some resp) →
  ∃ v, custom_meetingId payload = Normal v ∧ JS.truthy v = false ∧
       resp = missing_id.
Proof.
  unfold session_ended, bind, lift, db_statement, ret, throw, await_endSession,
    update_meeting, modify.
  destruct (custom_meetingId payload) as [v|e]; [|done].
  destruct (JS.truthy v) eqn:Hv; simpl.
  2:{ intros [= <-]. by exists v. }
  destruct v; simpl; destruct (db_fault ext EndedUpdateStatus); done.
Qed.

Lemma participant_left_returns props w resp :
  (session_participant_left (JObj props) w).1 = Normal (Some resp) →
  ∃ cid, JS.assoc "call_cid" props = JStr cid ∧
         (∀ c rest, JS.split ":" cid !! 1%nat ≠ Some (String c rest)) ∧
         resp = missing_id.
Proof.
  unfold session_participant_left, bind, lift, ret. simpl.
  destruct (JS.assoc "call_cid" props) as [| |b|n|cid|xs|ps]; simpl; try done.
  destruct (JS.split ":" cid !! 1%nat) as [[|c rest]|] eqn:E; simpl; try done;
    intros [= <-]; exists cid; split; try done; split; try done; congruence.
Qed.

Lemma transcription_ready_returns ext props w resp :
  (transcription_ready ext (JObj props) w).1 = Normal (Some resp) →
  ∃ cid url,
    JS.assoc "call_cid" props = JStr cid ∧
    JS.get (JS.assoc "call_transcription" props) "url" = Normal url ∧
    url ≠ JUndefined ∧
    db_fault ext TranscriptUpdate = false ∧
    (∀ id, JS.split ":" cid !! 1%nat = Some id → meetings w !! id = None) ∧
    resp = meeting_not_found.
Proof.
  unfold transcription_ready.
  unfold bind at 1. unfold lift at 1. simpl.
  destruct (JS.assoc "call_cid" props) as [| |b|n|cid|xs|ps] eqn:Hcid;
    try (unfold bind, lift; simpl; done).
  unfold bind at 1. unfold lift at 1. simpl.
  unfold bind at 1. unfold lift at 1. simpl.
  unfold bind at 1. unfold lift at 1.
  destruct (JS.get (JS.assoc "call_transcription" props) "url") as [url|e] eqn:Hurl;
    [|done].
  unfold bind at 1.
  destruct (set_value url w) as [[[]|e] w0] eqn:Hset.
  2:{ done. }
  assert (url ≠ JUndefined ∧ w0 = w) as [Hdefined ->].
  { destruct url; simpl in Hset; try done; by injection Hset as <-. }
  unfold bind at 1. unfold db_statement.
  destruct (db_fault ext TranscriptUpdate) eqn:Hdb; [done|]. unfold ret at 1.
  unfold bind at 1.
  set (meetingId := match JS.split ":" cid !! 1%nat with
                    | Some part => JStr part
                    | None => JUndefined
                    end).
  destruct (update_meeting (set_transcriptUrl url) meetingId w) as [c w1] eqn:Hupd.
  assert (c = Normal () ∧
          find (meetings w1) meetingId = None →
          ∀ id, JS.split ":" cid !! 1%nat = Some id → meetings w !! id = None)
    as Hrow.
  { intros [_ Hnone] id Hid. subst meetingId. rewrite Hid in Hupd, Hnone.
    unfold update_meeting, modify in Hupd. injection Hupd as _ <-.
    unfold find in Hnone. simpl in Hnone. rewrite lookup_alter_eq in Hnone.
    by destruct (meetings w !! id). }
  assert (c = Normal ()) as ->.
  { subst meetingId. unfold update_meeting, modify, ret in Hupd.
    destruct (JS.split ":" cid !! 1%nat); by injection Hupd as <- _. }
  unfold bind at 1. unfold gets at 1.
  destruct (find (meetings w1) meetingId) as [[id m]|] eqn:Hfind.
  2:{ simpl. intros [= <-]. exists cid, url. repeat (split; [done|]).
      split; [by apply Hrow|done]. }
  unfold bind at 1. unfold gets at 1.
  unfold bind at 1.
  match goal with |- context [(if ?c then ?a else ?b) ?w'] =>
    destruct ((if c then a else b) w') as [[[]|e] w2] end; [|done].
  unfold bind. destruct (inngest_send ext); simpl; done.
Qed.

(** C7, amended.  For events that carry their meeting id and the URL of
    their asset as strings, the endpoint answers with a client error
    exactly in these cases: a header is missing (400); the signature does
    not verify (401); the body does not parse (400); a
    [session_started] or [session_ended] event carries no meeting id, or
    the call cid of a [session_participant_left] event has no id after
    the colon (400); the meeting of a [session_started] event is absent
    or not startable, or that of a [transcription_ready] event is absent
    (404); the agent of the meeting of a [session_started] event is
    absent (404).  Any other answer it gives is a success.  For
    [closed_caption], [closed_captions_started], [transcription_started]
    and every event type it does not know, it always answers with a
    success, whatever fails inside. *)
Theorem POST_error_policy ext req w :
  (∀ payload, delivers ext req payload → well_typed payload) →
  (∀ resp, (POST ext req w).1 = Normal resp →
           status_code resp = 200 ∨ client_error_cause ext req w resp) ∧
  (∀ resp, client_error_cause ext req w resp →
           (POST ext req w).1 = Normal resp ∧ client_error resp) ∧
  (∀ payload,
     delivers ext req payload →
     (∀ ty, ty ∈ fallible_events → ¬ event_type payload ty) →
     ∃ resp, (POST ext req w).1 = Normal resp ∧ status_code resp = 200).
Proof.
  intros Htyped. split; [|split].
  - intros resp Hresp.
    destruct (missing (x_signature req) || missing (x_api_key req)) eqn:Hh.
    { unfold POST in Hresp. rewrite Hh in Hresp. injection Hresp as <-.
      right. by constructor. }
    destruct (verifyWebhook ext (body req) (default "" (x_signature req))) eqn:Hv.
    2:{ unfold POST in Hresp. rewrite Hh, Hv in Hresp. injection Hresp as <-.
        right. by constructor. }
    destruct (JSON_parse ext (body req)) as [payload|] eqn:Hp.
    2:{ unfold POST in Hresp. rewrite Hh, Hv, Hp in Hresp. injection Hresp as <-.
        right. by constructor. }
    assert (delivers ext req payload) as Hd.
    { apply orb_false_elim in Hh as [? ?]. by repeat split. }
    destruct (Htyped payload Hd) as [Hid Hurl].
    rewrite (POST_delivers _ _ _ _ Hd) in Hresp.
    apply acknowledge_Normal in Hresp as [Hresp|[_ ->]]; [|by left].
    destruct (dispatch_cases ext payload)
      as [[Hty Hdis]|[[Hty Hdis]|[[Hty Hdis]|[[Hty Hdis]|[[Hty Hdis]|[_ Hrest]]]]]];
      try rewrite Hdis in Hresp.
    + right. apply session_started_returns in Hresp
        as [(v & Hv' & Hfalsy & ->)|[(v & Hv' & Htruthy & Hf & Hfind & ->)
                                    |(v & id & m & Hv' & Htruthy & Hfind & Hf1 & Hf2
                                      & Hf3 & Ha & ->)]].
      * eapply cause_missing_meetingId; [done|done| |done|done].
        apply list_elem_of_here.
      * destruct (Hid v Hv' Htruthy) as [id ->].
        eapply (cause_meeting_not_startable _ _ _ payload id); try done.
        -- intros ->. discriminate Htruthy.
        -- by apply find_filter_none.
      * destruct (Hid v Hv' Htruthy) as [id' ->].
        apply find_filter_startable in Hfind as ([= <-] & Hm & Hst).
        eapply (cause_agent_unknown _ _ _ payload id' m); try done.
        -- intros ->. discriminate Htruthy.
        -- by apply startable_status.
    + right.
      assert (∃ props, payload = JObj props) as [props ->].
      { unfold event_type in Hty. destruct payload; try discriminate. eauto. }
      apply participant_left_returns in Hresp as (cid & Hcid & Hsplit & ->).
      by eapply cause_missing_call_id.
    + right. apply session_ended_returns in Hresp as (v & Hv' & Hfalsy & ->).
      eapply cause_missing_meetingId; [done|done| |done|done].
      apply list_elem_of_further, list_elem_of_here.
    + right.
      assert (∃ props, payload = JObj props) as [props ->].
      { unfold event_type in Hty. destruct payload; try discriminate. eauto. }
      apply transcription_ready_returns in Hresp
        as (cid & url & Hcid & Hget & Hdefined & Hdb & Hrow & ->).
      destruct (Hurl "call_transcription" url) as [->|[u ->]]; try done.
      { apply list_elem_of_here. }
      by eapply (cause_meeting_unknown _ _ _ (JObj props) cid u).
    + apply (hoare_post _ _ _ (hoare_recording_ready ext payload)) in Hresp.
      simpl in Hresp. by apply elem_of_nil in Hresp.
    + left. destruct Hrest as [Hrest|[Hrest|Hrest]]; rewrite Hrest in Hresp.
      * apply (hoare_post _ _ _ (hoare_closed_caption ext payload)) in Hresp.
        by destruct Hresp as [?|[= ->]].
      * apply (hoare_post _ _ _ (hoare_captions_started ext payload)) in Hresp.
        by destruct Hresp as [?|[= ->]].
      * done.
  - intros resp Hcause.
    destruct Hcause as [Hh|Hh Hv|Hh Hv Hp|payload ty v Hd Hty Hin Hid Hfalsy
                       |payload cid Hd Hty Hcid Hsplit
                       |payload id Hd Hty Hid Hne Hf Hrow
                       |payload cid url Hd Hty Hcid Hurl Hdb Hrow
                       |payload id m Hd Hty Hid Hne Hm Hst Hf1 Hf2 Hf3 Ha].
    + unfold POST. rewrite Hh. split; [done|]. unfold client_error. simpl. lia.
    + unfold POST. rewrite Hh, Hv. split; [done|]. unfold client_error. simpl. lia.
    + unfold POST. rewrite Hh, Hv, Hp. split; [done|]. unfold client_error. simpl. lia.
    + rewrite (POST_delivers _ _ _ _ Hd), (dispatch_type _ _ _ Hty).
      split; [|unfold client_error; simpl; lia].
      apply elem_of_cons in Hin as [->|Hin]; simpl.
      * unfold acknowledge, session_started, bind, lift. by rewrite Hid, Hfalsy.
      * apply list_elem_of_singleton in Hin as ->. simpl.
        unfold acknowledge, session_ended, bind, lift. by rewrite Hid, Hfalsy.
    + rewrite (POST_delivers _ _ _ _ Hd), (dispatch_type _ _ _ Hty). simpl.
      split; [|unfold client_error; simpl; lia].
      assert (∃ props, payload = JObj props) as [props ->].
      { unfold event_type in Hty. destruct payload; try discriminate. eauto. }
      simpl in Hcid.
      unfold acknowledge, session_participant_left, bind, lift. simpl.
      rewrite Hcid. simpl.
      destruct (JS.split ":" cid !! 1%nat) as [[|c rest]|] eqn:E; simpl; try done.
      by destruct (Hsplit c rest).
    + rewrite (POST_delivers _ _ _ _ Hd), (dispatch_type _ _ _ Hty). simpl.
      split; [|unfold client_error; simpl; lia].
      unfold acknowledge.
      rewrite (session_started_rejected _ _ _ _ Hid Hne Hrow). by rewrite Hf.
    + rewrite (POST_delivers _ _ _ _ Hd), (dispatch_type _ _ _ Hty). simpl.
      split; [|unfold client_error; simpl; lia].
      assert (∃ props, payload = JObj props) as [props ->].
      { unfold event_type in Hty. destruct payload; try discriminate. eauto. }
      simpl in Hcid, Hurl.
      unfold acknowledge, transcription_ready, bind, lift, db_statement, set_value,
        ret, update_meeting, modify, gets, find.
      simpl. rewrite Hcid. simpl. rewrite Hurl, Hdb.
      destruct (JS.split ":" cid !! 1%nat) as [id|] eqn:E; simpl; [|done].
      rewrite lookup_alter_eq, (Hrow id eq_refl). done.
    + rewrite (POST_delivers _ _ _ _ Hd), (dispatch_type _ _ _ Hty). simpl.
      split; [|unfold client_error; simpl; lia].
      assert (find (filter (λ kv, startable kv.2 = true) (meetings w)) (JStr id)
              = Some (id, m)) as Hfind.
      { apply find_filter_startable. split; [done|]. split; [done|].
        by apply startable_status. }
      unfold acknowledge, session_started, bind, lift, db_statement, ret, gets,
        update_meeting, modify.
      rewrite Hid, (truthy_id _ Hne). simpl. rewrite Hf1. simpl.
      rewrite Hfind. simpl. rewrite Hf2. simpl. rewrite Hf3. simpl.
      by rewrite Ha.
  - intros payload Hd Hother. rewrite (POST_delivers _ _ _ _ Hd).
    destruct (dispatch_cases ext payload)
      as [[Hty _]|[[Hty _]|[[Hty _]|[[Hty _]|[[Hty _]|[_ Hrest]]]]]];
      try (exfalso; eapply Hother; [|exact Hty]; unfold fallible_events;
           repeat first [by apply list_elem_of_here | apply list_elem_of_further]).
    unfold acknowledge. simpl.
    destruct Hrest as [Hrest|[Hrest|Hrest]]; rewrite Hrest.
    + destruct (closed_caption_returns ext payload w) as [r Hr]. rewrite Hr.
      apply ignored_or_through_ok.
      by apply (hoare_post _ _ _ (hoare_closed_caption ext payload) w).
    + destruct (captions_started_returns ext payload w) as [r Hr]. rewrite Hr.
      apply ignored_or_through_ok.
      by apply (hoare_post _ _ _ (hoare_captions_started ext payload) w).
    + eexists. by split.
Qed.

Lemma POST_error_policy_witness :
  (POST (delivering session_ended_without_id) signed_request caption_came_first).1
  = Normal (respond_error "Missing meetingId" 400).
Proof.
  destruct (POST_error_policy (delivering session_ended_without_id) signed_request
              caption_came_first) as (_ & Hcause & _).
  - intros payload (_ & _ & _ & [= <-]). split.
    + intros v [= <-]. discriminate.
    + intros k v Hk. repeat (apply elem_of_cons in Hk as [->|Hk]);
        [| |by apply elem_of_nil in Hk]; simpl; intros [= <-]; by left.
  - apply (Hcause missing_id).
    eapply (cause_missing_meetingId _ _ _ session_ended_without_id
              "call.session_ended" JUndefined).
    + by repeat split.
    + reflexivity.
    + apply list_elem_of_further, list_elem_of_here.
    + reflexivity.
    + reflexivity.
Defined.

(** C7 fails as worded: an authentic [call.session_ended] event without a
    meeting id is answered with status 400. *)
Lemma client_errors_elsewhere :
  (POST (delivering session_ended_without_id) signed_request empty_world).1
  = Normal (respond_error "Missing meetingId" 400) ∧
  ¬ client_errors_only_on_start_and_transcript.
Proof.
  split; [reflexivity|]. intros H.
  destruct (H (delivering session_ended_without_id) signed_request empty_world
              missing_id)
    as [Hc|[Hc|[Hc|(payload & Hp & [Hty|Hty])]]]; try done.
  - injection Hp as <-. discriminate Hty.
  - injection Hp as <-. discriminate Hty.
Qed.

(** *** Creation of sessions *)

Lemma get_session_startSession id agentId instr sv :
  get_session id (startSession id agentId instr sv)
  = Some (length (heap sv), fresh_session id agentId instr).
Proof.
  apply get_session_Some. unfold startSession. simpl. split.
  - apply lookup_insert_eq.
  - rewrite lookup_app_r by lia. by rewrite Nat.sub_diag.
Qed.

Lemma session_started_starts ext payload w id m a :
  custom_meetingId payload = Normal (JStr id) →
  id ≠ "" →
  meetings w !! id = Some m →
  status m ∉ not_startable →
  agents w !! agentId m = Some a →
  (∀ site, db_fault ext site = false) →
  (upsertUsers ext UpsertFirst = true ∨ upsertUsers ext UpsertRetry = true) →
  voice (session_started ext payload w).2
  = startSession id (agentId m) (agent_instructions a) (voice w).
Proof.
  intros Hid Hne Hm Hst Ha Hdb Hup.
  unfold session_started, bind, lift, db_statement, try_catch, upsert, ret,
    throw, modify, gets, update_meeting.
  rewrite Hid, (truthy_id _ Hne), !Hdb. simpl.
  assert (find (filter (λ kv, startable kv.2 = true) (meetings w)) (JStr id)
          = Some (id, m)) as ->.
  { apply find_filter_startable. split; [done|]. split; [done|].
    by apply startable_status. }
  simpl. rewrite Ha.
  destruct (upsertUsers ext UpsertFirst) eqn:E1; simpl.
  - by destruct (OPENAI_API_KEY ext); [destruct (connectOpenAi ext)|].
  - destruct Hup as [?|E2]; [done|]. rewrite E2. simpl.
    by destruct (OPENAI_API_KEY ext); [destruct (connectOpenAi ext)|].
Qed.

(** C6, amended.  Within one request, the lazy path of the caption events
    never replaces a session that exists and never resets its history:
    every session stored before the event is stored after it as the same
    object, its history at most extended.  The explicit start on [call.session_started] stores a
    fresh session with an empty history under the id whenever the meeting
    can be started, its agent is found and the provisioning goes through,
    whether or not a session was stored there. *)
Theorem session_creation_paths ext req payload w :
  delivers ext req payload →
  ((event_type payload "call.closed_caption" ∨
    event_type payload "call.closed_captions_started" ∨
    event_type payload "call.transcription_started") →
   keeps_sessions (voice w) (voice (POST ext req w).2)) ∧
  (event_type payload "call.session_started" →
   ∀ id m a,
     custom_meetingId payload = Normal (JStr id) →
     id ≠ "" →
     meetings w !! id = Some m →
     status m ∉ not_startable →
     agents w !! agentId m = Some a →
     (∀ site, db_fault ext site = false) →
     (upsertUsers ext UpsertFirst = true ∨ upsertUsers ext UpsertRetry = true) →
     get_session id (voice (POST ext req w).2)
     = Some (length (heap (voice w)),
             fresh_session id (agentId m) (agent_instructions a))).
Proof.
  intros Hd. rewrite (POST_delivers _ _ _ _ Hd). split.
  - intros Hty.
    assert (dispatch ext payload = closed_caption ext payload ∨
            dispatch ext payload = captions_started ext payload) as [-> | ->].
    { destruct Hty as [Hty|[Hty|Hty]]; rewrite (dispatch_type _ _ _ Hty); auto. }
    + apply (hoare_frame _ _ _ (hoare_closed_caption ext payload) w).
    + apply (hoare_frame _ _ _ (hoare_captions_started ext payload) w).
  - intros Hty id m a Hid Hne Hm Hst Ha Hdb Hup.
    rewrite (dispatch_type _ _ _ Hty). simpl.
    rewrite (session_started_starts _ _ _ _ _ _ Hid Hne Hm Hst Ha Hdb Hup).
    apply get_session_startSession.
Qed.

Lemma session_creation_paths_witness :
  get_session "m1"
    (voice (POST (delivering session_started_m1) signed_request caption_came_first).2)
  = Some (1%nat, fresh_session "m1" "agent-1" "Be brief.").
Proof.
  destruct (session_creation_paths (delivering session_started_m1)
              signed_request session_started_m1 caption_came_first) as [_ Hstart].
  - by repeat split.
  - apply (Hstart eq_refl "m1"
             {| agentId := "agent-1"; status := upcoming; startedAt := None;
                endedAt := None; transcriptUrl := JNull; recordingUrl := JNull |}
             {| name := "Agent"; agent_instructions := "Be brief." |});
      try reflexivity; try discriminate.
    + intros Hin. by repeat (apply elem_of_cons in Hin as [Hin|Hin]; [discriminate|]);
        apply elem_of_nil in Hin.
    + by left.
Defined.

(** C6 fails as worded: a caption created the session of [m1] and a turn
    was recorded; the start event then arrives for the still upcoming
    meeting and stores a fresh session under [m1]. *)
Lemma explicit_start_replaces_session :
  get_session "m1" (voice caption_came_first)
  = Some (0%nat,
          {| call := "m1"; agentUserId := "agent-1"; instructions := "Be brief.";
             conversationHistory :=
               [ {| role := "user"; content := "hello" |};
                 {| role := "assistant"; content := "Hello there" |} ];
             isProcessing := false; audioResponses := [] |}) ∧
  (POST (delivering session_started_m1) signed_request caption_came_first).1
  = Normal (respond_status "ok") ∧
  get_session "m1"
    (voice (POST (delivering session_started_m1) signed_request caption_came_first).2)
  = Some (1%nat, fresh_session "m1" "agent-1" "Be brief.") ∧
  ¬ creation_never_replaces.
Proof.
  split; [reflexivity|]. split; [reflexivity|]. split; [reflexivity|].
  intros H.
  assert (delivers (delivering session_started_m1) signed_request session_started_m1)
    as Hd by (by repeat split).
  destruct (H _ _ _ caption_came_first Hd (or_introl eq_refl) "m1" 0%nat _ eq_refl)
    as (s' & Hs' & _).
  vm_compute in Hs'. discriminate Hs'.
Qed.

(** * Further properties *)

(** ** The session store *)

Lemma hasSession_true k sv : hasSession k sv = true ↔ is_Some (sessions sv !! k).
Proof. unfold hasSession. apply bool_decide_eq_true. Qed.

Lemma hasSession_false k sv : hasSession k sv = false ↔ sessions sv !! k = None.
Proof.
  unfold hasSession. rewrite bool_decide_eq_false. split.
  - intros H. destruct (sessions sv !! k) eqn:E; [|done]. exfalso. eauto.
  - intros ->. by intros [? ?].
Qed.

(** X1.  Storing and removing sessions: after [startSession] the id is
    present and resolves to a fresh session with an empty history that is
    not processing; after [endSession] it is absent; neither touches the
    session stored under another id; and ending a session that is not
    there changes nothing. *)
Theorem session_store_round_trip id agentId instr k sv :
  well_formed sv →
  k ≠ id →
  hasSession id (startSession id agentId instr sv) = true ∧
  get_session id (startSession id agentId instr sv)
    = Some (length (heap sv), fresh_session id agentId instr) ∧
  hasSession id (endSession id (startSession id agentId instr sv)) = false ∧
  get_session k (startSession id agentId instr sv) = get_session k sv ∧
  get_session k (endSession id sv) = get_session k sv ∧
  (hasSession id sv = false → endSession id sv = sv).
Proof.
  intros Hwf Hk. repeat split.
  - apply hasSession_true. unfold startSession. simpl.
    rewrite lookup_insert_eq. eauto.
  - apply get_session_startSession.
  - apply hasSession_false. unfold endSession, startSession. simpl.
    apply lookup_delete_eq.
  - unfold get_session, startSession. simpl.
    rewrite lookup_insert_ne by done.
    destruct (sessions sv !! k) as [l|] eqn:E; simpl; [|done].
    rewrite lookup_app_l; [done|]. by eapply Hwf.
  - unfold get_session, endSession. simpl. by rewrite lookup_delete_ne.
  - intros Hno. apply hasSession_false in Hno.
    destruct sv as [ss h]. unfold endSession. simpl in *. f_equal.
    by apply delete_id.
Qed.

Lemma session_store_round_trip_witness :
  get_session "m2" (startSession "m1" "agent-1" "Be brief." one_session)
  = get_session "m2" one_session ∧
  hasSession "m1" (endSession "m1" one_session) = false.
Proof.
  assert (well_formed one_session) as Hwf.
  { intros k l. unfold one_session, startSession. simpl.
    destruct (decide (k = "m1")) as [->|Hne].
    - rewrite lookup_insert_eq. intros [= <-]. lia.
    - rewrite lookup_insert_ne by done. by rewrite lookup_empty. }
  destruct (session_store_round_trip "m1" "agent-1" "Be brief." "m2" one_session Hwf)
    as (_ & _ & _ & Hother & _ & _); [discriminate|].
  split; [exact Hother|reflexivity].
Defined.

(** ** Turns *)

Lemma generateGeminiResponse_nonempty svc instr history r :
  generateGeminiResponse svc instr history = Normal r → r ≠ "".
Proof.
  unfold generateGeminiResponse. destruct (GEMINI_API_KEY svc); simpl; [|done].
  destruct (generateContent svc _) as [text|e]; simpl; [|done].
  destruct (String.eqb_spec text ""); intros [= <-]; done.
Qed.

(** X3.  The reply of the language model that reaches a turn is never the
    empty string (an empty answer is replaced by the apology), and without
    an API key in the environment the call fails whatever the model would
    have answered. *)
Theorem generateGeminiResponse_reply svc instr history :
  match generateGeminiResponse svc instr history with
  | Normal r =>
      GEMINI_API_KEY svc = true ∧ r ≠ "" ∧
      (generateContent svc (render_prompt instr history) = Normal r ∨
       (generateContent svc (render_prompt instr history) = Normal "" ∧
        r = "I apologize, but I could not generate a response."))
  | Throw _ =>
      GEMINI_API_KEY svc = false ∨
      ∃ e, generateContent svc (render_prompt instr history) = Throw e
  end.
Proof.
  pose proof (generateGeminiResponse_nonempty svc instr history) as Hne.
  unfold generateGeminiResponse in *. destruct (GEMINI_API_KEY svc); simpl in *; [|by left].
  destruct (generateContent svc _) as [text|e]; simpl in *; [|right; eauto].
  split; [done|]. split; [by apply Hne|].
  destruct (String.eqb_spec text ""); subst; auto.
Qed.

Lemma textToSpeech_null svc reply :
  textToSpeech svc reply = Normal None ↔ ttsClient svc = false.
Proof.
  unfold textToSpeech. destruct (ttsClient svc); simpl; [|done].
  split; [|done]. by destruct (synthesizeSpeech svc reply) as [[b|]|e].
Qed.

Lemma uploadToCloudinary_nonempty svc b callId url :
  uploadToCloudinary svc b callId = Normal url → url ≠ "".
Proof.
  unfold uploadToCloudinary. destruct (upload_stream _ _ _ _) as [e|[u|]]; try done.
  destruct (String.eqb_spec u ""); [done|]. by intros [= <-].
Qed.

(** X4.  A turn that passed the guards appends the user message and, when
    the model replied, the reply after it; it appends at most one audio
    response, whose text is that reply and whose URL is empty exactly when
    no synthesis client is configured. *)
Theorem processTranscription_appends
    svc callId transcriptionText speakerId sv l s :
  get_session callId sv = Some (l, s) →
  isProcessing s = false →
  JS.strict_eq_str speakerId (agentUserId s) = false →
  ∃ s' replies added,
    get_session callId
      (processTranscription svc callId transcriptionText speakerId sv).1
    = Some (l, s') ∧
    conversationHistory s'
    = conversationHistory s ++ user_message transcriptionText
                                 :: (assistant_message <$> replies) ∧
    audioResponses s' = audioResponses s ++ added ∧
    match generateGeminiResponse svc (instructions s)
            (conversationHistory s ++ [user_message transcriptionText]) with
    | Normal r => replies = [r]
    | Throw _ => replies = [] ∧ added = []
    end ∧
    (length added ≤ 1)%nat ∧
    ∀ a, a ∈ added →
         [text a] = replies ∧ (audioUrl a = "" ↔ ttsClient svc = false).
Proof.
  intros Hs Hp Ha. apply get_session_Some in Hs as Hs'. destruct Hs' as [Hm Hh].
  assert (∀ f, get_session callId (update l f sv) = Some (l, f s)) as Hget.
  { intros f. apply get_session_Some. split; [done|]. by apply update_lookup. }
  run_turn Hs Hp Ha. fold (user_message transcriptionText).
  destruct (generateGeminiResponse _ _ _) as [reply|e]; simpl; rewrite !update_update.
  2:{ eexists _, [], []. split; [apply Hget|]. simpl. rewrite app_nil_r.
      split; [done|]. split; [done|]. split; [done|]. split; [lia|].
      intros a Hin. by apply elem_of_nil in Hin. }
  destruct (textToSpeech svc reply) as [[audioBuffer|]|e] eqn:Etts; simpl;
    rewrite ?update_update.
  - destruct (uploadToCloudinary svc audioBuffer callId) as [url|e] eqn:Eup; simpl;
      rewrite ?update_update.
    + eexists _, [reply], [audio_entry svc reply url]. split; [apply Hget|].
      simpl. rewrite <- app_assoc.
      split; [done|]. split; [done|]. split; [done|]. split; [done|].
      intros a Hin. apply list_elem_of_singleton in Hin as ->. simpl.
      split; [done|]. split.
      * intros ->. by apply uploadToCloudinary_nonempty in Eup.
      * intros Hc. pose proof (proj2 (textToSpeech_null svc reply) Hc). congruence.
    + eexists _, [reply], []. split; [apply Hget|].
      simpl. rewrite <- app_assoc, app_nil_r.
      split; [done|]. split; [done|]. split; [done|]. split; [lia|].
      intros a Hin. by apply elem_of_nil in Hin.
  - eexists _, [reply], [audio_entry svc reply ""]. split; [apply Hget|].
    simpl. rewrite <- app_assoc.
    split; [done|]. split; [done|]. split; [done|]. split; [done|].
    intros a Hin. apply list_elem_of_singleton in Hin as ->. simpl.
    split; [done|]. split; [|done]. intros _. by apply (textToSpeech_null svc reply).
  - eexists _, [reply], []. split; [apply Hget|].
    simpl. rewrite <- app_assoc, app_nil_r.
    split; [done|]. split; [done|]. split; [done|]. split; [lia|].
    intros a Hin. by apply elem_of_nil in Hin.
Qed.

Lemma processTranscription_appends_witness :
  ∃ s',
    get_session "m1"
      (processTranscription quiet_services "m1" "hi" (JStr "user-1") one_session).1
    = Some (0%nat, s') ∧
    conversationHistory s' = [user_message "hi"; assistant_message "Hello there"] ∧
    audioUrl <$> audioResponses s' = [""].
Proof.
  destruct (processTranscription_appends quiet_services "m1" "hi" (JStr "user-1")
              one_session 0%nat (fresh_session "m1" "agent-1" "Be brief."))
    as (s' & replies & added & Hs' & Hhist & Haudio & Hreply & Hlen & Hadded);
    try reflexivity.
  exists s'. split; [exact Hs'|].
  change (replies = ["Hello there"]) in Hreply. subst replies.
  split; [exact Hhist|].
  vm_compute in Hs'. injection Hs' as <-. reflexivity.
Defined.

Lemma pt_resume_frame svc t (r : settlement t) sv :
  ∃ f, (pt_resume svc t r sv).1 = update (turn_loc t) f sv ∧
       (∀ s, same_identity s (f s)) ∧
       match (pt_resume svc t r sv).2 with
       | Suspended t' => turn_loc t' = turn_loc t
       | Returned _ => True
       end.
Proof.
  destruct t; simpl in *.
  - destruct r as [reply|e]; simpl; eexists; (split; [reflexivity|]); by repeat split.
  - destruct r as [[audioBuffer|]|e]; simpl.
    + exists (λ s, s). rewrite update_id. by repeat split.
    + rewrite update_update. eexists; (split; [reflexivity|]); by repeat split.
    + eexists; (split; [reflexivity|]); by repeat split.
  - destruct r as [url|e]; simpl.
    + rewrite update_update. eexists; (split; [reflexivity|]); by repeat split.
    + eexists; (split; [reflexivity|]); by repeat split.
Qed.

Lemma update_frame l f sv :
  (∀ s, same_identity s (f s)) →
  sessions (update l f sv) = sessions sv ∧
  length (heap (update l f sv)) = length (heap sv) ∧
  ∀ l' s, heap sv !! l' = Some s →
    ∃ s', heap (update l f sv) !! l' = Some s' ∧ same_identity s s' ∧
          (l' ≠ l → s' = s).
Proof.
  intros Hf. split; [done|]. split; [apply update_length|].
  intros l' s Hs. destruct (decide (l = l')) as [->|Hne].
  - exists (f s). rewrite (update_lookup _ _ _ _ Hs).
    split; [done|]. split; [apply Hf|]. by intros [].
  - exists s. rewrite update_lookup_ne by done.
    split; [done|]. by repeat split.
Qed.

Lemma writes_only_refl l sv : writes_only l sv sv.
Proof. split; [done|]. split; [done|]. intros l' s Hs. exists s. by repeat split. Qed.

Lemma writes_only_trans l sv1 sv2 sv3 :
  writes_only l sv1 sv2 → writes_only l sv2 sv3 → writes_only l sv1 sv3.
Proof.
  intros (Hm1 & Hl1 & Ho1) (Hm2 & Hl2 & Ho2).
  split; [congruence|]. split; [congruence|].
  intros l' s Hs. destruct (Ho1 l' s Hs) as (s2 & Hs2 & (? & ? & ?) & He2).
  destruct (Ho2 l' s2 Hs2) as (s3 & Hs3 & (? & ? & ?) & He3).
  exists s3. split; [done|]. split; [repeat split; congruence|].
  intros Hne. rewrite He3, He2; done.
Qed.

Lemma settle_frame svc l st :
  at_loc l st.2 →
  writes_only l st.1 (settle svc st).1 ∧ at_loc l (settle svc st).2.
Proof.
  destruct st as [sv [t|c]]; simpl; [|intros _; split; [apply writes_only_refl|done]].
  intros <-.
  destruct (pt_resume_frame svc t (answer svc t) sv) as (f & Hu & Hf & Hl).
  split.
  - rewrite Hu. by apply update_frame.
  - by destruct (pt_resume svc t (answer svc t) sv).2.
Qed.

Lemma processTranscription_writes_only svc callId transcriptionText speakerId sv :
  (processTranscription svc callId transcriptionText speakerId sv).1 = sv ∨
  ∃ l, sessions sv !! callId = Some l ∧
       writes_only l sv
         (processTranscription svc callId transcriptionText speakerId sv).1.
Proof.
  unfold processTranscription.
  assert ((pt_enter callId transcriptionText speakerId sv).1 = sv ∧
          (∃ c, (pt_enter callId transcriptionText speakerId sv).2 = Returned c) ∨
          ∃ l, sessions sv !! callId = Some l ∧
               writes_only l sv (pt_enter callId transcriptionText speakerId sv).1 ∧
               at_loc l (pt_enter callId transcriptionText speakerId sv).2)
    as [[Hsv [c Hc]]|(l & Hl & Hw & Hat)].
  { unfold pt_enter. destruct (get_session callId sv) as [[l s]|] eqn:Hs; [|eauto].
    destruct (isProcessing s); [eauto|].
    destruct (JS.strict_eq_str speakerId (agentUserId s)); [eauto|].
    apply get_session_Some in Hs as [Hm Hh]. right. exists l. split; [done|].
    simpl. rewrite update_update. split; [|done]. by apply update_frame. }
  - left. destruct (pt_enter callId transcriptionText speakerId sv) as [sv0 st0].
    simpl in *. by subst.
  - right. exists l. split; [done|].
    destruct (settle_frame svc l _ Hat) as [Hw1 Hat1].
    destruct (settle_frame svc l _ Hat1) as [Hw2 Hat2].
    destruct (settle_frame svc l _ Hat2) as [Hw3 _].
    eapply writes_only_trans; [exact Hw|].
    eapply writes_only_trans; [exact Hw1|].
    eapply writes_only_trans; [exact Hw2|exact Hw3].
Qed.

(** X5.  A turn never adds, removes or re-targets an entry of the session
    map, never creates a session object, and never writes to a session
    other than the one stored under its call id; of that one it leaves the
    call, the agent and the instructions as they are. *)
Theorem processTranscription_frame svc callId transcriptionText speakerId sv :
  sessions (processTranscription svc callId transcriptionText speakerId sv).1
  = sessions sv ∧
  length (heap (processTranscription svc callId transcriptionText speakerId sv).1)
  = length (heap sv) ∧
  ∀ l s, heap sv !! l = Some s →
    ∃ s', heap (processTranscription svc callId transcriptionText speakerId sv).1
            !! l = Some s' ∧
          same_identity s s' ∧
          (sessions sv !! callId ≠ Some l → s' = s).
Proof.
  destruct (processTranscription_writes_only svc callId transcriptionText speakerId sv)
    as [->|(l & Hl & Hm & Hlen & Hobj)].
  - split; [done|]. split; [done|]. intros l s Hs. exists s. by repeat split.
  - split; [done|]. split; [done|]. intros l' s Hs.
    destruct (Hobj l' s Hs) as (s' & Hs' & Hid & Hne).
    exists s'. split; [done|]. split; [done|]. intros Hneq. apply Hne. intros ->. by apply Hneq.
Qed.

(** X6.  However turns, starts and ends of sessions interleave from a
    state of rest, the flag of a session object is set exactly while an
    invocation that entered on it is suspended: no session is ever left
    locked with nothing in flight, and a new session starts unlocked. *)
Theorem no_lockout svc sy0 sy l s :
  quiescent sy0 →
  rtc (step svc) sy0 sy →
  heap sy.1 !! l = Some s →
  (isProcessing s = true ↔ in_flight l sy ≠ []).
Proof.
  intros Hq Hreach Hs.
  pose proof (single_flight_reachable _ _ _ Hreach (quiescent_single_flight _ Hq))
    as (_ & _ & Hflag).
  rewrite in_flight_elem. by apply Hflag.
Qed.

Lemma no_lockout_witness :
  ∃ s,
    heap (pt_enter "m1" "hello" (JStr "user-1") one_session).1 !! 0%nat = Some s ∧
    isProcessing s = true ∧
    in_flight 0%nat
      ((pt_enter "m1" "hello" (JStr "user-1") one_session).1,
       suspended (pt_enter "m1" "hello" (JStr "user-1") one_session).2) ≠ [].
Proof.
  eexists. split; [reflexivity|]. split; [reflexivity|].
  eapply (no_lockout upload_fails ({| sessions := ∅; heap := [] |}, [])
            ((pt_enter "m1" "hello" (JStr "user-1") one_session).1,
             suspended (pt_enter "m1" "hello" (JStr "user-1") one_session).2)
            0%nat).
  - split; [reflexivity|]. intros l s0. simpl. by rewrite lookup_nil.
  - eapply rtc_l; [apply (step_start _ "m1" "agent-1" "Be brief.")|].
    eapply rtc_l; [|apply rtc_refl].
    apply (step_invoke upload_fails "m1" "hello" (JStr "user-1") one_session []
             (pt_enter "m1" "hello" (JStr "user-1") one_session).1
             (pt_enter "m1" "hello" (JStr "user-1") one_session).2).
    reflexivity.
  - reflexivity.
  - reflexivity.
Defined.

Lemma getLatestAudioResponse_last callId sv :
  getLatestAudioResponse callId sv = audioUrl <$> last (getAudioResponses callId sv).
Proof.
  unfold getLatestAudioResponse, getAudioResponses.
  destruct (get_session callId sv) as [[l s]|]; [|done].
  rewrite last_lookup. destruct (audioResponses s) as [|a rest] eqn:E; [done|].
  simpl. by rewrite Nat.sub_0_r.
Qed.

(** X7.  [getLatestAudioResponse] answers [null] for an unknown call and
    for a session without audio responses.  After a turn that passed the
    guards and obtained a reply it answers the published URL when
    synthesis and upload succeeded, the empty string (not [null]) when no
    synthesis client is configured, and what it answered before the turn
    when synthesis or upload failed. *)
Theorem getLatestAudioResponse_after_turn
    svc callId transcriptionText speakerId sv l s reply :
  get_session callId sv = Some (l, s) →
  isProcessing s = false →
  JS.strict_eq_str speakerId (agentUserId s) = false →
  generateGeminiResponse svc (instructions s)
    (conversationHistory s ++ [user_message transcriptionText]) = Normal reply →
  (audioResponses s = [] → getLatestAudioResponse callId sv = None) ∧
  getLatestAudioResponse callId
    (processTranscription svc callId transcriptionText speakerId sv).1
  = match textToSpeech svc reply with
    | Normal None => Some ""
    | Normal (Some audioBuffer) =>
        match uploadToCloudinary svc audioBuffer callId with
        | Normal url => Some url
        | Throw _ => getLatestAudioResponse callId sv
        end
    | Throw _ => getLatestAudioResponse callId sv
    end.
Proof.
  intros Hs Hp Ha He. apply get_session_Some in Hs as Hs'. destruct Hs' as [Hm Hh].
  split.
  { intros Hnil. unfold getLatestAudioResponse. by rewrite Hs, Hnil. }
  assert (∀ f, getAudioResponses callId (update l f sv) = audioResponses (f s)) as Hget.
  { intros f. unfold getAudioResponses.
    replace (get_session callId (update l f sv)) with (Some (l, f s)); [done|].
    symmetry. apply get_session_Some. split; [done|]. by apply update_lookup. }
  assert (getAudioResponses callId sv = audioResponses s) as Hbefore.
  { unfold getAudioResponses. by rewrite Hs. }
  rewrite !getLatestAudioResponse_last, Hbefore.
  run_turn Hs Hp Ha. unfold user_message in He. rewrite He. simpl.
  destruct (textToSpeech svc reply) as [[audioBuffer|]|e]; simpl;
    rewrite ?update_update, ?Hget; simpl; rewrite ?last_snoc; try done.
  destruct (uploadToCloudinary svc audioBuffer callId) as [url|e]; simpl;
    rewrite ?update_update, ?Hget; simpl; by rewrite ?last_snoc.
Qed.

Lemma getLatestAudioResponse_after_turn_witness :
  getLatestAudioResponse "m1" one_session = None ∧
  getLatestAudioResponse "m1"
    (processTranscription quiet_services "m1" "hi" (JStr "user-1") one_session).1
  = Some "".
Proof.
  destruct (getLatestAudioResponse_after_turn quiet_services "m1" "hi" (JStr "user-1")
              one_session 0%nat (fresh_session "m1" "agent-1" "Be brief.")
              "Hello there") as [Hnone Hafter]; try reflexivity.
  split; [by apply Hnone|exact Hafter].
Defined.

(** ** Clients and credentials *)

Lemma string_pairs_ind (P : string → Prop) :
  P EmptyString →
  (∀ c, P (String c EmptyString)) →
  (∀ c c' rest, P rest → P (String c' rest) → P (String c (String c' rest))) →
  ∀ s, P s.
Proof.
  intros H0 H1 H2.
  assert (∀ s, P s ∧ ∀ c, P (String c s)) as H; [|intros s; apply H].
  induction s as [|c' rest [IH IH']]; [by split|].
  split; [apply IH'|]. intros c. by apply H2.
Qed.

Lemma has_escaped_newline_step c c' rest :
  has_escaped_newline (String c (String c' rest))
  = (Ascii.eqb c "\" && Ascii.eqb c' "n") || has_escaped_newline (String c' rest).
Proof. reflexivity. Qed.

Lemma unescape_newlines_step c c' rest :
  unescape_newlines (String c (String c' rest))
  = if Ascii.eqb c "\" && Ascii.eqb c' "n"
    then String (ascii_of_nat 10) (unescape_newlines rest)
    else String c (unescape_newlines (String c' rest)).
Proof. reflexivity. Qed.

Lemma has_escaped_newline_cons c s :
  has_escaped_newline s = false →
  (Ascii.eqb c "\" = false ∨ ∀ rest, s ≠ String "n" rest) →
  has_escaped_newline (String c s) = false.
Proof.
  intros Hs Hc. destruct s as [|c' rest]; [done|].
  rewrite has_escaped_newline_step, Hs, orb_false_r.
  destruct Hc as [->|Hc]; [done|].
  destruct (Ascii.eqb_spec c' "n") as [->|Hne]; [by destruct (Hc rest)|].
  apply andb_false_r.
Qed.

Lemma unescape_newlines_head c s rest :
  c ≠ "n"%char → unescape_newlines (String c s) ≠ String "n" rest.
Proof.
  intros Hc. destruct s as [|c' s']; [simpl; congruence|].
  rewrite unescape_newlines_step.
  destruct (Ascii.eqb c "\" && Ascii.eqb c' "n"); [discriminate|congruence].
Qed.

Lemma unescape_newlines_clean s : has_escaped_newline (unescape_newlines s) = false.
Proof.
  induction s as [|c|c c' rest IH IH'] using string_pairs_ind; [done|done|].
  rewrite unescape_newlines_step.
  destruct (Ascii.eqb c "\" && Ascii.eqb c' "n") eqn:E.
  - apply has_escaped_newline_cons; [done|]. by left.
  - apply has_escaped_newline_cons; [done|].
    destruct (Ascii.eqb c "\") eqn:Ec; [|by left]. right.
    simpl in E. destruct (Ascii.eqb_spec c' "n") as [|Hne]; [done|].
    intros r. by apply unescape_newlines_head.
Qed.

Lemma unescape_newlines_id s :
  has_escaped_newline s = false → unescape_newlines s = s.
Proof.
  induction s as [|c|c c' rest IH IH'] using string_pairs_ind; [done|done|].
  rewrite has_escaped_newline_step, unescape_newlines_step.
  intros H. apply orb_false_elim in H as [-> H]. by rewrite IH'.
Qed.

(** X8.  With the client e-mail and the private key both set, the speech
    client is constructed from them, whatever the base64 variable holds
    and whether or not it decodes; the private key it receives holds no
    escaped line feed any more, and a key without one is passed on as it
    is. *)
Theorem separate_variables_take_priority decode env email key :
  Env.GOOGLE_CLIENT_EMAIL env = Some email → email ≠ "" →
  Env.GOOGLE_PRIVATE_KEY env = Some key → key ≠ "" →
  getTTSClient decode env None
  = Normal (Some (WithCredentials (JStr email) (JStr (unescape_newlines key))
                    (Env.value (Env.GOOGLE_PROJECT_ID env)))) ∧
  has_escaped_newline (unescape_newlines key) = false ∧
  (has_escaped_newline key = false → unescape_newlines key = key).
Proof.
  intros He Hne Hk Hnk. split; [|split].
  - unfold getTTSClient, getGoogleCredentials. rewrite He, Hk. unfold Env.value.
    rewrite (truthy_id email), (truthy_id key) by done. reflexivity.
  - apply unescape_newlines_clean.
  - apply unescape_newlines_id.
Qed.

Lemma separate_variables_take_priority_witness :
  ∃ key,
    getTTSClient (λ _, Throw (Error "Unexpected token")) separate_variables None
    = Normal (Some (WithCredentials (JStr "tts@project.iam.gserviceaccount.com")
                      (JStr key) (JStr "project"))) ∧
    has_escaped_newline key = false.
Proof.
  destruct (separate_variables_take_priority (λ _, Throw (Error "Unexpected token"))
              separate_variables "tts@project.iam.gserviceaccount.com"
              "-----BEGIN-----\nMIIE\n-----END-----")
    as (Hclient & Hclean & _).
  - reflexivity.
  - discriminate.
  - reflexivity.
  - discriminate.
  - eexists. split; [exact Hclient|exact Hclean].
Defined.

(** X9.  [getTTSClient] never throws, also when the base64 credentials do
    not decode.  A client that exists is returned as it is, whatever the
    environment has become; the answer is [null] exactly when there is no
    client yet, no credentials resolve and no key file is named. *)
Theorem getTTSClient_contract decode env ttsClient :
  ∃ r, getTTSClient decode env ttsClient = Normal r ∧
       (∀ client, ttsClient = Some client → r = Some client) ∧
       (r = None ↔
        ttsClient = None ∧
        JS.truthy (getGoogleCredentials decode env) = false ∧
        JS.truthy (Env.value (Env.GOOGLE_CLOUD_KEYFILE env)) = false).
Proof.
  unfold getTTSClient. destruct ttsClient as [client|].
  { eexists. split; [done|]. split; [by intros ? [= <-]|]. split; [done|by intros []]. }
  destruct (JS.truthy (getGoogleCredentials decode env)) eqn:Hc.
  - rewrite !get_truthy by done. simpl. eexists. split; [done|].
    split; [done|]. split; [done|]. by intros (_ & ? & _).
  - destruct (Env.GOOGLE_CLOUD_KEYFILE env) as [path|]; simpl.
    + destruct (negb (String.eqb path "")); eexists; (split; [done|]);
        (split; [done|]); (split; [done|]); by intros (_ & _ & ?).
    + eexists. by repeat split.
Qed.

(** X10.  [getGeminiClient] throws exactly when neither API key variable
    is set, a cached client notwithstanding; otherwise it returns the
    cached client when there is one, built with whatever key was set when
    it was first created, and else a client for [GEMINI_API_KEY], or for
    [GOOGLE_GENAI_API_KEY] when the former is not set. *)
Theorem getGeminiClient_contract env geminiClient :
  match getGeminiClient env geminiClient with
  | Normal client =>
      match geminiClient with
      | Some cached => client = cached
      | None =>
          JStr client =
          (if JS.truthy (Env.value (Env.GEMINI_API_KEY env))
           then Env.value (Env.GEMINI_API_KEY env)
           else Env.value (Env.GOOGLE_GENAI_API_KEY env))
      end ∧
      (JS.truthy (Env.value (Env.GEMINI_API_KEY env)) = true ∨
       JS.truthy (Env.value (Env.GOOGLE_GENAI_API_KEY env)) = true)
  | Throw _ =>
      JS.truthy (Env.value (Env.GEMINI_API_KEY env)) = false ∧
      JS.truthy (Env.value (Env.GOOGLE_GENAI_API_KEY env)) = false
  end.
Proof.
  unfold getGeminiClient.
  destruct (Env.GEMINI_API_KEY env) as [k1|], (Env.GOOGLE_GENAI_API_KEY env) as [k2|];
    simpl; try done.
  all: repeat match goal with
         | |- context [String.eqb ?k ""] => destruct (String.eqb_spec k ""); subst; simpl
         end; try done.
  all: destruct geminiClient; simpl; auto.
Qed.

(** ** The endpoint *)

(** X11.  A request without signature or API key, with a signature that
    does not verify, or with a body that is not JSON is answered with
    status 400, 401 and 400 respectively, and nothing of the state is
    touched. *)
Theorem POST_rejects_before_any_change ext req w :
  missing (x_signature req) || missing (x_api_key req) = true ∨
  verifyWebhook ext (body req) (default "" (x_signature req)) = false ∨
  JSON_parse ext (body req) = None →
  (POST ext req w).2 = w ∧
  (POST ext req w).1 =
  Normal (if missing (x_signature req) || missing (x_api_key req)
          then respond_error "Missing signature or API key" 400
          else if negb (verifyWebhook ext (body req) (default "" (x_signature req)))
          then respond_error "Invalid signature" 401
          else respond_error "Invalid JSON" 400).
Proof.
  intros H. unfold POST.
  destruct (missing (x_signature req) || missing (x_api_key req)); [done|].
  destruct (verifyWebhook ext (body req) (default "" (x_signature req))); [|done].
  destruct H as [H|[H|H]]; try done. by rewrite H.
Qed.

Lemma POST_rejects_before_any_change_witness :
  POST (delivering unknown_event)
    {| x_signature := Some ""; x_api_key := Some "key"; body := "event" |}
    caption_came_first
  = (Normal (respond_error "Missing signature or API key" 400), caption_came_first).
Proof.
  destruct (POST_rejects_before_any_change (delivering unknown_event)
              {| x_signature := Some ""; x_api_key := Some "key"; body := "event" |}
              caption_came_first) as [Hw Hr].
  - by left.
  - by destruct (POST _ _ _) as [r w']; simpl in *; subst.
Defined.

(** X12.  A [call.session_participant_left] event never changes anything:
    the session stays, whatever the payload.  With a call cid that is a
    string the event is acknowledged when the cid carries an id after the
    colon and answered with 400 when it does not; with a call cid that is
    missing or no string the handler fails with a TypeError and gives no
    answer of its own. *)
Theorem participant_left_keeps_session ext req payload w :
  delivers ext req payload →
  event_type payload "call.session_participant_left" →
  (POST ext req w).2 = w ∧
  match field payload "call_cid" with
  | JStr cid =>
      (POST ext req w).1 =
      Normal (match JS.split ":" cid !! 1%nat with
              | Some (String c rest) => respond_status "ok"
              | _ => missing_id
              end)
  | _ => ∃ msg, (POST ext req w).1 = Throw (TypeError msg)
  end.
Proof.
  intros Hd Hty.
  assert (∃ props, payload = JObj props) as [props ->].
  { unfold event_type in Hty. destruct payload; try discriminate. eauto. }
  rewrite (POST_delivers _ _ _ _ Hd), (dispatch_type _ _ _ Hty). simpl.
  unfold session_participant_left, acknowledge, bind, lift, ret. simpl.
  split.
  - destruct (split_1 (JS.assoc "call_cid" props)) as [v|e]; simpl; [|done].
    by destruct (JS.truthy v).
  - destruct (JS.assoc "call_cid" props) as [| |b|n|cid|xs|ps]; simpl; eauto.
    by destruct (JS.split ":" cid !! 1%nat) as [[|c rest]|].
Qed.

Lemma participant_left_keeps_session_witness :
  POST (delivering participant_left_event) signed_request caption_came_first
  = (Normal (respond_status "ok"), caption_came_first).
Proof.
  destruct (participant_left_keeps_session
              (delivering participant_left_event)
              signed_request participant_left_event caption_came_first) as [Hw Hr].
  - by repeat split.
  - reflexivity.
  - destruct (POST _ _ _) as [r w']. simpl in Hw, Hr. by subst.
Defined.

(** X13.  The id a caption event is attributed to is a string or nothing,
    never a value of another type; and the speaker of a caption always
    resolves, to the first of [user.id], [closed_caption.user_id] and
    [speaker_id] that is set and else to ['user']. *)
Theorem caption_fields props :
  (∀ v, caption_meetingId (JObj props) = Normal v →
        v = JUndefined ∨ ∃ id, v = JStr id) ∧
  ∃ speakerId,
    caption_speakerId (JObj props) = Normal speakerId ∧
    JS.truthy speakerId = true ∧
    speakerId =
    first_set [field (JS.assoc "user" props) "id";
               field (JS.assoc "closed_caption" props) "user_id";
               JS.assoc "speaker_id" props; JStr "user"].
Proof.
  split.
  - assert (∀ x v, opt_split_1 x = Normal v → v = JUndefined ∨ ∃ id, v = JStr id)
      as Hsplit.
    { intros x v. destruct x; simpl; try done; try (intros [= <-]; by left).
      destruct (JS.split ":" s !! 1%nat); intros [= <-]; eauto. }
    intros v. unfold caption_meetingId. simpl.
    destruct (opt_split_1 (JS.assoc "call_cid" props)) as [a|e] eqn:Ea; simpl; [|done].
    unfold JS.or_else. destruct (JS.truthy a).
    + intros [= <-]. by eapply Hsplit.
    + destruct (JS.get (JS.assoc "call" props) "cid") as [c|e] eqn:Ec.
      * intros H. apply (Hsplit (match JS.assoc "call" props with
                                 | JUndefined | JNull => JUndefined
                                 | _ => c end)).
        revert H. unfold opt_get.
        destruct (JS.assoc "call" props); simpl in *; try done;
          injection Ec as <-; done.
      * destruct (JS.assoc "call" props); simpl in *; try done.
        all: intros [= <-]; by left.
  - unfold caption_speakerId, first_set. simpl.
    assert (∀ x k, opt_get x k = Normal (field x k)) as Hopt by (by intros []).
    rewrite !Hopt. simpl. unfold JS.or_else.
    destruct (JS.truthy (field (JS.assoc "user" props) "id")) eqn:E1; simpl;
      rewrite ?E1; simpl; rewrite ?E1; [by eauto|].
    destruct (JS.truthy (field (JS.assoc "closed_caption" props) "user_id")) eqn:E2;
      simpl; rewrite ?E2; simpl; rewrite ?E2; [by eauto|].
    destruct (JS.truthy (JS.assoc "speaker_id" props)) eqn:E3; simpl;
      rewrite ?E3; by eauto.
Qed.

(** ** What events leave alone *)

Section Frame.
Context (ext : external) (R : relation world) `{!PreOrder R}.

Hypothesis R_turn : ∀ callId transcriptionText speakerId,
  hoare R (λ _, True) (await_processTranscription ext callId transcriptionText speakerId).
Hypothesis R_ensure : ∀ id,
  hoare R (λ _, True) (ensureGeminiSessionForMeeting ext id).
Hypothesis R_transcriptUrl : ∀ url id,
  hoare R (λ _, True) (update_meeting (set_transcriptUrl url) id).
Hypothesis R_recordingUrl : ∀ url id,
  hoare R (λ _, True) (update_meeting (set_recordingUrl url) id).

Lemma frame_forward_line id line :
  hoare R (λ _, True) (forward_line ext id line).
Proof.
  unfold forward_line. hoare_catch.
  destruct (JSON_parse ext line) as [item|]; [|apply hoare_throw; apply _].
  eapply (hoare_bind _ (λ _, True)); try apply _;
    [eapply hoare_lift; try apply _; done|]. intros t _.
  destruct (negb (JS.truthy t)); [hoare_return|].
  hoare_read. destruct (negb _); [hoare_return|].
  destruct t; try (apply hoare_throw; apply _); apply R_turn.
Qed.

Lemma frame_set_value v : hoare R (λ _, True) (set_value v).
Proof. destruct v; first [hoare_return | apply hoare_throw; apply _]. Qed.

Lemma frame_for_each {A} (f : A → M unit) xs :
  (∀ x, hoare R (λ _, True) (f x)) → hoare R (λ _, True) (for_each f xs).
Proof.
  intros Hf. induction xs as [|x xs IH]; simpl; [hoare_return|].
  eapply hoare_bind; try apply _; [apply Hf|]. by intros.
Qed.

Lemma frame_participant_left payload :
  hoare R (λ _, True) (session_participant_left payload).
Proof.
  unfold session_participant_left. hoare_read. hoare_read.
  destruct (negb _); hoare_return.
Qed.

Lemma frame_transcription_ready payload :
  hoare R (λ _, True) (transcription_ready ext payload).
Proof.
  unfold transcription_ready. do 4 hoare_read.
  eapply (hoare_bind _ (λ _, True)); try apply _; [apply frame_set_value|].
  intros _ _.
  hoare_db. hoare_seq R_transcriptUrl. hoare_state.
  destruct (find _ _) as [[id m]|]; [|hoare_return].
  eapply (hoare_bind _ (λ _, True)); try apply _;
    [apply hoare_gets; try apply _; done|]. intros has _.
  eapply (hoare_bind _ (λ _, True)); try apply _.
  { destruct has; [|hoare_return]. hoare_catch. hoare_read.
    apply frame_for_each. intros line. apply frame_forward_line. }
  intros _ _.
  eapply (hoare_bind _ (λ _, True)); try apply _.
  { destruct (inngest_send ext); [hoare_return|apply hoare_throw; apply _]. }
  intros _ _. hoare_return.
Qed.

Lemma frame_recording_ready payload :
  hoare R (λ _, True) (recording_ready ext payload).
Proof.
  unfold recording_ready. do 4 hoare_read.
  eapply (hoare_bind _ (λ _, True)); try apply _; [apply frame_set_value|].
  intros _ _.
  hoare_db. hoare_seq R_recordingUrl. hoare_return.
Qed.

Lemma frame_closed_caption payload :
  hoare R (λ _, True) (closed_caption ext payload).
Proof.
  unfold closed_caption. hoare_catch.
  eapply (hoare_bind _ (λ _, True)); try apply _;
    [eapply hoare_lift; try apply _; done|]. intros meetingId _.
  destruct (negb (JS.truthy meetingId)); [hoare_return|].
  destruct meetingId; try hoare_return.
  eapply (hoare_bind _ (λ _, True)); try apply _; [apply R_ensure|].
  intros ready _. destruct (negb ready); [hoare_return|].
  hoare_read.
  destruct (extractCaptionText _ payload) as [text|]; [|hoare_return].
  destruct (_ || _); [hoare_return|].
  hoare_seq R_turn. hoare_return.
Qed.

Lemma frame_captions_started payload :
  hoare R (λ _, True) (captions_started ext payload).
Proof.
  unfold captions_started. hoare_catch.
  eapply (hoare_bind _ (λ _, True)); try apply _;
    [eapply hoare_lift; try apply _; done|]. intros meetingId _.
  destruct (negb (JS.truthy meetingId)); [hoare_return|].
  destruct meetingId; try hoare_return.
  hoare_seq R_ensure. hoare_return.
Qed.

(** The branches of the start and of the end of a call are left to the
    caller; all others follow from the four rules above. *)
Lemma frame_dispatch payload :
  (event_type payload "call.session_started" →
   hoare R (λ _, True) (session_started ext payload)) →
  (event_type payload "call.session_ended" →
   hoare R (λ _, True) (session_ended ext payload)) →
  hoare R (λ _, True) (dispatch ext payload).
Proof.
  intros Hstart Hend.
  destruct (dispatch_cases ext payload)
    as [[Hty ->]|[[Hty ->]|[[Hty ->]|[[Hty ->]|[[Hty ->]|[_ [-> |[-> | ->]]]]]]]].
  - by apply Hstart.
  - apply frame_participant_left.
  - by apply Hend.
  - apply frame_transcription_ready.
  - apply frame_recording_ready.
  - apply frame_closed_caption.
  - apply frame_captions_started.
  - hoare_return.
Qed.

Lemma frame_POST req w :
  (∀ payload, delivers ext req payload →
     event_type payload "call.session_started" →
     hoare R (λ _, True) (session_started ext payload)) →
  (∀ payload, delivers ext req payload →
     event_type payload "call.session_ended" →
     hoare R (λ _, True) (session_ended ext payload)) →
  R w (POST ext req w).2.
Proof.
  intros Hstart Hend. unfold POST.
  destruct (missing (x_signature req)) eqn:Hs; simpl; [reflexivity|].
  destruct (missing (x_api_key req)) eqn:Hk; simpl; [reflexivity|].
  destruct (verifyWebhook _ _ _) eqn:Hv; simpl; [|reflexivity].
  destruct (JSON_parse ext (body req)) as [payload|] eqn:Hp; [|reflexivity].
  assert (delivers ext req payload) as Hd by done.
  apply (hoare_frame (A := response) R (λ _, True)).
  eapply hoare_bind; try apply _.
  - apply frame_dispatch; [by apply Hstart|by apply Hend].
  - intros [r|] _; hoare_return.
Qed.

End Frame.

Section Lifecycle.
Context (ext : external) (R : relation world) `{!PreOrder R}.

Hypothesis R_startSession : ∀ id agentId instr,
  hoare R (λ _, True) (modify (on_voice (startSession id agentId instr))).
Hypothesis R_endSession : ∀ meetingId,
  hoare R (λ _, True) (await_endSession meetingId).
Hypothesis R_activate : ∀ id,
  hoare R (λ _, True) (update_meeting (activate ext) id).
Hypothesis R_finish : ∀ id,
  hoare R (λ _, True) (update_meeting (finish ext) id).

Lemma frame_upsert site : hoare R (λ _, True) (upsert ext site).
Proof.
  unfold upsert. destruct (upsertUsers ext site);
    [hoare_return|apply hoare_throw; apply _].
Qed.

Lemma frame_session_started payload :
  hoare R (λ _, True) (session_started ext payload).
Proof.
  unfold session_started. hoare_read.
  destruct (negb _); [hoare_return|].
  hoare_db. hoare_state.
  destruct (find _ _) as [[id m]|]; [|hoare_return].
  hoare_db. hoare_seq R_activate. hoare_db. hoare_state.
  destruct (_ !! _) as [existingAgent|]; [|hoare_return].
  eapply (hoare_bind _ (λ _, True)); try apply _; [|intros; hoare_return].
  hoare_catch.
  eapply (hoare_bind _ (λ _, True)); try apply _.
  { apply hoare_try_catch; try apply _; [|intros ?]; apply frame_upsert. }
  intros _ _.
  eapply (hoare_bind _ (λ _, True)); try apply _; [|intros; apply R_startSession].
  destruct (OPENAI_API_KEY ext); [|hoare_return].
  hoare_catch. destruct (connectOpenAi ext); [hoare_return|apply hoare_throw; apply _].
Qed.

Lemma frame_session_ended payload :
  hoare R (λ _, True) (session_ended ext payload).
Proof.
  unfold session_ended.
  eapply (hoare_bind _ (λ _, True)); try apply _;
    [eapply hoare_lift; try apply _; done|]. intros meetingId _.
  destruct (negb _); [hoare_return|].
  hoare_seq R_endSession. hoare_db. hoare_seq R_finish. hoare_return.
Qed.

End Lifecycle.

Lemma hoare_weaken {A} (R R' : relation world) (Q : A → Prop) m :
  (∀ w w', R w w' → R' w w') → hoare R Q m → hoare R' Q m.
Proof. intros HR [Hf Hp]. split; [|done]. intros w. apply HR, Hf. Qed.

#[local] Instance same_but_urls_preorder : PreOrder same_but_urls.
Proof.
  split.
  - by intros m.
  - intros m1 m2 m3 (?&?&?&?) (?&?&?&?). repeat split; congruence.
Qed.

#[local] Instance passive_change_preorder : PreOrder passive_change.
Proof.
  split.
  - intros w. split; [reflexivity|]. split; [done|]. intros k. reflexivity.
  - intros w1 w2 w3 (Hk&Ha&Hm) (Hk'&Ha'&Hm').
    split; [etrans; [exact Hk|exact Hk']|].
    split; [congruence|]. intros k. etrans; [apply Hm|apply Hm'].
Qed.

#[local] Instance same_catalogue_preorder : PreOrder same_catalogue.
Proof.
  split.
  - by intros w.
  - intros w1 w2 w3 [Ha Hm] [Ha' Hm']. split; [congruence|].
    intros k. by rewrite Hm', Hm.
Qed.

#[local] Instance keeps_open_preorder : PreOrder keeps_open.
Proof.
  split.
  - by intros w k.
  - intros w1 w2 w3 H12 H23 k Hk. by apply H23, H12.
Qed.

Lemma passive_catalogue w w' : passive_change w w' → same_catalogue w w'.
Proof.
  intros (_ & Ha & Hm). split; [done|]. intros k.
  destruct (Hm k) as [m m' (Hagent & _)|]; simpl; [by rewrite Hagent|done].
Qed.

Lemma keeps_same_voice w w' : voice w' = voice w → keeps w w'.
Proof. unfold keeps. intros ->. reflexivity. Qed.

Lemma passive_on_voice w w' :
  keeps w w' → meetings w' = meetings w → agents w' = agents w →
  passive_change w w'.
Proof.
  intros Hk Hm Ha. split; [done|]. split; [done|]. intros k. rewrite Hm. reflexivity.
Qed.

Lemma passive_turn ext callId transcriptionText speakerId :
  hoare passive_change (λ _, True)
    (await_processTranscription ext callId transcriptionText speakerId).
Proof.
  split; [|done]. intros w. apply passive_on_voice.
  - apply (hoare_frame _ _ _ (hoare_await_processTranscription ext callId
                                transcriptionText speakerId)).
  - unfold await_processTranscription. by destruct (processTranscription _ _ _ _ _).
  - unfold await_processTranscription. by destruct (processTranscription _ _ _ _ _).
Qed.

Lemma ensure_on_voice ext id w :
  meetings (ensureGeminiSessionForMeeting ext id w).2 = meetings w ∧
  agents (ensureGeminiSessionForMeeting ext id w).2 = agents w.
Proof.
  unfold ensureGeminiSessionForMeeting, try_catch, bind, gets, db_statement, ret,
    throw, modify, upsert.
  destruct (hasSession id (voice w)); simpl; [done|].
  destruct (db_fault ext EnsureSelectMeeting); simpl; [done|].
  destruct (meetings w !! id) as [m|]; simpl; [|done].
  destruct (db_fault ext EnsureSelectAgent); simpl; [done|].
  destruct (agents w !! agentId m) as [a|]; simpl; [|done].
  by destruct (upsertUsers ext UpsertEnsure).
Qed.

Lemma passive_ensure ext id :
  hoare passive_change (λ _, True) (ensureGeminiSessionForMeeting ext id).
Proof.
  split; [|done]. intros w. apply passive_on_voice.
  - apply (hoare_frame _ _ _ (hoare_ensure ext id)).
  - apply ensure_on_voice.
  - apply ensure_on_voice.
Qed.

Lemma passive_update_meeting f id :
  (∀ m, same_but_urls m (f m)) →
  hoare passive_change (λ _, True) (update_meeting f id).
Proof.
  intros Hf. unfold update_meeting.
  destruct id; try (apply hoare_ret; [apply _|done]).
  apply hoare_modify. intros w. split; [by apply keeps_same_voice|].
  split; [done|]. intros k. simpl. rewrite lookup_alter.
  case_decide as Hk; [subst k|reflexivity].
  destruct (meetings w !! s) as [m|]; simpl; constructor. apply Hf.
Qed.

Lemma passive_POST ext req w :
  (∀ payload, delivers ext req payload →
     ¬ event_type payload "call.session_started" ∧
     ¬ event_type payload "call.session_ended") →
  passive_change w (POST ext req w).2.
Proof.
  intros Hpassive. apply frame_POST; try apply _.
  - apply passive_turn.
  - apply passive_ensure.
  - intros url id. by apply passive_update_meeting.
  - intros url id. by apply passive_update_meeting.
  - intros payload Hd Hty. by destruct (Hpassive payload Hd).
  - intros payload Hd Hty. by destruct (Hpassive payload Hd).
Qed.

(** X14.  An event other than the start and the end of a call keeps every
    session, as the same object and with a history that has only grown,
    leaves the agents alone and changes of a meeting at most the URLs of
    its transcript and recording: status, agent and timestamps stay, and
    no row appears or disappears.  This holds whether the request is
    answered or fails. *)
Theorem passive_events_frame ext req w :
  (∀ payload, delivers ext req payload →
     ¬ event_type payload "call.session_started" ∧
     ¬ event_type payload "call.session_ended") →
  (∀ k l s, get_session k (voice w) = Some (l, s) →
     ∃ s', get_session k (voice (POST ext req w).2) = Some (l, s') ∧
           conversationHistory s `prefix_of` conversationHistory s') ∧
  agents (POST ext req w).2 = agents w ∧
  (∀ k, meetings w !! k = None → meetings (POST ext req w).2 !! k = None) ∧
  (∀ k m, meetings w !! k = Some m →
     ∃ m', meetings (POST ext req w).2 !! k = Some m' ∧
           agentId m' = agentId m ∧ status m' = status m ∧
           startedAt m' = startedAt m ∧ endedAt m' = endedAt m).
Proof.
  intros Hpassive.
  destruct (passive_POST ext req w Hpassive) as (Hk & Ha & Hm).
  split; [exact Hk|]. split; [done|]. split.
  - intros k Hnone. specialize (Hm k). rewrite Hnone in Hm. by inversion Hm.
  - intros k m Hsome. specialize (Hm k). rewrite Hsome in Hm.
    inversion Hm as [? m' Hrow|]; subst. by exists m'.
Qed.

Lemma passive_events_frame_witness :
  status <$> meetings (POST (delivering recording_ready_m1) signed_request
                         caption_came_first).2 !! "m1" = Some upcoming.
Proof.
  destruct (passive_events_frame (delivering recording_ready_m1) signed_request
              caption_came_first) as (_ & _ & _ & Hrow).
  - intros payload (_ & _ & _ & [= <-]). by split.
  - destruct (Hrow "m1" _ eq_refl) as (m' & Hm' & _ & Hstatus & _).
    rewrite Hm'. simpl. by rewrite Hstatus.
Defined.

Lemma catalogue_update_meeting f id :
  (∀ m, agentId (f m) = agentId m) →
  hoare same_catalogue (λ _, True) (update_meeting f id).
Proof.
  intros Hf. unfold update_meeting.
  destruct id; try (apply hoare_ret; [apply _|done]).
  apply hoare_modify. intros w. split; [done|]. intros k. simpl.
  rewrite lookup_alter. case_decide as Hk; [subst k|done].
  destruct (meetings w !! s) as [m|]; simpl; [by rewrite Hf|done].
Qed.

Lemma catalogue_on_voice f :
  hoare same_catalogue (λ _, True) (modify (on_voice f)).
Proof. by apply hoare_modify. Qed.

(** X15.  No event ever writes the agents, inserts or deletes a meeting,
    or changes the agent a meeting belongs to, whatever the request and
    whether it is answered or fails. *)
Theorem POST_keeps_catalogue ext req w :
  agents (POST ext req w).2 = agents w ∧
  ∀ k, agentId <$> meetings (POST ext req w).2 !! k = agentId <$> meetings w !! k.
Proof.
  change (same_catalogue w (POST ext req w).2).
  apply frame_POST; try apply _.
  - intros. eapply hoare_weaken; [apply passive_catalogue|apply passive_turn].
  - intros. eapply hoare_weaken; [apply passive_catalogue|apply passive_ensure].
  - intros. by apply catalogue_update_meeting.
  - intros. by apply catalogue_update_meeting.
  - intros payload _ _. apply frame_session_started; try apply _.
    + intros. apply catalogue_on_voice.
    + intros. by apply catalogue_update_meeting.
  - intros payload _ _. apply frame_session_ended; try apply _.
    + intros [] ; try (apply hoare_ret; [apply _|done]). apply catalogue_on_voice.
    + intros. apply catalogue_update_meeting. intros m. unfold finish.
      by case_bool_decide.
Qed.

Lemma open_same_sessions w w' :
  sessions (voice w') = sessions (voice w) → keeps_open w w'.
Proof. intros Hs k. unfold hasSession. by rewrite Hs. Qed.

Lemma open_turn ext callId transcriptionText speakerId :
  hoare keeps_open (λ _, True)
    (await_processTranscription ext callId transcriptionText speakerId).
Proof.
  split; [|done]. intros w. apply open_same_sessions.
  unfold await_processTranscription.
  pose proof (processTranscription_writes_only (svc ext) callId transcriptionText
                speakerId (voice w)) as H.
  destruct (processTranscription _ _ _ _ _) as [sv st]. simpl in *.
  destruct H as [->|(l & _ & Hs & _)]; done.
Qed.

Lemma open_startSession id agentId instr :
  hoare keeps_open (λ _, True) (modify (on_voice (startSession id agentId instr))).
Proof.
  apply hoare_modify. intros w k. unfold hasSession. simpl.
  rewrite !bool_decide_eq_true. intros Hk.
  destruct (decide (id = k)) as [->|Hne].
  - rewrite lookup_insert_eq. eauto.
  - by rewrite lookup_insert_ne.
Qed.

Lemma open_ensure ext id :
  hoare keeps_open (λ _, True) (ensureGeminiSessionForMeeting ext id).
Proof.
  split; [|done]. intros w.
  unfold ensureGeminiSessionForMeeting, try_catch, bind, gets, db_statement, ret,
    throw, modify, upsert.
  destruct (hasSession id (voice w)); simpl; [reflexivity|].
  destruct (db_fault ext EnsureSelectMeeting); simpl; [reflexivity|].
  destruct (meetings w !! id) as [m|]; simpl; [|reflexivity].
  destruct (db_fault ext EnsureSelectAgent); simpl; [reflexivity|].
  destruct (agents w !! agentId m) as [a|]; simpl; [|reflexivity].
  destruct (upsertUsers ext UpsertEnsure); simpl;
    apply (hoare_frame _ _ _ (open_startSession id (agentId m) (agent_instructions a)) w).
Qed.

Lemma open_update_meeting f id :
  hoare keeps_open (λ _, True) (update_meeting f id).
Proof.
  unfold update_meeting. destruct id; try (apply hoare_ret; [apply _|done]).
  apply hoare_modify. intros w. by apply open_same_sessions.
Qed.

(** X16.  Only the end of a call removes a session: after any other
    event, every id that had a session still has one, whether the request
    is answered or fails. *)
Theorem sessions_end_only_on_session_ended ext req w k :
  (∀ payload, delivers ext req payload →
     ¬ event_type payload "call.session_ended") →
  hasSession k (voice w) = true →
  hasSession k (voice (POST ext req w).2) = true.
Proof.
  intros Hnot. revert k. change (keeps_open w (POST ext req w).2).
  apply frame_POST; try apply _.
  - apply open_turn.
  - apply open_ensure.
  - intros. apply open_update_meeting.
  - intros. apply open_update_meeting.
  - intros payload _ _. apply frame_session_started; try apply _.
    + apply open_startSession.
    + intros. apply open_update_meeting.
  - intros payload Hd Hty. by destruct (Hnot payload Hd).
Qed.

Lemma sessions_end_only_on_session_ended_witness :
  hasSession "m1" (voice (POST (delivering session_started_m1) signed_request
                            caption_came_first).2) = true.
Proof.
  apply (sessions_end_only_on_session_ended (delivering session_started_m1)
           signed_request caption_came_first "m1").
  - intros payload (_ & _ & _ & [= <-]). discriminate.
  - reflexivity.
Defined.

(** ** Handlers *)

(** X17.  [ensureGeminiSessionForMeeting] never throws.  It answers true
    exactly when the meeting has a session afterwards; with a session
    already there it answers true without reading the database and
    changes nothing; when it answers false it has changed nothing; and a
    session it creates is a fresh one, for the agent of the meeting's row
    and with that agent's instructions. *)
Theorem ensureGeminiSessionForMeeting_contract ext id w :
  ∃ ready,
    (ensureGeminiSessionForMeeting ext id w).1 = Normal ready ∧
    (ready = true ↔
     hasSession id (voice (ensureGeminiSessionForMeeting ext id w).2) = true) ∧
    (hasSession id (voice w) = true →
     ready = true ∧ (ensureGeminiSessionForMeeting ext id w).2 = w) ∧
    (ready = false → (ensureGeminiSessionForMeeting ext id w).2 = w) ∧
    (hasSession id (voice w) = false → ready = true →
     ∃ m a, meetings w !! id = Some m ∧ agents w !! agentId m = Some a ∧
            get_session id (voice (ensureGeminiSessionForMeeting ext id w).2)
            = Some (length (heap (voice w)),
                    fresh_session id (agentId m) (agent_instructions a))).
Proof.
  unfold ensureGeminiSessionForMeeting, try_catch, bind, gets, db_statement, ret,
    throw, modify, upsert.
  destruct (hasSession id (voice w)) eqn:Hhas; simpl.
  { exists true. by rewrite Hhas. }
  assert (∀ ready' : bool, ready' = false →
            (ready' = true ↔ hasSession id (voice w) = true)) as Hno.
  { intros ? ->. by rewrite Hhas. }
  destruct (db_fault ext EnsureSelectMeeting); simpl.
  { exists false. by rewrite Hhas. }
  destruct (meetings w !! id) as [m|]; simpl.
  2:{ exists false. by rewrite Hhas. }
  destruct (db_fault ext EnsureSelectAgent); simpl.
  { exists false. by rewrite Hhas. }
  destruct (agents w !! agentId m) as [a|] eqn:Ha; simpl.
  2:{ exists false. by rewrite Hhas. }
  assert (hasSession id (startSession id (agentId m) (agent_instructions a) (voice w))
          = true) as Hnow.
  { apply bool_decide_eq_true. unfold startSession. simpl.
    rewrite lookup_insert_eq. eauto. }
  exists true.
  destruct (upsertUsers ext UpsertEnsure); simpl; rewrite Hnow;
    (split; [done|]); (split; [done|]); (split; [done|]); (split; [done|]);
    intros _ _; exists m, a; (split; [done|]); (split; [exact Ha|]);
    apply get_session_startSession.
Qed.

(** X18.  A caption event ([closed_caption], [closed_captions_started],
    [transcription_started]) that names no call is answered with
    [ignored], and nothing is looked up or changed. *)
Theorem caption_without_call_is_ignored ext req payload w v :
  delivers ext req payload →
  event_type payload "call.closed_caption" ∨
  event_type payload "call.closed_captions_started" ∨
  event_type payload "call.transcription_started" →
  caption_meetingId payload = Normal v →
  JS.truthy v = false →
  POST ext req w = (Normal (respond_status "ignored"), w).
Proof.
  intros Hd Hty Hid Hv. rewrite (POST_delivers _ _ _ _ Hd).
  assert (dispatch ext payload = closed_caption ext payload ∨
          dispatch ext payload = captions_started ext payload) as [-> | ->].
  { destruct Hty as [Hty|[Hty|Hty]]; rewrite (dispatch_type _ _ _ Hty); auto. }
  - unfold closed_caption, try_catch, bind, lift. by rewrite Hid, Hv.
  - unfold captions_started, try_catch, bind, lift. by rewrite Hid, Hv.
Qed.

Lemma caption_without_call_is_ignored_witness :
  POST (delivering captions_started_nowhere) signed_request caption_came_first
  = (Normal (respond_status "ignored"), caption_came_first).
Proof.
  apply (caption_without_call_is_ignored (delivering captions_started_nowhere)
           signed_request captions_started_nowhere caption_came_first JUndefined).
  - by repeat split.
  - right. by left.
  - reflexivity.
  - reflexivity.
Defined.


Lemma endSession_twice k sv : endSession k (endSession k sv) = endSession k sv.
Proof.
  unfold endSession. simpl. f_equal. apply map_eq. intros k'.
  destruct (decide (k = k')) as [->|Hne].
  - by rewrite !lookup_delete_eq.
  - by rewrite !lookup_delete_ne.
Qed.

Lemma finish_after_finish ext1 ext2 m :
  finish ext2 (finish ext1 m) = finish ext1 m.
Proof.
  unfold finish. destruct (bool_decide (status m = active)) eqn:E; simpl; [done|].
  by rewrite E.
Qed.

Lemma alter_after_alter {A} (f g : A → A) k (ms : gmap string A) :
  (∀ a, g (f a) = f a) → alter g k (alter f k ms) = alter f k ms.
Proof.
  intros Hf. apply map_eq. intros k'.
  destruct (decide (k = k')) as [->|Hne].
  - rewrite !lookup_alter_eq. destruct (ms !! k'); simpl; [by rewrite Hf|done].
  - by rewrite !lookup_alter_ne.
Qed.

(** X20.  A [call.session_ended] event that carries its meeting id as a
    string and is delivered again, in whatever state the collaborators
    then are, never undoes anything: its
    answer is the one a first delivery would get then; after a delivery
    that was acknowledged it changes nothing more; and after a delivery
    that failed it leaves the state a first delivery would have left, so
    that a status update the database refused the first time is made up
    for. *)
Theorem session_ended_twice ext1 ext2 req payload w :
  delivers ext1 req payload →
  delivers ext2 req payload →
  event_type payload "call.session_ended" →
  string_meetingId payload →
  (POST ext2 req (POST ext1 req w).2).1 = (POST ext2 req w).1 ∧
  (∀ resp, (POST ext1 req w).1 = Normal resp →
           (POST ext2 req (POST ext1 req w).2).2 = (POST ext1 req w).2) ∧
  (∀ e, (POST ext1 req w).1 = Throw e →
        POST ext2 req (POST ext1 req w).2 = POST ext2 req w).
Proof.
  intros Hd1 Hd2 Hty Hstring.
  rewrite !(POST_delivers _ _ _ _ Hd1), !(POST_delivers _ _ _ _ Hd2),
    !(dispatch_type _ _ _ Hty).
  simpl. unfold acknowledge. simpl.
  unfold session_ended, bind, lift, db_statement, ret, throw, await_endSession,
    update_meeting, modify.
  destruct (custom_meetingId payload) as [meetingId|e] eqn:Hid; [|done].
  destruct (JS.truthy meetingId) eqn:Htruthy; simpl; [|done].
  destruct (Hstring _ Hid Htruthy) as [k ->]. simpl.
  destruct (db_fault ext1 EndedUpdateStatus); simpl;
    destruct (db_fault ext2 EndedUpdateStatus); simpl;
    try done; unfold on_meetings, on_voice; simpl;
    rewrite ?endSession_twice, ?alter_after_alter;
    try done; try apply finish_after_finish.
Qed.

Lemma session_ended_twice_witness :
  status <$> meetings (POST (database_down session_ended_m1) signed_request
                         call_in_progress).2 !! "m1" = Some active ∧
  status <$> meetings
    (POST (delivering session_ended_m1) signed_request
       (POST (database_down session_ended_m1) signed_request call_in_progress).2).2
    !! "m1" = Some processing.
Proof.
  destruct (session_ended_twice (database_down session_ended_m1)
              (delivering session_ended_m1) signed_request session_ended_m1
              call_in_progress) as (_ & _ & Hmade_up).
  - by repeat split.
  - by repeat split.
  - reflexivity.
  - intros v [= <-] _. by eexists.
  - split; [reflexivity|].
    rewrite (Hmade_up (Error "database error")); reflexivity.
Defined.

#[local] Instance same_meetings_preorder :
  PreOrder (λ w w' : world, meetings w' = meetings w).
Proof. split; [done|]. intros w1 w2 w3 H12 H23. congruence. Qed.









(** X26.  An asset event whose transcript or recording carries no URL is
    refused before the database is reached: the request fails with the
    error of the query builder and changes nothing, whether or not the
    meeting exists. *)
Theorem asset_without_url_is_refused ext req payload w cid :
  delivers ext req payload →
  field payload "call_cid" = JStr cid →
  (event_type payload "call.recording_ready" →
   JS.get (field payload "call_recording") "url" = Normal JUndefined →
   POST ext req w = (Throw (Error "No values to set"), w)) ∧
  (event_type payload "call.transcription_ready" →
   JS.get (field payload "call_transcription") "url" = Normal JUndefined →
   POST ext req w = (Throw (Error "No values to set"), w)).
Proof.
  intros Hd Hcid.
  assert (∃ props, payload = JObj props) as [props ->].
  { destruct payload; try discriminate. eauto. }
  simpl in Hcid. rewrite (POST_delivers _ _ _ _ Hd).
  split; intros Hty Hurl; simpl in Hurl; rewrite (dispatch_type _ _ _ Hty); simpl.
  - unfold recording_ready, bind, lift. simpl. rewrite Hcid. simpl. by rewrite Hurl.
  - unfold transcription_ready, bind, lift. simpl. rewrite Hcid. simpl.
    by rewrite Hurl.
Qed.

Lemma asset_without_url_is_refused_witness :
  POST (delivering recording_without_url) signed_request caption_came_first
  = (Throw (Error "No values to set"), caption_came_first).
Proof.
  destruct (asset_without_url_is_refused (delivering recording_without_url)
              signed_request recording_without_url caption_came_first "default:m1")
    as [Hrec _].
  - by repeat split.
  - reflexivity.
  - by apply Hrec.
Defined.

Lemma processTranscription_blocked svc callId transcriptionText speakerId sv :
  (get_session callId sv = None ∨
   ∃ l s, get_session callId sv = Some (l, s) ∧
          (isProcessing s = true ∨ JS.strict_eq_str speakerId (agentUserId s) = true)) →
  processTranscription svc callId transcriptionText speakerId sv
  = (sv, Returned (Normal ())).
Proof.
  intros H. unfold processTranscription. by rewrite pt_enter_blocked.
Qed.

Lemma on_voice_same w : on_voice (λ _, voice w) w = w.
Proof. by destruct w. Qed.

Lemma ensure_existing ext id w :
  hasSession id (voice w) = true →
  ensureGeminiSessionForMeeting ext id w = (Normal true, w).
Proof.
  intros Hhas. unfold ensureGeminiSessionForMeeting, try_catch, bind, gets.
  by rewrite Hhas.
Qed.

(** X23.  A caption spoken by the agent of the session, or arriving while
    the session is busy with a turn, is dropped: the request is answered
    with success and nothing at all is changed, not even the history. *)
Theorem caption_of_agent_or_busy_is_dropped ext req payload w id l s speakerId :
  delivers ext req payload →
  event_type payload "call.closed_caption" →
  caption_meetingId payload = Normal (JStr id) →
  id ≠ "" →
  get_session id (voice w) = Some (l, s) →
  caption_speakerId payload = Normal speakerId →
  isProcessing s = true ∨ speakerId = JStr (agentUserId s) →
  (POST ext req w).2 = w ∧
  ∃ resp, (POST ext req w).1 = Normal resp ∧ status_code resp = 200.
Proof.
  intros Hd Hty Hid Hne Hs Hsp Hguard.
  rewrite (POST_delivers _ _ _ _ Hd), (dispatch_type _ _ _ Hty). simpl.
  assert (hasSession id (voice w) = true) as Hhas.
  { apply get_session_Some in Hs as [Hm _]. apply bool_decide_eq_true. eauto. }
  assert (∃ r, closed_caption ext payload w = (Normal r, w) ∧ ignored_or_through r)
    as (r & -> & Hr).
  2:{ unfold acknowledge. simpl. split; [done|]. destruct Hr as [-> | ->]; eauto. }
  unfold closed_caption, try_catch. unfold bind at 1. unfold lift at 1.
  rewrite Hid, (truthy_id _ Hne). simpl.
  unfold bind at 1. rewrite (ensure_existing _ _ _ Hhas). simpl.
  unfold bind at 1. unfold lift at 1. rewrite Hsp.
  destruct (extractCaptionText _ payload) as [text|];
    [|eexists; split; [done|by right]].
  destruct (_ || _); [eexists; split; [done|by right]|].
  unfold bind, await_processTranscription.
  rewrite processTranscription_blocked.
  - simpl. rewrite on_voice_same. eexists; split; [done|by left].
  - right. exists l, s. split; [done|]. destruct Hguard as [Hp| ->]; [by left|].
    right. simpl. apply String.eqb_refl.
Qed.

Lemma caption_of_agent_or_busy_is_dropped_witness :
  (POST (delivering caption_of_the_agent) signed_request caption_came_first).2
  = caption_came_first.
Proof.
  destruct (caption_of_agent_or_busy_is_dropped (delivering caption_of_the_agent)
              signed_request caption_of_the_agent caption_came_first "m1" 0%nat
              {| call := "m1"; agentUserId := "agent-1";
                 instructions := "Be brief.";
                 conversationHistory :=
                   [ {| role := "user"; content := "hello" |};
                     {| role := "assistant"; content := "Hello there" |} ];
                 isProcessing := false;
                 audioResponses := [] |}
              (JStr "agent-1")) as [Hw _].
  - by repeat split.
  - reflexivity.
  - reflexivity.
  - discriminate.
  - reflexivity.
  - reflexivity.
  - by right.
  - exact Hw.
Defined.




(** * Scenarios *)

Example normaliser_finds_nothing :
  extractCaptionText 8 (JObj []) = None ∧
  extractCaptionText 8 (JObj [("closed_caption", JObj [])]) = None ∧
  extractCaptionText 8 (JObj [("a", JObj [("b", JArr [JObj [("c", JNum 1)]])])])
  = None ∧
  extractCaptionText 8 (JObj [("text", JStr (String (ascii_of_nat 226)
                                            (String (ascii_of_nat 128)
                                               (String (ascii_of_nat 131) ""))))])
  = None.
Proof. repeat split. Qed.

Example normaliser_finds_text :
  extractCaptionText 8 (JObj [("closed_caption", JObj [("text", JStr "direct")])])
  = Some "direct" ∧
  extractCaptionText 8
    (JObj [("caption", JObj [("data", JObj [("content", JStr "nested")])])])
  = Some "nested" ∧
  extractCaptionText 8 (JObj [("a", JArr [JNull; JObj [("caption", JStr "scan")]])])
  = Some "scan" ∧
  extractCaptionText 8 nested_caption = Some "deep".
Proof. repeat split. Qed.

Example normaliser_gives_up_on_the_deep_branch :
  extractCaptionText 1
    (JObj [("a", JObj [("b", JObj [("text", JStr "deep")])]);
           ("text", JStr "shallow")])
  = Some "shallow" ∧
  extractCaptionText 0
    (JObj [("a", JObj [("b", JObj [("text", JStr "deep")])]);
           ("text", JStr "shallow")])
  = None.
Proof. repeat split. Qed.

Example start_event_activates_and_creates :
  let after := POST (delivering session_started_m1) signed_request
                 {| voice := {| sessions := ∅; heap := [] |};
                    meetings := meetings caption_came_first;
                    agents := agents caption_came_first |} in
  after.1 = Normal (respond_status "ok") ∧
  status <$> meetings after.2 !! "m1" = Some active ∧
  hasSession "m1" (voice after.2) = true.
Proof. repeat split. Qed.

Example caption_without_meeting_is_ignored :
  POST (delivering (JObj [("type", JStr "call.closed_caption")])) signed_request
    caption_came_first
  = (Normal (respond_status "ignored"), caption_came_first).
Proof. reflexivity. Qed.
